(** * kwik: the ordered tree ([binary_tree.hpp]) and its AVL balancer
    ([avl_tree.hpp])

    The two classes are pointer programs: nodes live on the C++ heap and are
    linked through [parent], [left] and [right].  Several of the properties
    studied below depend on which cell a pointer designates after an update,
    so the embedding keeps the heap explicit: a finite map from addresses to
    node cells, threaded through every member function by a state and
    failure monad.

    The file also embeds [kwik::utils::split] and the CSV writer and reader
    built on it, over lists of characters. *)

From Stdlib Require Import ZArith Lia Ascii.
From stdpp Require Import gmap list sorting.

Open Scope Z_scope.

(** ** Machine integers *)

(** [uint64_t] / [size_t] arithmetic wraps modulo 2^64. *)
Definition wrap64 (z : Z) : Z := z mod 2 ^ 64.

(** Conversion of a [uint64_t] value to [int64_t] (two's complement). *)
Definition to_int64 (z : Z) : Z := if z <? 2 ^ 63 then z else z - 2 ^ 64.

(** ** The heap and the tree object *)

Abbreviation addr := positive.

(** A [node *]: [None] is [nullptr]. *)
Abbreviation ptr := (option addr).

Section Model.

Context {T : Type}.

(** [struct node] of [binary_tree<T>]. *)
Record node : Type := mk_node {
  data : T;
  parent : ptr;
  left : ptr;
  right : ptr;
  height : Z
}.

(** The free store together with the data members of one tree object
    ([tree_root], [tree_size]). *)
Record state : Type := mk_state {
  heap : gmap addr node;
  tree_root : ptr;
  tree_size : Z
}.

(** A computation either returns a value and a new state, or goes wrong
    ([None]): a null pointer or a pointer to a deleted node is read, written
    or deleted, or the recursion budget is exhausted. *)
Definition M (A : Type) : Type := state → option (A * state).

Definition ret {A} (x : A) : M A := λ s, Some (x, s).

Definition bind {A B} (m : M A) (k : A → M B) : M B :=
  λ s, match m s with
       | Some (x, s') => k x s'
       | None => None
       end.

Definition fault {A} : M A := λ _, None.

End Model.

Arguments node : clear implicits.
Arguments state : clear implicits.
Arguments M : clear implicits.

Notation "x <- m ;; k" := (bind m (λ x, k))
  (at level 100, m at next level, right associativity).
Notation "m ;; k" := (bind m (λ _, k))
  (at level 100, right associativity).

(** New empty tree object on an empty free store. *)
Definition empty {T} : state T :=
  {| heap := ∅; tree_root := None; tree_size := 0 |}.

(** ** [kwik::binary_tree<T>] *)

Module binary_tree.
Section with_compare.

Context {T : Type}.

(** The three-way comparator stored in the object ([int (T, T)]). *)
Variable compare : T → T → Z.

(** The virtual member [balance], resolved by the dynamic class. *)
Variable balance : addr → M T addr.

(** *** Memory accesses *)

Definition load (a : addr) : M T (node T) :=
  λ s, match heap s !! a with
       | Some n => Some (n, s)
       | None => None
       end.

(** A store changes one field of the cell at [a].  A store through a pointer
    whose cell has been deleted is a use after free and goes wrong, as a load
    does. *)
Definition store (a : addr) (f : node T → node T) : M T unit :=
  λ s, match heap s !! a with
       | Some n => Some (tt, {| heap := <[a := f n]> (heap s);
                                tree_root := tree_root s;
                                tree_size := tree_size s |})
       | None => None
       end.

(** Dereferencing [nullptr] goes wrong. *)
Definition deref (p : ptr) : M T addr :=
  match p with
  | Some a => ret a
  | None => fault
  end.

Definition get_parent (a : addr) : M T ptr := n <- load a;; ret (parent n).
Definition get_left (a : addr) : M T ptr := n <- load a;; ret (left n).
Definition get_right (a : addr) : M T ptr := n <- load a;; ret (right n).
Definition get_height (a : addr) : M T Z := n <- load a;; ret (height n).

Definition set_parent (a : addr) (p : ptr) : M T unit :=
  store a (λ n, mk_node (data n) p (left n) (right n) (height n)).
Definition set_left (a : addr) (p : ptr) : M T unit :=
  store a (λ n, mk_node (data n) (parent n) p (right n) (height n)).
Definition set_right (a : addr) (p : ptr) : M T unit :=
  store a (λ n, mk_node (data n) (parent n) (left n) p (height n)).
Definition set_height (a : addr) (h : Z) : M T unit :=
  store a (λ n, mk_node (data n) (parent n) (left n) (right n) h).

(** [new node(data)]: a cell at an unused address, no links, height 1. *)
Definition new_node (d : T) : M T addr :=
  λ s, let a := fresh (dom (heap s)) in
       Some (a, {| heap := <[a := mk_node d None None None 1]> (heap s);
                   tree_root := tree_root s;
                   tree_size := tree_size s |}).

(** [delete node]; deleting a node twice goes wrong. *)
Definition free (a : addr) : M T unit :=
  λ s, match heap s !! a with
       | Some _ => Some (tt, {| heap := delete a (heap s);
                                tree_root := tree_root s;
                                tree_size := tree_size s |})
       | None => None
       end.

Definition get_root : M T ptr := λ s, Some (tree_root s, s).
Definition set_root (p : ptr) : M T unit :=
  λ s, Some (tt, {| heap := heap s; tree_root := p; tree_size := tree_size s |}).

(** [this->tree_size++] and [this->tree_size--] *)
Definition incr_size : M T unit :=
  λ s, Some (tt, {| heap := heap s; tree_root := tree_root s;
                    tree_size := wrap64 (tree_size s + 1) |}).
Definition decr_size : M T unit :=
  λ s, Some (tt, {| heap := heap s; tree_root := tree_root s;
                    tree_size := wrap64 (tree_size s - 1) |}).

(** Recursion budget of the public operations.  A descent (or a climb along
    [parent]) that visits more cells than the heap holds visits one of them
    twice and, the functions being deterministic, never returns. *)
Definition budget (s : state T) : nat := S (size (heap s)).

(** *** Protected members *)

(** [uint64_t height(node *node)] *)
Definition height_of (p : ptr) : M T Z :=
  match p with
  | Some a => get_height a
  | None => ret 0
  end.

(** The statement
    [node->height = std::max(height(node->left), height(node->right)) + 1],
    which [insert], [parent_refresh_height] and both rotations contain. *)
Definition update_height (a : addr) : M T unit :=
  l <- get_left a;;
  hl <- height_of l;;
  r <- get_right a;;
  hr <- height_of r;;
  set_height a (wrap64 (Z.max hl hr + 1)).

(** [node * find(node *root, T data)] *)
Fixpoint find (fuel : nat) (root : ptr) (d : T) : M T ptr :=
  match root with
  | None => ret None
  | Some r =>
    match fuel with
    | O => fault
    | S fuel' =>
      n <- load r;;
      let cmp := compare (data n) d in
      if cmp =? 0 then ret (Some r)
      else if cmp >? 0 then find fuel' (left n) d
      else find fuel' (right n) d
    end
  end.

(** [node * find_min(node *node)] *)
Fixpoint find_min (fuel : nat) (p : ptr) : M T ptr :=
  match p with
  | None => ret None
  | Some a =>
    match fuel with
    | O => fault
    | S fuel' =>
      l <- get_left a;;
      match l with
      | None => ret (Some a)
      | Some _ => find_min fuel' l
      end
    end
  end.

(** [node * find_max(node *node)] *)
Fixpoint find_max (fuel : nat) (p : ptr) : M T ptr :=
  match p with
  | None => ret None
  | Some a =>
    match fuel with
    | O => fault
    | S fuel' =>
      r <- get_right a;;
      match r with
      | None => ret (Some a)
      | Some _ => find_max fuel' r
      end
    end
  end.

(** [node * insert(node *root, node *node)].  When the comparator answers 0
    the new node is deleted and the function carries on; its next statement
    stores into [node->parent], the node it has just deleted. *)
Fixpoint insert_at (fuel : nat) (root : ptr) (nd : addr) : M T ptr :=
  match root with
  | None => ret (Some nd)
  | Some r =>
    match fuel with
    | O => fault
    | S fuel' =>
      rn <- load r;;
      nn <- load nd;;
      let cmp := compare (data rn) (data nn) in
      (if cmp =? 0 then decr_size;; free nd else ret tt);;
      set_parent nd (Some r);;
      (if cmp >? 0 then
         l <- get_left r;;
         (match l with Some _ => set_parent nd l | None => ret tt end);;
         l0 <- get_left r;;
         l' <- insert_at fuel' l0 nd;;
         set_left r l'
       else ret tt);;
      (if cmp <? 0 then
         x <- get_right r;;
         (match x with Some _ => set_parent nd x | None => ret tt end);;
         x0 <- get_right r;;
         x' <- insert_at fuel' x0 nd;;
         set_right r x'
       else ret tt);;
      update_height r;;
      b <- balance r;;
      ret (Some b)
    end
  end.

(** [void parent_relink(node *root, node *node)].  Only [left] and [right]
    fields are written, so [root->parent] is read once. *)
Definition parent_relink (root : ptr) (nd : ptr) : M T unit :=
  match root with
  | None => ret tt
  | Some r =>
    p <- get_parent r;;
    match p with
    | None => ret tt
    | Some pa =>
      l <- get_left pa;;
      (if decide (l = Some r) then set_left pa nd else ret tt);;
      x <- get_right pa;;
      (if decide (x = Some r) then set_right pa nd else ret tt)
    end
  end.

(** [void parent_unlink(node *node)] *)
Definition parent_unlink (nd : ptr) : M T unit := parent_relink nd None.

(** [void parent_refresh_height(node *node)] *)
Fixpoint parent_refresh_height (fuel : nat) (p : ptr) : M T unit :=
  match p with
  | None => ret tt
  | Some a =>
    match fuel with
    | O => fault
    | S fuel' =>
      update_height a;;
      q <- get_parent a;;
      match q with
      | Some _ => parent_refresh_height fuel' q
      | None => ret tt
      end
    end
  end.

(** *** Public members *)

(** [node * root()] *)
Definition root : M T ptr := get_root.

(** [size_t size()] *)
Definition size : M T Z := λ s, Some (tree_size s, s).

(** [uint64_t height()] *)
Definition tree_height : M T Z := r <- get_root;; height_of r.

(** [void insert(node *node)] *)
Definition insert_node (nd : addr) : M T unit :=
  λ s, (incr_size;;
        r <- get_root;;
        r' <- insert_at (budget s) r nd;;
        set_root r') s.

(** [void insert(T data)] *)
Definition insert (d : T) : M T unit :=
  nd <- new_node d;;
  insert_node nd.

(** [void remove(node *node)] *)
Definition remove_node (np : ptr) : M T unit :=
  match np with
  | None => ret tt
  | Some nd =>
    λ s,
    (decr_size;;
     l <- get_left nd;;
     r <- get_right nd;;
     promote <-
       match l, r with
       | Some la, Some ra =>
         hl <- get_height la;;
         hr <- get_height ra;;
         if hl >? hr then find_max (budget s) l else find_min (budget s) r
       | None, None => ret None
       | None, Some _ => ret r
       | Some _, None => ret l
       end;;
     match promote with
     | Some pa => p <- get_parent nd;; set_parent pa p
     | None => ret tt
     end;;
     l1 <- get_left nd;;
     (if decide (l1 ≠ promote) then pa <- deref promote;; set_left pa l1
      else ret tt);;
     r1 <- get_right nd;;
     (if decide (r1 ≠ promote) then pa <- deref promote;; set_right pa r1
      else ret tt);;
     parent_unlink promote;;
     parent_relink (Some nd) promote;;
     p <- get_parent nd;;
     parent_refresh_height (budget s)
       (match promote with Some _ => promote | None => p end);;
     rt <- get_root;;
     (if decide (rt = Some nd) then set_root promote else ret tt);;
     free nd) s
  end.

(** [void remove(T data)] *)
Definition remove (d : T) : M T unit :=
  λ s, (r <- get_root;;
        nd <- find (budget s) r d;;
        remove_node nd) s.

(** [void destroy(node *root)] *)
Fixpoint destroy (fuel : nat) (root : ptr) : M T unit :=
  match root with
  | None => ret tt
  | Some r =>
    match fuel with
    | O => fault
    | S fuel' =>
      l <- get_left r;;
      destroy fuel' l;;
      x <- get_right r;;
      destroy fuel' x;;
      free r
    end
  end.

(** [~binary_tree()] *)
Definition destructor : M T unit :=
  λ s, (destroy (budget s) (tree_root s)) s.

End with_compare.

(** [virtual node * balance(node *root)] of the base class. *)
Definition balance {T} (root : addr) : M T addr := ret root.

End binary_tree.

(** ** [kwik::avl_tree<T>] *)

Module avl_tree.
Import binary_tree.
Section with_T.

Context {T : Type}.

(** [int64_t difference(node *node)]: the subtraction is done on [uint64_t]
    and the result converted to [int64_t]. *)
Definition difference (p : ptr) : M T Z :=
  match p with
  | Some a =>
    l <- get_left a;;
    hl <- height_of l;;
    r <- get_right a;;
    hr <- height_of r;;
    ret (to_int64 (wrap64 (hl - hr)))
  | None => ret 0
  end.

(** [node * rr_rotate(node *root)] *)
Definition rr_rotate (root : addr) : M T addr :=
  pp <- get_right root;;
  par <- deref pp;;
  pl <- get_left par;;
  set_right root pl;;
  set_left par (Some root);;
  update_height root;;
  update_height par;;
  ret par.

(** [node * ll_rotate(node *root)] *)
Definition ll_rotate (root : addr) : M T addr :=
  pp <- get_left root;;
  par <- deref pp;;
  pr <- get_right par;;
  set_left root pr;;
  set_right par (Some root);;
  update_height root;;
  update_height par;;
  ret par.

(** [node * lr_rotate(node *root)] *)
Definition lr_rotate (root : addr) : M T addr :=
  l <- get_left root;;
  la <- deref l;;
  l' <- rr_rotate la;;
  set_left root (Some l');;
  ll_rotate root.

(** [node * rl_rotate(node *root)] *)
Definition rl_rotate (root : addr) : M T addr :=
  r <- get_right root;;
  ra <- deref r;;
  r' <- ll_rotate ra;;
  set_right root (Some r');;
  rr_rotate root.

(** [node * balance(node *root)], the override. *)
Definition balance (root : addr) : M T addr :=
  factor <- difference (Some root);;
  if factor >? 1 then
    l <- get_left root;;
    d <- difference l;;
    if d >? 0 then ll_rotate root else lr_rotate root
  else if factor <? -1 then
    r <- get_right root;;
    d <- difference r;;
    if d >? 0 then rl_rotate root else rr_rotate root
  else ret root.

End with_T.
End avl_tree.

(** ** The default comparator and the two concrete classes *)

(** The lambda the constructor installs when no comparator is given, at
    [T = int]. *)
Definition default_compare (a b : Z) : Z :=
  if a <? b then -1 else if a >? b then 1 else 0.

(** The dynamic class of a tree object selects the [balance] hook. *)
Inductive tree_class := BinaryTree | AvlTree.

Definition balance_of {T} (c : tree_class) : addr → M T addr :=
  match c with
  | BinaryTree => binary_tree.balance
  | AvlTree => avl_tree.balance
  end.

(** The two public [insert] overloads as an object of class [c] runs them. *)
Definition tree_insert {T} (c : tree_class) (cmp : T → T → Z) (d : T) : M T unit :=
  binary_tree.insert cmp (balance_of c) d.

Definition tree_insert_node {T} (c : tree_class) (cmp : T → T → Z) (nd : addr) : M T unit :=
  binary_tree.insert_node cmp (balance_of c) nd.

(** ** Running operation sequences *)

Inductive op (T : Type) :=
  | Insert (d : T)
  | Remove (d : T).
Arguments Insert {T} d.
Arguments Remove {T} d.

Definition run_op {T} (c : tree_class) (cmp : T → T → Z) (o : op T) : M T unit :=
  match o with
  | Insert d => tree_insert c cmp d
  | Remove d => binary_tree.remove cmp d
  end.

Fixpoint run {T} (c : tree_class) (cmp : T → T → Z) (os : list (op T)) : M T unit :=
  match os with
  | [] => ret tt
  | o :: os' => run_op c cmp o;; run c cmp os'
  end.

Definition exec {T} (c : tree_class) (cmp : T → T → Z) (os : list (op T)) : option (state T) :=
  snd <$> run c cmp os empty.


(** ** Properties of a heap, stated on the pointer graph *)

Section Graph.

Context {T : Type}.
Implicit Types (h : gmap addr (node T)) (p : ptr) (a b : addr).

(** [in_tree h p b]: the node at [b] belongs to the subtree hanging from the
    pointer [p], following [left] and [right] links. *)
Inductive in_tree h : ptr → addr → Prop :=
  | in_tree_here a n : h !! a = Some n → in_tree h (Some a) a
  | in_tree_left a n b : h !! a = Some n → in_tree h (left n) b → in_tree h (Some a) b
  | in_tree_right a n b : h !! a = Some n → in_tree h (right n) b → in_tree h (Some a) b.

(** The cached height behind a pointer, an absent child counting 0. *)
Definition cached_height h p : Z :=
  match p with
  | Some a => from_option height 0 (h !! a)
  | None => 0
  end.

(** Balance factor of a node: height(left) - height(right). *)
Definition balance_factor h (n : node T) : Z :=
  cached_height h (left n) - cached_height h (right n).

(** Height cache of one node. *)
Definition height_cached h (n : node T) : Prop :=
  height n = 1 + Z.max (cached_height h (left n)) (cached_height h (right n)).

(** Ordering invariant at one node, with the orientation [insert] and [find]
    use: they go left when [compare(root->data, data) > 0]. *)
Definition ordered_at (cmp : T → T → Z) h (n : node T) : Prop :=
  (∀ b m, in_tree h (left n) b → h !! b = Some m → cmp (data n) (data m) > 0) ∧
  (∀ b m, in_tree h (right n) b → h !! b = Some m → cmp (data n) (data m) < 0).

(** Parent back-reference of the node at [b]: absent for the root, otherwise
    the node that holds [b] as a child. *)
Definition parent_correct (s : state T) b (m : node T) : Prop :=
  match parent m with
  | None => tree_root s = Some b
  | Some a => ∃ n, heap s !! a = Some n ∧ (left n = Some b ∨ right n = Some b)
  end ∧ (tree_root s = Some b → parent m = None).

(** The nodes of the tree object: those reachable from [tree_root]. *)
Definition node_of (s : state T) b (m : node T) : Prop :=
  in_tree (heap s) (tree_root s) b ∧ heap s !! b = Some m.

Definition ordered (cmp : T → T → Z) (s : state T) : Prop :=
  ∀ b m, node_of s b m → ordered_at cmp (heap s) m.

Definition heights_cached (s : state T) : Prop :=
  ∀ b m, node_of s b m → height_cached (heap s) m.

Definition balanced (s : state T) : Prop :=
  ∀ b m, node_of s b m → -1 ≤ balance_factor (heap s) m ≤ 1.

Definition parents_correct (s : state T) : Prop :=
  ∀ b m, node_of s b m → parent_correct s b m.

(** In-order traversal, with the recursion of the debugging dump [print]:
    left subtree, the node, right subtree. *)
Fixpoint traverse (fuel : nat) h p : option (list T) :=
  match p with
  | None => Some []
  | Some a =>
    match fuel with
    | O => None
    | S fuel' =>
      match h !! a with
      | None => None
      | Some n =>
        match traverse fuel' h (left n), traverse fuel' h (right n) with
        | Some xs, Some ys => Some (xs ++ data n :: ys)
        | _, _ => None
        end
      end
    end
  end.

End Graph.

(** ** Trees laid out in the heap *)

Section Layout.

Context {T : Type}.
Implicit Types (h : gmap addr (node T)) (p : ptr) (a b : addr).

(** The unfolding of the pointer graph below a pointer, when it is finite:
    each node carries its address and the content of its cell. *)
Inductive tree :=
  | Leaf
  | Bin (a : addr) (n : node T) (l r : tree).

Definition root_of (t : tree) : ptr :=
  match t with
  | Leaf => None
  | Bin a _ _ _ => Some a
  end.

Definition hgt (t : tree) : Z :=
  match t with
  | Leaf => 0
  | Bin _ n _ _ => height n
  end.

Fixpoint addrs (t : tree) : list addr :=
  match t with
  | Leaf => []
  | Bin a _ l r => addrs l ++ a :: addrs r
  end.

Fixpoint values (t : tree) : list T :=
  match t with
  | Leaf => []
  | Bin _ n l r => values l ++ data n :: values r
  end.

Fixpoint depth (t : tree) : nat :=
  match t with
  | Leaf => O
  | Bin _ _ l r => S (Nat.max (depth l) (depth r))
  end.

(** [repr h t]: every node of [t] is the cell the heap holds at its address,
    and its links lead to its subtrees. *)
Fixpoint repr h (t : tree) : Prop :=
  match t with
  | Leaf => True
  | Bin a n l r =>
    h !! a = Some n ∧ left n = root_of l ∧ right n = root_of r ∧
    repr h l ∧ repr h r
  end.

(** The tree object of [s] is the tree [t]: laid out from [tree_root], no
    node shared between two positions. *)
Definition is_tree (s : state T) (t : tree) : Prop :=
  tree_root s = root_of t ∧ repr (heap s) t ∧ NoDup (addrs t).

Fixpoint heights_ok (t : tree) : Prop :=
  match t with
  | Leaf => True
  | Bin _ n l r => height n = Z.max (hgt l) (hgt r) + 1 ∧ heights_ok l ∧ heights_ok r
  end.

Fixpoint avl (t : tree) : Prop :=
  match t with
  | Leaf => True
  | Bin _ _ l r => -1 ≤ hgt l - hgt r ≤ 1 ∧ avl l ∧ avl r
  end.

(** Search-tree ordering, oriented as [ordered_at]. *)
Fixpoint bst (cmp : T → T → Z) (t : tree) : Prop :=
  match t with
  | Leaf => True
  | Bin _ n l r =>
    (∀ x, x ∈ values l → cmp (data n) x > 0) ∧
    (∀ x, x ∈ values r → cmp (data n) x < 0) ∧
    bst cmp l ∧ bst cmp r
  end.

(** The two subtrees of the root differ in height. *)
Definition skew (t : tree) : Prop :=
  match t with
  | Leaf => False
  | Bin _ _ l r => hgt l ≠ hgt r
  end.

(** A node as [new_node] makes it, whatever [parent] has become. *)
Definition pristine (n : node T) : Prop :=
  left n = None ∧ right n = None ∧ height n = 1.

(** How the height of a subtree may change by one insertion. *)
Definition grew (t t' : tree) : Prop :=
  hgt t' = hgt t ∨ (hgt t' = hgt t + 1 ∧ (hgt t = 0 ∨ skew t')).

(** The comparator precondition of the class: [cmp a b < 0] is a strict total
    order and [cmp a b = 0] only for the same value. *)
Record strict_total_order (cmp : T → T → Z) : Prop := {
  cmp_eq : ∀ x y : T, cmp x y = 0 ↔ x = y;
  cmp_antisym : ∀ x y : T, cmp x y < 0 ↔ cmp y x > 0;
  cmp_trans : ∀ x y z : T, cmp x y < 0 → cmp y z < 0 → cmp x z < 0
}.

(** The descent of [insert] and [find] for [v] meets a node that compares
    equal. *)
Fixpoint hits (cmp : T → T → Z) (v : T) (t : tree) : Prop :=
  match t with
  | Leaf => False
  | Bin _ n l r =>
    if cmp (data n) v =? 0 then True
    else if cmp (data n) v >? 0 then hits cmp v l
    else hits cmp v r
  end.

(** The in-order values once [insert] has placed [v], on a descent that
    meets no node comparing equal: [v] is added where the descent ends. *)
Fixpoint pins (cmp : T → T → Z) (v : T) (t : tree) : list T :=
  match t with
  | Leaf => [v]
  | Bin _ n l r =>
    if cmp (data n) v >? 0 then pins cmp v l ++ data n :: values r
    else values l ++ data n :: pins cmp v r
  end.

(** No value of the workload compares equal to one inserted before it, with
    the arguments in the order [insert] passes them. *)
Definition no_equal (cmp : T → T → Z) (vs : list T) : Prop :=
  StronglySorted (λ x v, cmp x v ≠ 0) vs.

(** Parent back-references below a position whose own parent is [p]. *)
Fixpoint parents_ok (p : ptr) (t : tree) : Prop :=
  match t with
  | Leaf => True
  | Bin a n l r => parent n = p ∧ parents_ok (Some a) l ∧ parents_ok (Some a) r
  end.

(** Strictly ascending in the order of the comparator. *)
Definition sorted (cmp : T → T → Z) (l : list T) : Prop :=
  StronglySorted (λ x y, cmp x y < 0) l.

(** What insertions keep true of a tree object of class [c]: it is the tree
    [t], the height cache is right, an AVL tree is balanced, [size()] counts
    the nodes, and the free store holds no cell outside the tree. *)
Definition sound (c : tree_class) (s : state T) (t : tree) : Prop :=
  is_tree s t ∧ heights_ok t ∧ (c = AvlTree → avl t) ∧
  tree_size s = Z.of_nat (length (addrs t)) ∧
  (∀ a, is_Some (heap s !! a) → a ∈ addrs t).

(** The tree [t] once the leaf at [x] is gone: the links to it cleared and
    the heights above it computed anew. *)
Fixpoint without (x : addr) (t : tree) : tree :=
  match t with
  | Leaf => Leaf
  | Bin a n l r =>
    if decide (a = x) then Leaf
    else
      let l' := without x l in
      let r' := without x r in
      Bin a (mk_node (data n) (parent n) (root_of l') (root_of r')
               (wrap64 (Z.max (hgt l') (hgt r') + 1))) l' r'
  end.

End Layout.

Arguments tree : clear implicits.

(** ** Sample data over [int] *)

Definition cell (d : Z) (p l r : ptr) (ht : Z) : node Z := mk_node d p l r ht.

(** The AVL tree holding 10, 20, 30, and the state that lays it out. *)
Definition sample_tree : tree Z :=
  Bin 2%positive (cell 20 (Some 1%positive) (Some 1%positive) (Some 3%positive) 2)
    (Bin 1%positive (cell 10 None None None 1) Leaf Leaf)
    (Bin 3%positive (cell 30 (Some 2%positive) None None 1) Leaf Leaf).

Definition sample : state Z :=
  {| heap := list_to_map
       [(1%positive, cell 10 None None None 1);
        (2%positive, cell 20 (Some 1%positive) (Some 1%positive) (Some 3%positive) 2);
        (3%positive, cell 30 (Some 2%positive) None None 1)];
     tree_root := Some 2%positive;
     tree_size := 3 |}.

(** What each of the four rotation scenarios ends with: 20 at the root of a
    tree of height 2 whose in-order traversal is 10, 20, 30. *)
Definition rotated (s : state Z) : Prop :=
  ∃ a, tree_root s = Some a ∧
    traverse 1 (heap s) (tree_root s) = None ∧
    traverse 2 (heap s) (tree_root s) = Some [10; 20; 30] ∧
    data <$> heap s !! a = Some 20 ∧
    binary_tree.tree_height s = Some (2, s) ∧
    tree_size s = 3.

(** Two chains as plain [binary_tree] insertions leave them: 30, 10, 20 and
    10, 30, 20. *)
Definition zig_tree : tree Z :=
  Bin 1%positive (cell 30 None (Some 2%positive) None 3)
    (Bin 2%positive (cell 10 (Some 1%positive) None (Some 3%positive) 2) Leaf
       (Bin 3%positive (cell 20 (Some 2%positive) None None 1) Leaf Leaf))
    Leaf.

Definition zig_heap : gmap addr (node Z) :=
  list_to_map
    [(1%positive, cell 30 None (Some 2%positive) None 3);
     (2%positive, cell 10 (Some 1%positive) None (Some 3%positive) 2);
     (3%positive, cell 20 (Some 2%positive) None None 1)].

Definition zag_tree : tree Z :=
  Bin 1%positive (cell 10 None None (Some 2%positive) 3) Leaf
    (Bin 2%positive (cell 30 (Some 1%positive) (Some 3%positive) None 2)
       (Bin 3%positive (cell 20 (Some 2%positive) None None 1) Leaf Leaf)
       Leaf).

Definition zag_heap : gmap addr (node Z) :=
  list_to_map
    [(1%positive, cell 10 None None (Some 2%positive) 3);
     (2%positive, cell 30 (Some 1%positive) (Some 3%positive) None 2);
     (3%positive, cell 20 (Some 2%positive) None None 1)].

(** The plain [binary_tree] holding 20, 10, 30, as its insertions leave it. *)
Definition plain_tree : tree Z :=
  Bin 1%positive (cell 20 None (Some 2%positive) (Some 3%positive) 2)
    (Bin 2%positive (cell 10 (Some 1%positive) None None 1) Leaf Leaf)
    (Bin 3%positive (cell 30 (Some 1%positive) None None 1) Leaf Leaf).

Definition plain_sample : state Z :=
  {| heap := list_to_map
       [(1%positive, cell 20 None (Some 2%positive) (Some 3%positive) 2);
        (2%positive, cell 10 (Some 1%positive) None None 1);
        (3%positive, cell 30 (Some 1%positive) None None 1)];
     tree_root := Some 1%positive;
     tree_size := 3 |}.

(** ** [kwik::utils::split], [kwik::csv_writer] and [kwik::csv_reader] *)

#[local] Instance ascii_eq_dec : EqDecision ascii := Ascii.ascii_dec.

Module utils.

(** The terminator of a C string. *)
Definition nul : ascii := Ascii.zero.

(** The character a [char *] into the buffer of a [std::string] points at:
    [c_str()] ends with a terminator past the last character. *)
Definition char_at (buf : list ascii) (i : nat) : ascii := nth i buf nul.

(** [strspn(s, accept)] and [strcspn(s, reject)] of the C library, on the
    characters from a pointer on; both stop at the terminator. *)
Fixpoint strspn (s accept : list ascii) : nat :=
  match s with
  | c :: s' =>
    if bool_decide (c ≠ nul ∧ c ∈ accept) then S (strspn s' accept) else O
  | [] => O
  end.

Fixpoint strcspn (s reject : list ascii) : nat :=
  match s with
  | c :: s' =>
    if bool_decide (c = nul ∨ c ∈ reject) then O else S (strcspn s' reject)
  | [] => O
  end.

(** [strtok_r(s, delim, &save_ptr)] of the C library, pointers being indices
    into the buffer: the token found (if any), the buffer with the
    terminator written behind the token, and the new [save_ptr]. *)
Definition strtok_r (buf : list ascii) (s : nat) (delim : list ascii)
    : option nat * list ascii * nat :=
  if bool_decide (char_at buf s = nul) then (None, buf, s) else
  let s := (s + strspn (drop s buf) delim)%nat in
  if bool_decide (char_at buf s = nul) then (None, buf, s) else
  let e := (s + strcspn (drop s buf) delim)%nat in
  if bool_decide (char_at buf e = nul) then (Some s, buf, e)
  else (Some s, <[e := nul]> buf, S e).

(** [std::string(token)]: the characters up to the terminator. *)
Definition string_at (buf : list ascii) (i : nat) : list ascii :=
  take (strcspn (drop i buf) []) (drop i buf).

(** The loop of [split], from the call of [strtok_r] that its header or its
    step makes. *)
Fixpoint split_from (fuel : nat) (buf : list ascii) (s : nat) (delim : list ascii)
    (values : list (list ascii)) : option (list (list ascii) * list ascii) :=
  match fuel with
  | O => None
  | S fuel' =>
    match strtok_r buf s delim with
    | (None, buf', _) => Some (values, buf')
    | (Some token, buf', save_ptr) =>
      split_from fuel' buf' save_ptr delim (values ++ [string_at buf' token])
    end
  end.

(** [std::vector<std::string> split(const std::string &input, const char
    *delimiter)]: the values, and what [strtok_r] has made of the buffer of
    [input], whose [const] the function casts away. *)
Definition split (input delim : list ascii) : option (list (list ascii) * list ascii) :=
  split_from (S (length input)) input 0 delim [].

(** The fields of a line: the maximal runs of characters that are neither a
    delimiter nor the terminator, up to the first terminator. *)
Fixpoint fields (delim s cur : list ascii) : list (list ascii) :=
  match s with
  | [] => if cur is [] then [] else [cur]
  | c :: s' =>
    if bool_decide (c = nul) then (if cur is [] then [] else [cur])
    else if bool_decide (c ∈ delim)
    then (if cur is [] then fields delim s' [] else cur :: fields delim s' [])
    else fields delim s' (cur ++ [c])
  end.

(** What [strtok_r] may make of a buffer: a delimiter here and there has
    become the terminator. *)
Definition overwritten (delim buf buf' : list ascii) : Prop :=
  Forall2 (λ c c', c' = c ∨ (c' = nul ∧ c ≠ nul ∧ c ∈ delim)) buf buf'.

(** A character that may stand in a field. *)
Definition plain (delim : list ascii) (c : ascii) : Prop := c ≠ nul ∧ c ∉ delim.

(** At the terminator. *)
Definition ended (s : list ascii) : Prop :=
  match s with [] => True | c :: _ => c = nul end.

End utils.

(** ** [kwik::csv_writer] and [kwik::csv_reader] at [T = std::string] *)

Definition comma : ascii := ","%char.
Definition newline : ascii := "010"%char.

Module csv_writer.

(** The [std::stringstream line] of the writer and the characters its file
    has received. *)
Record t := mk { line : list ascii; file : list ascii }.

(** [csv_writer & operator<<(T value)] *)
Definition put (value : list ascii) (w : t) : t :=
  {| line := line w ++ value ++ [comma]; file := file w |}.

(** [csv_writer & operator<<(endl_t)] *)
Definition endl (w : t) : t :=
  let line_value := line w in
  if bool_decide (length line_value ≠ 0%nat) then
    {| line := [];
       file := file w ++ take (length line_value - 1) line_value ++ [newline] |}
  else
    {| line := line w; file := file w ++ line_value ++ [newline] |}.

(** A row as client code writes it: [w << v1 << ... << vn << endl]. *)
Definition put_row (row : list (list ascii)) (w : t) : t :=
  endl (foldl (λ w v, put v w) w row).

End csv_writer.

Module csv_reader.

(** [std::getline(file, line)] on the characters still unread: the line up
    to the next newline, which is consumed, and what is left. *)
Fixpoint getline (s : list ascii) : list ascii * list ascii :=
  match s with
  | [] => ([], [])
  | c :: s' =>
    if bool_decide (c = newline) then ([], s')
    else let '(l, r) := getline s' in (c :: l, r)
  end.

(** [bool file_reader::read_line(std::string &line)] without a progress bar:
    [None] when [getline] extracts nothing and fails, at the end of the
    file. *)
Definition read_line (file : list ascii) : option (list ascii) * list ascii :=
  match file with
  | [] => (None, [])
  | _ => let '(l, r) := getline file in (Some l, r)
  end.

(** [bool csv_reader::read_row(std::vector<std::string> &row)]: the row on
    [true], and what is left of the file. *)
Definition read_row (file : list ascii)
    : option (option (list (list ascii)) * list ascii) :=
  match read_line file with
  | (None, file') => Some (None, file')
  | (Some line, file') =>
    '(row, _) ← utils.split line [comma];
    Some (Some row, file')
  end.

End csv_reader.

(** A character that survives a round trip through a CSV file. *)
Definition csv_plain (c : ascii) : Prop :=
  c ≠ utils.nul ∧ c ≠ comma ∧ c ≠ newline.

(** * Proofs *)

(** ** Laid-out trees *)

Section LayoutFacts.

Context {T : Type}.
Implicit Types (h : gmap addr (node T)) (p : ptr) (a b : addr) (t : tree T).

Lemma repr_frame h h' t :
  repr h t → (∀ a, a ∈ addrs t → h' !! a = h !! a) → repr h' t.
Proof.
  induction t as [|a n l IHl r IHr]; simpl; [done|].
  intros (Ha & Hl & Hr & Rl & Rr) Hfr. split_and!; try done.
  - rewrite Hfr; [done|]. set_solver.
  - apply IHl; [done|]. intros b Hb. apply Hfr. set_solver.
  - apply IHr; [done|]. intros b Hb. apply Hfr. set_solver.
Qed.

Lemma repr_live h t a : repr h t → a ∈ addrs t → is_Some (h !! a).
Proof.
  induction t as [|c n l IHl r IHr]; simpl; [set_solver|].
  intros (Ha & _ & _ & Rl & Rr) Hin.
  apply elem_of_app in Hin as [Hin|Hin]; [by apply IHl|].
  apply elem_of_cons in Hin as [->|Hin]; [by eexists|by apply IHr].
Qed.

Lemma in_tree_addrs h t b : repr h t → in_tree h (root_of t) b → b ∈ addrs t.
Proof.
  induction t as [|c n l IHl r IHr] in b |- *; simpl.
  - intros _ H. inversion H.
  - intros (Ha & Hl & Hr & Rl & Rr) H.
    inversion H as [a' n' Hn|a' n' b' Hn Hin|a' n' b' Hn Hin]; subst.
    + set_solver.
    + rewrite Ha in Hn. injection Hn as <-. rewrite Hl in Hin.
      specialize (IHl _ Rl Hin). set_solver.
    + rewrite Ha in Hn. injection Hn as <-. rewrite Hr in Hin.
      specialize (IHr _ Rr Hin). set_solver.
Qed.

Lemma hgt_cached h t : repr h t → cached_height h (root_of t) = hgt t.
Proof. destruct t; simpl; [done|]. by intros (-> & _). Qed.

Lemma heights_ok_nonneg t : heights_ok t → 0 ≤ hgt t.
Proof.
  induction t as [|a n l IHl r IHr]; simpl; [lia|].
  intros (-> & Hl & Hr). specialize (IHl Hl). lia.
Qed.

Lemma repr_insert_ne h a n t : a ∉ addrs t → repr h t → repr (<[a:=n]> h) t.
Proof.
  intros Ha R. apply (repr_frame h); [done|].
  intros b Hb. apply lookup_insert_ne. intros ->. done.
Qed.

Lemma repr_delete_ne h a t : a ∉ addrs t → repr h t → repr (delete a h) t.
Proof.
  intros Ha R. apply (repr_frame h); [done|].
  intros b Hb. apply lookup_delete_ne. intros ->. done.
Qed.

End LayoutFacts.

(** ** Stepping through the monadic code *)

Section Steps.

Context {T : Type}.
Implicit Types (h : gmap addr (node T)) (p rt : ptr) (a b : addr) (sz : Z).

Import binary_tree.

Lemma bind_Some {A B} (m : M T A) (k : A → M T B) s x s1 r :
  m s = Some (x, s1) → k x s1 = r → bind m k s = r.
Proof. unfold bind. by intros ->. Qed.

Lemma load_Some h rt sz a n :
  h !! a = Some n → load a (mk_state h rt sz) = Some (n, mk_state h rt sz).
Proof. unfold load; simpl. by intros ->. Qed.

Lemma get_parent_Some h rt sz a n :
  h !! a = Some n → get_parent a (mk_state h rt sz) = Some (parent n, mk_state h rt sz).
Proof. intros H. unfold get_parent. by erewrite bind_Some; [|by apply load_Some|]. Qed.

Lemma get_left_Some h rt sz a n :
  h !! a = Some n → get_left a (mk_state h rt sz) = Some (left n, mk_state h rt sz).
Proof. intros H. unfold get_left. by erewrite bind_Some; [|by apply load_Some|]. Qed.

Lemma get_right_Some h rt sz a n :
  h !! a = Some n → get_right a (mk_state h rt sz) = Some (right n, mk_state h rt sz).
Proof. intros H. unfold get_right. by erewrite bind_Some; [|by apply load_Some|]. Qed.

Lemma get_height_Some h rt sz a n :
  h !! a = Some n → get_height a (mk_state h rt sz) = Some (height n, mk_state h rt sz).
Proof. intros H. unfold get_height. by erewrite bind_Some; [|by apply load_Some|]. Qed.

Lemma store_Some h rt sz a n f :
  h !! a = Some n →
  store a f (mk_state h rt sz) = Some (tt, mk_state (<[a := f n]> h) rt sz).
Proof. intros H. unfold store; simpl. by rewrite H. Qed.

Lemma store_deleted h rt sz a f :
  h !! a = None → store a f (mk_state h rt sz) = None.
Proof. intros H. unfold store; simpl. by rewrite H. Qed.

Lemma free_Some h rt sz a n :
  h !! a = Some n →
  free a (mk_state h rt sz) = Some (tt, mk_state (delete a h) rt sz).
Proof. intros H. unfold free; simpl. by rewrite H. Qed.

Lemma set_parent_Some h rt sz a n p :
  h !! a = Some n →
  set_parent a p (mk_state h rt sz) =
  Some (tt, mk_state (<[a := mk_node (data n) p (left n) (right n) (height n)]> h) rt sz).
Proof. intros H. unfold set_parent. by rewrite (store_Some _ _ _ _ n). Qed.

Lemma set_left_Some h rt sz a n p :
  h !! a = Some n →
  set_left a p (mk_state h rt sz) =
  Some (tt, mk_state (<[a := mk_node (data n) (parent n) p (right n) (height n)]> h) rt sz).
Proof. intros H. unfold set_left. by rewrite (store_Some _ _ _ _ n). Qed.

Lemma set_right_Some h rt sz a n p :
  h !! a = Some n →
  set_right a p (mk_state h rt sz) =
  Some (tt, mk_state (<[a := mk_node (data n) (parent n) (left n) p (height n)]> h) rt sz).
Proof. intros H. unfold set_right. by rewrite (store_Some _ _ _ _ n). Qed.

Lemma height_of_repr h rt sz (t : tree T) :
  repr h t → height_of (root_of t) (mk_state h rt sz) = Some (hgt t, mk_state h rt sz).
Proof.
  destruct t as [|a n l r]; simpl; [done|].
  intros (Ha & _). by apply get_height_Some.
Qed.

Lemma update_height_repr h rt sz a n (l r : tree T) :
  h !! a = Some n → left n = root_of l → right n = root_of r →
  repr h l → repr h r →
  update_height a (mk_state h rt sz) =
  Some (tt, mk_state (<[a := mk_node (data n) (parent n) (left n) (right n)
                                 (wrap64 (Z.max (hgt l) (hgt r) + 1))]> h) rt sz).
Proof.
  intros Ha Hl Hr Rl Rr. unfold update_height.
  eapply bind_Some; [by apply get_left_Some|]. rewrite Hl.
  eapply bind_Some; [by apply height_of_repr|].
  eapply bind_Some; [by apply get_right_Some|]. rewrite Hr.
  eapply bind_Some; [by apply height_of_repr|].
  unfold set_height. rewrite (store_Some _ _ _ _ n) by done.
  by rewrite Hl, Hr.
Qed.

End Steps.

(** Proof steps shared by the lemmas below. *)

Ltac frame_repr := repeat (apply repr_insert_ne; [done|]); done.

Ltac norm_lists := simpl; repeat (rewrite <- app_assoc; simpl).
Ltac norm_lists_in H := simpl in H; repeat (rewrite <- app_assoc in H; simpl in H).

Ltac inst_disjoint :=
  repeat match goal with
  | H : ∀ x, x ∈ ?L → x ∉ ?K, a : positive |- _ =>
    lazymatch goal with
    | _ : a ∈ L → a ∉ K |- _ => fail
    | _ => pose proof (H a)
    end
  end.

(** Closed side conditions on the values of concrete workloads. *)
Ltac no_equal_values :=
  unfold no_equal;
  repeat first
    [ apply SSorted_nil
    | apply SSorted_cons
    | apply Forall_nil_2
    | apply Forall_cons_2
    | (intros ?; discriminate) ].

Ltac distinct_values :=
  repeat (apply NoDup_cons; split; [set_solver|]); apply NoDup_nil_2.

(** Closed side conditions on the characters of concrete values. *)
Ltac plain_chars :=
  repeat first
    [ apply Forall_nil_2
    | apply Forall_cons_2
    | split
    | discriminate
    | (let H := fresh in
       intros H; repeat (apply elem_of_cons in H as [H|H]; [discriminate|]);
       by apply elem_of_nil in H) ].

Ltac split_nodup H :=
  simpl in H;
  repeat first [ rewrite NoDup_app in H | rewrite NoDup_cons in H ];
  destruct_and? H; inst_disjoint.

(** ** The rotations on laid-out trees *)

Section Rotations.

Context {T : Type}.
Implicit Types (h : gmap addr (node T)) (p rt : ptr) (a b c : addr) (sz : Z).
Implicit Types (t tl tm tr : tree T).

Import binary_tree avl_tree.

Lemma rr_rotate_repr h rt sz a na tl b nb tm tr :
  repr h (Bin a na tl (Bin b nb tm tr)) →
  NoDup (addrs (Bin a na tl (Bin b nb tm tr))) →
  ∃ h' na' nb',
    rr_rotate a (mk_state h rt sz) = Some (b, mk_state h' rt sz) ∧
    repr h' (Bin b nb' (Bin a na' tl tm) tr) ∧
    height na' = wrap64 (Z.max (hgt tl) (hgt tm) + 1) ∧
    height nb' = wrap64 (Z.max (height na') (hgt tr) + 1) ∧
    data na' = data na ∧ data nb' = data nb ∧
    (∀ c, c ≠ a → c ≠ b → h' !! c = h !! c).
Proof.
  simpl. intros (Ha & Hal & Har & Rl & Hb & Hbl & Hbr & Rm & Rr) ND.
  assert (a ≠ b ∧ (a ∉ addrs tl) ∧ (a ∉ addrs tm) ∧ (a ∉ addrs tr) ∧
          (b ∉ addrs tl) ∧ (b ∉ addrs tm) ∧ (b ∉ addrs tr))
    as (Hab & ? & ? & ? & ? & ? & ?).
  { split_nodup ND. set_solver. }
  set (na1 := mk_node (data na) (parent na) (left na) (left nb) (height na)).
  set (nb1 := mk_node (data nb) (parent nb) (Some a) (right nb) (height nb)).
  set (na' := mk_node (data na) (parent na) (left na) (left nb)
                (wrap64 (Z.max (hgt tl) (hgt tm) + 1))).
  set (nb' := mk_node (data nb) (parent nb) (Some a) (right nb)
                (wrap64 (Z.max (height na') (hgt tr) + 1))).
  set (h1 := <[a := na1]> h).
  set (h2 := <[b := nb1]> h1).
  set (h3 := <[a := na']> h2).
  set (h4 := <[b := nb']> h3).
  assert (h1 !! b = Some nb) as Hb1 by (unfold h1; by rewrite lookup_insert_ne).
  assert (h2 !! a = Some na1) as Ha2.
  { unfold h2, h1. rewrite lookup_insert_ne by done. apply lookup_insert_eq. }
  assert (h3 !! b = Some nb1) as Hb3.
  { unfold h3, h2. rewrite lookup_insert_ne by done. apply lookup_insert_eq. }
  assert (repr h2 tl ∧ repr h2 tm) as [Rl2 Rm2].
  { split; repeat (apply repr_insert_ne; [done|]); done. }
  assert (repr h3 (Bin a na' tl tm)) as Ra3.
  { simpl. split_and!; try done.
    - apply lookup_insert_eq.
    - by apply repr_insert_ne.
    - by apply repr_insert_ne. }
  assert (repr h3 tr) as Rr3 by (repeat (apply repr_insert_ne; [done|]); done).
  assert (repr h4 (Bin b nb' (Bin a na' tl tm) tr)) as R4.
  { simpl. split_and!; try done.
    - apply lookup_insert_eq.
    - unfold h4, h3. rewrite lookup_insert_ne by done. apply lookup_insert_eq.
    - frame_repr.
    - frame_repr.
    - frame_repr. }
  exists h4, na', nb'. split; [|split; [exact R4|split_and!; try done]].
  - unfold rr_rotate.
    eapply bind_Some; [by apply get_right_Some|]. rewrite Har. simpl.
    eapply bind_Some; [done|].
    eapply bind_Some; [by apply get_left_Some|].
    eapply bind_Some; [unfold set_right; by apply store_Some|]. fold na1 h1.
    eapply bind_Some; [unfold set_left; by apply store_Some|]. fold nb1 h2.
    eapply bind_Some; [by apply (update_height_repr _ _ _ a na1 tl tm)|].
    fold na' h3.
    eapply bind_Some; [by apply (update_height_repr _ _ _ b nb1 (Bin a na' tl tm) tr)|].
    done.
  - intros c Hca Hcb. unfold h4, h3, h2, h1.
    by rewrite !lookup_insert_ne.
Qed.

Lemma ll_rotate_repr h rt sz a na b nb tl tm tr :
  repr h (Bin a na (Bin b nb tl tm) tr) →
  NoDup (addrs (Bin a na (Bin b nb tl tm) tr)) →
  ∃ h' na' nb',
    ll_rotate a (mk_state h rt sz) = Some (b, mk_state h' rt sz) ∧
    repr h' (Bin b nb' tl (Bin a na' tm tr)) ∧
    height na' = wrap64 (Z.max (hgt tm) (hgt tr) + 1) ∧
    height nb' = wrap64 (Z.max (hgt tl) (height na') + 1) ∧
    data na' = data na ∧ data nb' = data nb ∧
    (∀ c, c ≠ a → c ≠ b → h' !! c = h !! c).
Proof.
  simpl. intros (Ha & Hal & Har & (Hb & Hbl & Hbr & Rl & Rm) & Rr) ND.
  assert (a ≠ b ∧ (a ∉ addrs tl) ∧ (a ∉ addrs tm) ∧ (a ∉ addrs tr) ∧
          (b ∉ addrs tl) ∧ (b ∉ addrs tm) ∧ (b ∉ addrs tr))
    as (Hab & ? & ? & ? & ? & ? & ?).
  { split_nodup ND. set_solver. }
  set (na1 := mk_node (data na) (parent na) (right nb) (right na) (height na)).
  set (nb1 := mk_node (data nb) (parent nb) (left nb) (Some a) (height nb)).
  set (na' := mk_node (data na) (parent na) (right nb) (right na)
                (wrap64 (Z.max (hgt tm) (hgt tr) + 1))).
  set (nb' := mk_node (data nb) (parent nb) (left nb) (Some a)
                (wrap64 (Z.max (hgt tl) (height na') + 1))).
  set (h1 := <[a := na1]> h).
  set (h2 := <[b := nb1]> h1).
  set (h3 := <[a := na']> h2).
  set (h4 := <[b := nb']> h3).
  assert (h1 !! b = Some nb) as Hb1 by (unfold h1; by rewrite lookup_insert_ne).
  assert (h2 !! a = Some na1) as Ha2.
  { unfold h2, h1. rewrite lookup_insert_ne by done. apply lookup_insert_eq. }
  assert (h3 !! b = Some nb1) as Hb3.
  { unfold h3, h2. rewrite lookup_insert_ne by done. apply lookup_insert_eq. }
  assert (repr h2 tm ∧ repr h2 tr) as [Rm2 Rr2] by (split; frame_repr).
  assert (repr h3 (Bin a na' tm tr)) as Ra3.
  { simpl. split_and!; try done; [apply lookup_insert_eq|frame_repr..]. }
  assert (repr h3 tl) as Rl3 by frame_repr.
  assert (repr h4 (Bin b nb' tl (Bin a na' tm tr))) as R4.
  { simpl. split_and!; try done.
    - apply lookup_insert_eq.
    - frame_repr.
    - unfold h4, h3. rewrite lookup_insert_ne by done. apply lookup_insert_eq.
    - frame_repr.
    - frame_repr. }
  exists h4, na', nb'. split; [|split; [exact R4|split_and!; try done]].
  - unfold ll_rotate.
    eapply bind_Some; [by apply get_left_Some|]. rewrite Hal. simpl.
    eapply bind_Some; [done|].
    eapply bind_Some; [by apply get_right_Some|].
    eapply bind_Some; [unfold set_left; by apply store_Some|]. fold na1 h1.
    eapply bind_Some; [unfold set_right; by apply store_Some|]. fold nb1 h2.
    eapply bind_Some; [by apply (update_height_repr _ _ _ a na1 tm tr)|].
    fold na' h3.
    eapply bind_Some; [by apply (update_height_repr _ _ _ b nb1 tl (Bin a na' tm tr))|].
    done.
  - intros c Hca Hcb. unfold h4, h3, h2, h1.
    by rewrite !lookup_insert_ne.
Qed.

Lemma lr_rotate_repr h rt sz a na b nb c nc tl tm1 tm2 tr :
  repr h (Bin a na (Bin b nb tl (Bin c nc tm1 tm2)) tr) →
  NoDup (addrs (Bin a na (Bin b nb tl (Bin c nc tm1 tm2)) tr)) →
  ∃ h' na' nb' nc',
    lr_rotate a (mk_state h rt sz) = Some (c, mk_state h' rt sz) ∧
    repr h' (Bin c nc' (Bin b nb' tl tm1) (Bin a na' tm2 tr)) ∧
    height nb' = wrap64 (Z.max (hgt tl) (hgt tm1) + 1) ∧
    height na' = wrap64 (Z.max (hgt tm2) (hgt tr) + 1) ∧
    height nc' = wrap64 (Z.max (height nb') (height na') + 1) ∧
    data na' = data na ∧ data nb' = data nb ∧ data nc' = data nc ∧
    (∀ d, d ≠ a → d ≠ b → d ≠ c → h' !! d = h !! d).
Proof.
  intros R ND.
  assert (repr h (Bin b nb tl (Bin c nc tm1 tm2))) as Rb by (simpl in *; tauto).
  assert (h !! a = Some na ∧ right na = root_of tr ∧ repr h tr) as (Ha & Har & Rr)
    by (simpl in *; tauto).
  assert (NoDup (addrs (Bin b nb tl (Bin c nc tm1 tm2)))) as NDb.
  { split_nodup ND. simpl. repeat first [rewrite NoDup_app | rewrite NoDup_cons].
    set_solver. }
  assert (a ≠ b ∧ a ≠ c ∧ (b ∉ addrs tr) ∧ (c ∉ addrs tr) ∧ (a ∉ addrs tr) ∧
          (a ∉ addrs (Bin b nb tl (Bin c nc tm1 tm2))))
    as (Hab & Hac & Hbr & Hcr & Hatr & Hal).
  { split_nodup ND. simpl. set_solver. }
  destruct (rr_rotate_repr h rt sz b nb tl c nc tm1 tm2 Rb NDb)
    as (h1 & nb' & nc1 & E1 & R1 & Hnb & Hnc1 & Dnb & Dnc & F1).
  set (na1 := mk_node (data na) (parent na) (Some c) (right na) (height na)).
  set (h2 := <[a := na1]> h1).
  assert (h1 !! a = Some na) as Ha1 by (rewrite F1; done).
  assert (repr h2 (Bin a na1 (Bin c nc1 (Bin b nb' tl tm1) tm2) tr)) as R2.
  { change (h2 !! a = Some na1 ∧ left na1 = Some c ∧ right na1 = root_of tr ∧
            repr h2 (Bin c nc1 (Bin b nb' tl tm1) tm2) ∧ repr h2 tr).
    split_and!; try done.
    - apply lookup_insert_eq.
    - apply repr_insert_ne; [|done]. simpl in *. set_solver.
    - apply repr_insert_ne; [done|].
      apply (repr_frame h); [done|]. intros d Hd. apply F1; set_solver. }
  assert (NoDup (addrs (Bin a na1 (Bin c nc1 (Bin b nb' tl tm1) tm2) tr))) as ND2.
  { norm_lists_in ND. norm_lists. done. }
  destruct (ll_rotate_repr h2 rt sz a na1 c nc1 (Bin b nb' tl tm1) tm2 tr R2 ND2)
    as (h3 & na' & nc' & E3 & R3 & Hna & Hnc & Dna & Dnc' & F3).
  exists h3, na', nb', nc'. split; [|split; [exact R3|split_and!; try done]].
  - unfold lr_rotate.
    eapply bind_Some; [by apply get_left_Some|].
    replace (left na) with (Some b) by (simpl in R; symmetry; tauto). simpl.
    eapply bind_Some; [done|].
    eapply bind_Some; [exact E1|].
    eapply bind_Some; [unfold set_left; by apply store_Some|]. fold na1 h2.
    exact E3.
  - by rewrite Dnc'.
  - intros d Hda Hdb Hdc. rewrite F3 by done. unfold h2.
    rewrite lookup_insert_ne by done. by apply F1.
Qed.

Lemma rl_rotate_repr h rt sz a na b nb c nc tl tm1 tm2 tr :
  repr h (Bin a na tl (Bin b nb (Bin c nc tm1 tm2) tr)) →
  NoDup (addrs (Bin a na tl (Bin b nb (Bin c nc tm1 tm2) tr))) →
  ∃ h' na' nb' nc',
    rl_rotate a (mk_state h rt sz) = Some (c, mk_state h' rt sz) ∧
    repr h' (Bin c nc' (Bin a na' tl tm1) (Bin b nb' tm2 tr)) ∧
    height nb' = wrap64 (Z.max (hgt tm2) (hgt tr) + 1) ∧
    height na' = wrap64 (Z.max (hgt tl) (hgt tm1) + 1) ∧
    height nc' = wrap64 (Z.max (height na') (height nb') + 1) ∧
    data na' = data na ∧ data nb' = data nb ∧ data nc' = data nc ∧
    (∀ d, d ≠ a → d ≠ b → d ≠ c → h' !! d = h !! d).
Proof.
  intros R ND.
  assert (repr h (Bin b nb (Bin c nc tm1 tm2) tr)) as Rb by (simpl in *; tauto).
  assert (h !! a = Some na ∧ left na = root_of tl ∧ repr h tl) as (Ha & Hal & Rl)
    by (simpl in *; tauto).
  assert (NoDup (addrs (Bin b nb (Bin c nc tm1 tm2) tr))) as NDb.
  { split_nodup ND. simpl. repeat first [rewrite NoDup_app | rewrite NoDup_cons].
    set_solver. }
  assert (a ≠ b ∧ a ≠ c ∧ (b ∉ addrs tl) ∧ (c ∉ addrs tl) ∧ (a ∉ addrs tl) ∧
          (a ∉ addrs (Bin b nb (Bin c nc tm1 tm2) tr)))
    as (Hab & Hac & Hbl & Hcl & Hatl & Har).
  { split_nodup ND. simpl. set_solver. }
  destruct (ll_rotate_repr h rt sz b nb c nc tm1 tm2 tr Rb NDb)
    as (h1 & nb' & nc1 & E1 & R1 & Hnb & Hnc1 & Dnb & Dnc & F1).
  set (na1 := mk_node (data na) (parent na) (left na) (Some c) (height na)).
  set (h2 := <[a := na1]> h1).
  assert (h1 !! a = Some na) as Ha1 by (rewrite F1; done).
  assert (repr h2 (Bin a na1 tl (Bin c nc1 tm1 (Bin b nb' tm2 tr)))) as R2.
  { change (h2 !! a = Some na1 ∧ left na1 = root_of tl ∧ right na1 = Some c ∧
            repr h2 tl ∧ repr h2 (Bin c nc1 tm1 (Bin b nb' tm2 tr))).
    split_and!; try done.
    - apply lookup_insert_eq.
    - apply repr_insert_ne; [done|].
      apply (repr_frame h); [done|]. intros d Hd. apply F1; set_solver.
    - apply repr_insert_ne; [|done]. simpl in *. set_solver. }
  assert (NoDup (addrs (Bin a na1 tl (Bin c nc1 tm1 (Bin b nb' tm2 tr))))) as ND2.
  { norm_lists_in ND. norm_lists. done. }
  destruct (rr_rotate_repr h2 rt sz a na1 tl c nc1 tm1 (Bin b nb' tm2 tr) R2 ND2)
    as (h3 & na' & nc' & E3 & R3 & Hna & Hnc & Dna & Dnc' & F3).
  exists h3, na', nb', nc'. split; [|split; [exact R3|split_and!; try done]].
  - unfold rl_rotate.
    eapply bind_Some; [by apply get_right_Some|].
    replace (right na) with (Some b) by (simpl in R; symmetry; tauto). simpl.
    eapply bind_Some; [done|].
    eapply bind_Some; [exact E1|].
    eapply bind_Some; [unfold set_right; by apply store_Some|]. fold na1 h2.
    exact E3.
  - by rewrite Dnc'.
  - intros d Hda Hdb Hdc. rewrite F3 by done. unfold h2.
    rewrite lookup_insert_ne by done. by apply F1.
Qed.

End Rotations.

(** ** Machine arithmetic within range *)

Lemma wrap64_small z : 0 ≤ z < 2 ^ 64 → wrap64 z = z.
Proof. intros H. unfold wrap64. by apply Z.mod_small. Qed.

Lemma to_int64_diff x y :
  0 ≤ x < 2 ^ 63 → 0 ≤ y < 2 ^ 63 → to_int64 (wrap64 (x - y)) = x - y.
Proof.
  intros Hx Hy. unfold to_int64, wrap64.
  destruct (Z_lt_le_dec (x - y) 0).
  - replace ((x - y) mod 2 ^ 64) with (x - y + 2 ^ 64).
    + destruct (Z.ltb_spec (x - y + 2 ^ 64) (2 ^ 63)); lia.
    + symmetry. rewrite <- (Z.mod_small (x - y + 2 ^ 64) (2 ^ 64)) by lia.
      replace (x - y + 2 ^ 64) with (x - y + 1 * 2 ^ 64) by lia.
      by rewrite Z.mod_add.
  - rewrite Z.mod_small by lia.
    destruct (Z.ltb_spec (x - y) (2 ^ 63)); lia.
Qed.

(** ** The AVL hook on laid-out trees *)

Section Balance.

Context {T : Type}.
Implicit Types (h : gmap addr (node T)) (p rt : ptr) (a b c : addr) (sz : Z).
Implicit Types (t l r : tree T).

Import binary_tree avl_tree.

Lemma difference_repr h rt sz a n l r :
  repr h (Bin a n l r) →
  difference (Some a) (mk_state h rt sz) =
  Some (to_int64 (wrap64 (hgt l - hgt r)), mk_state h rt sz).
Proof.
  simpl. intros (Ha & Hl & Hr & Rl & Rr). unfold difference.
  eapply bind_Some; [by apply get_left_Some|]. rewrite Hl.
  eapply bind_Some; [by apply height_of_repr|].
  eapply bind_Some; [by apply get_right_Some|]. rewrite Hr.
  eapply bind_Some; [by apply height_of_repr|].
  done.
Qed.

Lemma heights_ok_Bin_pos a n l r : heights_ok (Bin a n l r) → 1 ≤ height n.
Proof.
  simpl. intros (-> & Hl & Hr).
  apply heights_ok_nonneg in Hl, Hr. lia.
Qed.

Lemma hgt_pos_Bin t : heights_ok t → 0 < hgt t → ∃ a n l r, t = Bin a n l r.
Proof. destruct t; simpl; [lia|eauto]. Qed.

Lemma balance_idle h rt sz a n l r :
  repr h (Bin a n l r) →
  0 ≤ hgt l < 2 ^ 63 → 0 ≤ hgt r < 2 ^ 63 →
  -1 ≤ hgt l - hgt r ≤ 1 →
  balance a (mk_state h rt sz) = Some (a, mk_state h rt sz).
Proof.
  intros R Hl Hr Hb. unfold balance.
  eapply bind_Some; [by eapply difference_repr|].
  rewrite to_int64_diff by done.
  destruct (Z.gtb_spec (hgt l - hgt r) 1); [lia|].
  destruct (Z.ltb_spec (hgt l - hgt r) (-1)); [lia|]. done.
Qed.

Lemma balance_repr h rt sz a n l r :
  let t := Bin a n l r in
  repr h t → NoDup (addrs t) → heights_ok t → avl l → avl r →
  hgt t < 2 ^ 63 →
  -2 ≤ hgt l - hgt r ≤ 2 →
  (hgt l - hgt r = 2 → skew l) →
  (hgt l - hgt r = -2 → skew r) →
  ∃ h' t' a',
    balance a (mk_state h rt sz) = Some (a', mk_state h' rt sz) ∧
    root_of t' = Some a' ∧
    repr h' t' ∧ heights_ok t' ∧ avl t' ∧
    addrs t' = addrs t ∧ values t' = values t ∧
    (∀ c, c ∉ addrs t → h' !! c = h !! c) ∧
    ((-1 ≤ hgt l - hgt r ≤ 1 ∧ t' = t ∧ h' = h) ∨
     (¬ -1 ≤ hgt l - hgt r ≤ 1 ∧ hgt t' = hgt t - 1)).
Proof.
  intros t R ND HO Al Ar Hmax Hnear Hsl Hsr.
  pose proof HO as (Hn & HOl & HOr).
  pose proof (heights_ok_nonneg _ HOl) as Hl0.
  pose proof (heights_ok_nonneg _ HOr) as Hr0.
  simpl in Hmax.
  destruct (decide (-1 ≤ hgt l - hgt r ≤ 1)) as [Hin|Hout].
  { exists h, t, a. split_and!; try done.
    - apply (balance_idle _ _ _ _ n l r); [done|lia..].
    - left. done. }
  destruct (decide (hgt l - hgt r = 2)) as [H2|Hn2].
  - (* left-heavy *)
    specialize (Hsl H2). destruct l as [|b nb ll lr]; [done|]. simpl in Hsl, Hn.
    pose proof HOl as (Hnb & HOll & HOlr).
    pose proof (heights_ok_nonneg _ HOll) as Hll0.
    pose proof (heights_ok_nonneg _ HOlr) as Hlr0.
    pose proof Al as (Hbl & All & Alr). simpl in H2, Hl0.
    assert (repr h (Bin b nb ll lr)) as Rb by (simpl in R |- *; tauto).
    destruct (decide (hgt ll - hgt lr > 0)) as [Hpos|Hneg].
    + destruct (ll_rotate_repr h rt sz a n b nb ll lr r R ND)
        as (h' & na' & nb' & E & R' & Hna & Hnb' & Dna & Dnb & F).
      rewrite wrap64_small in Hna by lia.
      rewrite wrap64_small in Hnb' by lia.
      exists h', (Bin b nb' ll (Bin a na' lr r)), b. split_and!.
      * unfold balance.
        eapply bind_Some; [by eapply difference_repr|].
        rewrite to_int64_diff by (simpl; lia). simpl.
        destruct (Z.gtb_spec (height nb - hgt r) 1); [|lia].
        eapply bind_Some; [apply get_left_Some; simpl in R; apply R|].
        replace (left n) with (Some b) by (simpl in R; symmetry; tauto).
        eapply bind_Some; [by eapply difference_repr|].
        rewrite to_int64_diff by lia.
        destruct (Z.gtb_spec (hgt ll - hgt lr) 0); [|lia]. done.
      * done.
      * done.
      * simpl. split_and!; try done; lia.
      * simpl. split_and!; try done; lia.
      * simpl. by rewrite <- !app_assoc.
      * simpl. rewrite Dna, Dnb. by rewrite <- !app_assoc.
      * intros c Hc. apply F; simpl in Hc; set_solver.
      * right. split; [done|]. simpl. lia.
    + assert (hgt lr = hgt ll + 1) as Hlr by lia.
      destruct lr as [|c nc cl cr]; [simpl in *; lia|].
      pose proof HOlr as (Hnc & HOcl & HOcr).
      pose proof (heights_ok_nonneg _ HOcl) as Hcl0.
      pose proof (heights_ok_nonneg _ HOcr) as Hcr0.
      pose proof Alr as (Hbc & Acl & Acr). simpl in Hlr, Hnb, Hbl.
      destruct (lr_rotate_repr h rt sz a n b nb c nc ll cl cr r R ND)
        as (h' & na' & nb' & nc' & E & R' & Hnb' & Hna & Hnc' & Dna & Dnb & Dnc & F).
      rewrite wrap64_small in Hna by lia.
      rewrite wrap64_small in Hnb' by lia.
      rewrite wrap64_small in Hnc' by lia.
      exists h', (Bin c nc' (Bin b nb' ll cl) (Bin a na' cr r)), c.
      split_and!.
      * unfold balance.
        eapply bind_Some; [by eapply difference_repr|].
        rewrite to_int64_diff by (simpl; lia). simpl.
        destruct (Z.gtb_spec (height nb - hgt r) 1); [|lia].
        eapply bind_Some; [apply get_left_Some; simpl in R; apply R|].
        replace (left n) with (Some b) by (simpl in R; symmetry; tauto).
        eapply bind_Some; [by eapply difference_repr|].
        rewrite to_int64_diff by (simpl; lia). simpl.
        destruct (Z.gtb_spec (hgt ll - height nc) 0); [lia|]. done.
      * done.
      * done.
      * simpl. split_and!; try done; lia.
      * simpl. split_and!; try done; lia.
      * norm_lists. done.
      * norm_lists. by rewrite Dna, Dnb, Dnc.
      * intros d Hd. apply F; simpl in Hd; set_solver.
      * right. split; [done|]. simpl. lia.
  - (* right-heavy *)
    assert (hgt l - hgt r = -2) as Hm2 by lia.
    specialize (Hsr Hm2). destruct r as [|b nb rl rr]; [done|]. simpl in Hsr, Hn.
    pose proof HOr as (Hnb & HOrl & HOrr).
    pose proof (heights_ok_nonneg _ HOrl) as Hrl0.
    pose proof (heights_ok_nonneg _ HOrr) as Hrr0.
    pose proof Ar as (Hbr & Arl & Arr). simpl in Hm2, Hr0.
    assert (repr h (Bin b nb rl rr)) as Rb by (simpl in R |- *; tauto).
    destruct (decide (hgt rl - hgt rr > 0)) as [Hpos|Hneg].
    + assert (hgt rl = hgt rr + 1) as Hrl by lia.
      destruct rl as [|c nc cl cr]; [simpl in *; lia|].
      pose proof HOrl as (Hnc & HOcl & HOcr).
      pose proof (heights_ok_nonneg _ HOcl) as Hcl0.
      pose proof (heights_ok_nonneg _ HOcr) as Hcr0.
      pose proof Arl as (Hbc & Acl & Acr). simpl in Hrl, Hnb, Hbr.
      destruct (rl_rotate_repr h rt sz a n b nb c nc l cl cr rr R ND)
        as (h' & na' & nb' & nc' & E & R' & Hnb' & Hna & Hnc' & Dna & Dnb & Dnc & F).
      rewrite wrap64_small in Hna by lia.
      rewrite wrap64_small in Hnb' by lia.
      rewrite wrap64_small in Hnc' by lia.
      exists h', (Bin c nc' (Bin a na' l cl) (Bin b nb' cr rr)), c.
      split_and!.
      * unfold balance.
        eapply bind_Some; [by eapply difference_repr|].
        rewrite to_int64_diff by (simpl; lia). simpl.
        destruct (Z.gtb_spec (hgt l - height nb) 1); [lia|].
        destruct (Z.ltb_spec (hgt l - height nb) (-1)); [|lia].
        eapply bind_Some; [apply get_right_Some; simpl in R; apply R|].
        replace (right n) with (Some b) by (simpl in R; symmetry; tauto).
        eapply bind_Some; [by eapply difference_repr|].
        rewrite to_int64_diff by (simpl; lia). simpl.
        destruct (Z.gtb_spec (height nc - hgt rr) 0); [|lia]. done.
      * done.
      * done.
      * simpl. split_and!; try done; lia.
      * simpl. split_and!; try done; lia.
      * norm_lists. done.
      * norm_lists. by rewrite Dna, Dnb, Dnc.
      * intros d Hd. apply F; simpl in Hd; set_solver.
      * right. split; [done|]. simpl. lia.
    + destruct (rr_rotate_repr h rt sz a n l b nb rl rr R ND)
        as (h' & na' & nb' & E & R' & Hna & Hnb' & Dna & Dnb & F).
      rewrite wrap64_small in Hna by lia.
      rewrite wrap64_small in Hnb' by lia.
      exists h', (Bin b nb' (Bin a na' l rl) rr), b. split_and!.
      * unfold balance.
        eapply bind_Some; [by eapply difference_repr|].
        rewrite to_int64_diff by (simpl; lia). simpl.
        destruct (Z.gtb_spec (hgt l - height nb) 1); [lia|].
        destruct (Z.ltb_spec (hgt l - height nb) (-1)); [|lia].
        eapply bind_Some; [apply get_right_Some; simpl in R; apply R|].
        replace (right n) with (Some b) by (simpl in R; symmetry; tauto).
        eapply bind_Some; [by eapply difference_repr|].
        rewrite to_int64_diff by lia.
        destruct (Z.gtb_spec (hgt rl - hgt rr) 0); [lia|]. done.
      * done.
      * done.
      * simpl. split_and!; try done; lia.
      * simpl. split_and!; try done; lia.
      * norm_lists. done.
      * norm_lists. by rewrite Dna, Dnb.
      * intros c Hc. apply F; simpl in Hc; set_solver.
      * right. split; [done|]. simpl. lia.
Qed.

End Balance.

(** ** Insertion into a tree of either class *)

Section InsertAt.

Context {T : Type}.
Variable compare : T → T → Z.
Implicit Types (h : gmap addr (node T)) (p rt : ptr) (a b x : addr) (sz : Z).
Implicit Types (t l r : tree T) (c : tree_class).

Import binary_tree.

Lemma hook_repr c h rt sz a n l r :
  let t := Bin a n l r in
  repr h t → NoDup (addrs t) → heights_ok t → hgt t < 2 ^ 63 →
  (c = AvlTree →
   avl l ∧ avl r ∧ -2 ≤ hgt l - hgt r ≤ 2 ∧
   (hgt l - hgt r = 2 → skew l) ∧ (hgt l - hgt r = -2 → skew r)) →
  ∃ h' t' a',
    balance_of c a (mk_state h rt sz) = Some (a', mk_state h' rt sz) ∧
    root_of t' = Some a' ∧
    repr h' t' ∧ heights_ok t' ∧ (c = AvlTree → avl t') ∧
    addrs t' = addrs t ∧ values t' = values t ∧
    (∀ b, b ∉ addrs t → h' !! b = h !! b) ∧
    ((t' = t ∧ h' = h ∧ (c = AvlTree → -1 ≤ hgt l - hgt r ≤ 1)) ∨
     (c = AvlTree ∧ ¬ -1 ≤ hgt l - hgt r ≤ 1 ∧ hgt t' = hgt t - 1)).
Proof.
  intros t R ND HO Hmax Hc. destruct c.
  - exists h, t, a. split_and!; try done. by left.
  - destruct (Hc eq_refl) as (Al & Ar & Hnear & Hsl & Hsr).
    destruct (balance_repr h rt sz a n l r R ND HO Al Ar Hmax Hnear Hsl Hsr)
      as (h' & t' & a' & E & Hrt & R' & HO' & A' & Had & Hval & F & Hcase).
    exists h', t', a'. split_and!; try done.
    destruct Hcase as [(? & ? & ?)|(? & ?)]; [left|right]; done.
Qed.

Lemma set_parent_fresh h rt sz x nx p :
  h !! x = Some nx → pristine nx →
  ∃ nx', pristine nx' ∧ data nx' = data nx ∧ parent nx' = p ∧
    set_parent x p (mk_state h rt sz) = Some (tt, mk_state (<[x := nx']> h) rt sz).
Proof.
  intros Hx (Hl & Hr & Hh).
  exists (mk_node (data nx) p (left nx) (right nx) (height nx)).
  split; [done|]. split; [done|]. split; [done|]. by apply set_parent_Some.
Qed.

(** The second store into [node->parent], done when the child exists. *)
Lemma reparent_fresh h rt sz x nx (q : ptr) :
  h !! x = Some nx → pristine nx →
  ∃ hx nx',
    (match q with Some _ => set_parent x q | None => ret tt end)
      (mk_state h rt sz) = Some (tt, mk_state hx rt sz) ∧
    hx !! x = Some nx' ∧ pristine nx' ∧ data nx' = data nx ∧
    (q = None → nx' = nx) ∧
    (∀ b, b ≠ x → hx !! b = h !! b).
Proof.
  intros Hx Hp. destruct q as [b|].
  - destruct (set_parent_fresh h rt sz x nx (Some b) Hx Hp) as (n1 & P1 & D1 & _ & E1).
    exists (<[x:=n1]> h), n1. split_and!; [done|apply lookup_insert_eq|done|done|done|].
    intros b' Hb'. by rewrite lookup_insert_ne.
  - exists h, nx. by split_and!.
Qed.

Lemma insert_at_spec c t : ∀ fuel h rt sz x nx,
  repr h t → NoDup (addrs t) → x ∉ addrs t →
  h !! x = Some nx → pristine nx → ¬ hits compare (data nx) t →
  heights_ok t → (c = AvlTree → avl t) →
  hgt t < 2 ^ 63 - 1 → (depth t ≤ fuel)%nat →
  ∃ h' t',
    insert_at compare (balance_of c) fuel (root_of t) x (mk_state h rt sz)
      = Some (root_of t', mk_state h' rt sz) ∧
    t' ≠ Leaf ∧ repr h' t' ∧ NoDup (addrs t') ∧ heights_ok t' ∧
    (c = AvlTree → avl t' ∧ grew t t') ∧
    (hgt t' = hgt t ∨ hgt t' = hgt t + 1) ∧
    (∀ b, b ∈ addrs t' → b ∈ x :: addrs t) ∧
    (∀ b, b ∈ addrs t → b ∈ addrs t') ∧
    (∀ b, b ∉ x :: addrs t → h' !! b = h !! b) ∧
    values t' = pins compare (data nx) t ∧
    x ∈ addrs t' ∧ length (addrs t') = S (length (addrs t)) ∧
    (c = BinaryTree → ∀ p, parents_ok p t → (t = Leaf → parent nx = p) →
     parents_ok p t').
Proof.
  induction t as [|a n l IHl r IHr];
    intros fuel h rt sz x nx R ND Hx Hhx Hp Hnh HO A Hmax Hfuel.
  - exists h, (Bin x nx Leaf Leaf).
    destruct Hp as (Hpl & Hpr & Hph).
    split_and!.
    + by destruct fuel.
    + done.
    + simpl. by rewrite Hpl, Hpr.
    + simpl. apply NoDup_singleton.
    + simpl. split_and!; try done.
    + intros _. split; [simpl; split_and!; try done; lia|].
      right. simpl. split; [lia|]. by left.
    + simpl. lia.
    + simpl. intros b Hb'. exact Hb'.
    + simpl. intros b Hb'. by apply elem_of_nil in Hb'.
    + done.
    + done.
    + simpl. apply elem_of_cons. by left.
    + done.
    + intros _ p _ Hpar. simpl. split_and!; [by apply Hpar|done|done].
  - destruct fuel as [|fuel]; [simpl in Hfuel; lia|]. simpl in Hfuel.
    pose proof R as (Ha & Hal & Har & Rl & Rr).
    pose proof HO as (Hn & HOl & HOr).
    assert (c = AvlTree → -1 ≤ hgt l - hgt r ≤ 1) as Hb by (intros Hc; apply (A Hc)).
    assert (c = AvlTree → avl l) as Al by (intros Hc; apply (A Hc)).
    assert (c = AvlTree → avl r) as Ar by (intros Hc; apply (A Hc)).
    pose proof (heights_ok_nonneg _ HOl) as Hl0.
    pose proof (heights_ok_nonneg _ HOr) as Hr0.
    simpl in Hmax.
    assert (a ≠ x ∧ (x ∉ addrs l) ∧ (x ∉ addrs r) ∧ (a ∉ addrs l) ∧ (a ∉ addrs r) ∧
            NoDup (addrs l) ∧ NoDup (addrs r) ∧
            (∀ b, b ∈ addrs l → b ∉ addrs r))
      as (Hax & Hxl & Hxr & Hal' & Har' & NDl & NDr & Hlr).
    { simpl in Hx. split_nodup ND. set_solver. }
    remember (compare (data n) (data nx)) as cmp eqn:Ecmp.
    destruct (Z.eqb_spec cmp 0) as [E0|N0].
    { (* the comparator answers 0 *)
      exfalso. apply Hnh. simpl. by rewrite <- Ecmp, E0. }
    assert ((cmp =? 0) = false) as B0 by (by apply Z.eqb_neq).
    destruct (Z.gtb_spec cmp 0) as [Hgt|Hle].
    { (* descend to the left *)
      assert ((cmp >? 0) = true) as B1 by (destruct (Z.gtb_spec cmp 0); [done|lia]).
      assert ((cmp <? 0) = false) as B2 by (destruct (Z.ltb_spec cmp 0); [lia|done]).
      destruct (set_parent_fresh h rt sz x nx (Some a) Hhx Hp) as (n1 & P1 & D1 & Par1 & E1).
      set (h1 := <[x := n1]> h) in *.
      assert (h1 !! a = Some n) as Ha1 by (unfold h1; by rewrite lookup_insert_ne).
      destruct (reparent_fresh h1 rt sz x n1 (left n)) as (hx & nx' & E2 & Hxx & P2 & D2 & Q2 & F2);
        [apply lookup_insert_eq|done|].
      assert (data nx' = data nx) as Dx by congruence.
      assert (∀ b, b ≠ x → hx !! b = h !! b) as Fx.
      { intros b Hb'. rewrite F2 by done. unfold h1. by rewrite lookup_insert_ne. }
      assert (hx !! a = Some n) as Hax2 by (rewrite Fx by done; done).
      assert (repr hx l ∧ repr hx r) as [Rlx Rrx].
      { split; (eapply repr_frame; [eassumption|]); intros b Hb'; apply Fx;
          intros ->; done. }
      assert (¬ hits compare (data nx') l) as Hnhl.
      { rewrite Dx. simpl in Hnh. by rewrite <- Ecmp, B0, B1 in Hnh. }
      destruct (IHl fuel hx rt sz x nx' Rlx NDl Hxl Hxx P2 Hnhl HOl Al ltac:(lia) ltac:(lia))
        as (h2 & l' & E3 & Hne & R2 & ND2 & HO2 & A2 & Hgl & Sub2 & Sup2 & F3 & V2 & Hxin & Hlen2 & PO2).
      rewrite Dx in V2.
      assert (h2 !! a = Some n) as Ha2.
      { rewrite F3; [done|]. set_solver. }
      set (n2 := mk_node (data n) (parent n) (root_of l') (right n) (height n)).
      set (h3 := <[a := n2]> h2).
      assert (a ∉ addrs l') as Hal2.
      { intros Hin. apply Sub2 in Hin. set_solver. }
      assert (repr h3 l') as Rl3 by (by apply repr_insert_ne).
      assert (repr h3 r) as Rr3.
      { apply repr_insert_ne; [done|]. apply (repr_frame hx); [done|].
        intros b Hb'. apply F3. set_solver. }
      set (n3 := mk_node (data n) (parent n) (root_of l') (right n)
                   (wrap64 (Z.max (hgt l') (hgt r) + 1))).
      set (h4 := <[a := n3]> h3).
      pose proof (heights_ok_nonneg _ HO2) as Hl'0.
      assert (height n3 = Z.max (hgt l') (hgt r) + 1) as Hn3.
      { simpl. rewrite wrap64_small by lia. done. }
      assert (repr h4 (Bin a n3 l' r)) as R4.
      { simpl. split_and!; try done.
        - apply lookup_insert_eq.
        - by apply repr_insert_ne.
        - by apply repr_insert_ne. }
      assert (NoDup (addrs (Bin a n3 l' r))) as ND4.
      { simpl. apply NoDup_app. split_and!; [done| |apply NoDup_cons; done].
        intros b Hb'. pose proof (Sub2 b Hb'). set_solver. }
      assert (heights_ok (Bin a n3 l' r)) as HO4 by (simpl; done).
      destruct (hook_repr c h4 rt sz a n3 l' r R4 ND4 HO4)
        as (h' & t' & a' & E5 & Hroot & R' & HO' & A' & Had & Hval & F5 & Hcase).
      { change (height n3 < 2 ^ 63). lia. }
      { intros Hc. destruct (A2 Hc) as [Al' G2]. specialize (Hb Hc).
        split; [done|]. split; [by apply Ar|]. split; [lia|]. split; [|lia].
        intros H2. destruct G2 as [?|[? [?|?]]]; [lia|lia|done]. }
      assert (x ∉ addrs l' → x ∉ addrs (Bin a n3 l' r)) as Hxt.
      { intros Hnl. simpl. set_solver. }
      exists h', t'. split_and!.
      - simpl.
        eapply bind_Some; [by apply load_Some|].
        eapply bind_Some; [by apply load_Some|].
        rewrite <- Ecmp, B0, B1, B2.
        eapply bind_Some; [reflexivity|].
        eapply bind_Some; [exact E1|].
        eapply bind_Some.
        { eapply bind_Some; [by apply get_left_Some|].
          eapply bind_Some; [exact E2|].
          eapply bind_Some; [by apply get_left_Some|]. rewrite Hal.
          eapply bind_Some; [exact E3|].
          by apply set_left_Some. }
        fold n2 h3.
        eapply bind_Some; [reflexivity|].
        eapply bind_Some.
        { apply (update_height_repr _ _ _ a n2 l' r); try done.
          apply lookup_insert_eq. }
        fold n3 h4.
        eapply bind_Some; [exact E5|].
        by rewrite Hroot.
      - intros ->. done.
      - done.
      - rewrite Had. done.
      - done.
      - intros Hc. split; [by apply A'|].
        destruct (A2 Hc) as [_ G2]. specialize (Hb Hc).
        unfold grew.
        change (hgt (Bin a n l r)) with (height n).
        destruct Hcase as [(-> & _ & Hin)|(_ & Hout & Ht')].
        + specialize (Hin Hc).
          change (hgt (Bin a n3 l' r)) with (height n3).
          change (skew (Bin a n3 l' r)) with (hgt l' ≠ hgt r). lia.
        + change (hgt (Bin a n3 l' r)) with (height n3) in Ht'.
          left. unfold grew in G2. lia.
      - change (hgt (Bin a n l r)) with (height n).
        destruct Hcase as [(-> & _ & _)|(Hc & Hout & Ht')].
        + change (hgt (Bin a n3 l' r)) with (height n3). lia.
        + change (hgt (Bin a n3 l' r)) with (height n3) in Ht'.
          specialize (Hb Hc). lia.
      - intros b. rewrite Had. simpl. intros Hb'.
        apply elem_of_app in Hb' as [Hb'|Hb']; [apply Sub2 in Hb'|];
          clear -Hb'; set_solver.
      - intros b. rewrite Had. simpl. intros Hb'.
        apply elem_of_app in Hb' as [Hb'|Hb']; [apply Sup2 in Hb'|];
          clear -Hb'; set_solver.
      - intros b Hb'. rewrite F5.
        + unfold h4, h3. rewrite !lookup_insert_ne by (clear -Hb'; set_solver).
          rewrite F3 by (clear -Hb'; set_solver). apply Fx. clear -Hb'. set_solver.
        + simpl. intros Hin.
          apply elem_of_app in Hin as [Hin|Hin]; [apply Sub2 in Hin|];
            clear -Hin Hb'; set_solver.
      - rewrite Hval. simpl. by rewrite <- Ecmp, B1, V2.
      - rewrite Had. simpl. clear -Hxin. set_solver.
      - rewrite Had. simpl addrs. rewrite !length_app. simpl length. lia.
      - intros Hc p (Hpn & Hpl & Hpr) _.
        destruct Hcase as [(-> & _ & _)|(Hc' & _)]; [|congruence].
        simpl. split_and!; [done| |done].
        apply (PO2 Hc); [done|]. intros ->. rewrite Q2 by done. done. }
    (* descend to the right *)
    assert (cmp < 0) as Hlt by lia.
    assert ((cmp >? 0) = false) as B1 by (destruct (Z.gtb_spec cmp 0); [lia|done]).
    assert ((cmp <? 0) = true) as B2 by (destruct (Z.ltb_spec cmp 0); [done|lia]).
    destruct (set_parent_fresh h rt sz x nx (Some a) Hhx Hp) as (n1 & P1 & D1 & Par1 & E1).
    set (h1 := <[x := n1]> h) in *.
    assert (h1 !! a = Some n) as Ha1 by (unfold h1; by rewrite lookup_insert_ne).
    destruct (reparent_fresh h1 rt sz x n1 (right n)) as (hx & nx' & E2 & Hxx & P2 & D2 & Q2 & F2);
      [apply lookup_insert_eq|done|].
    assert (data nx' = data nx) as Dx by congruence.
    assert (∀ b, b ≠ x → hx !! b = h !! b) as Fx.
    { intros b Hb'. rewrite F2 by done. unfold h1. by rewrite lookup_insert_ne. }
    assert (hx !! a = Some n) as Hax2 by (rewrite Fx by done; done).
    assert (repr hx l ∧ repr hx r) as [Rlx Rrx].
    { split; (eapply repr_frame; [eassumption|]); intros b Hb'; apply Fx;
        intros ->; done. }
    assert (¬ hits compare (data nx') r) as Hnhr.
    { rewrite Dx. simpl in Hnh. by rewrite <- Ecmp, B0, B1 in Hnh. }
    destruct (IHr fuel hx rt sz x nx' Rrx NDr Hxr Hxx P2 Hnhr HOr Ar ltac:(lia) ltac:(lia))
      as (h2 & r' & E3 & Hne & R2 & ND2 & HO2 & A2 & Hgr & Sub2 & Sup2 & F3 & V2 & Hxin & Hlen2 & PO2).
    rewrite Dx in V2.
    assert (h2 !! a = Some n) as Ha2.
    { rewrite F3; [done|]. set_solver. }
    set (n2 := mk_node (data n) (parent n) (left n) (root_of r') (height n)).
    set (h3 := <[a := n2]> h2).
    assert (a ∉ addrs r') as Har2.
    { intros Hin. apply Sub2 in Hin. set_solver. }
    assert (repr h3 r') as Rr3 by (by apply repr_insert_ne).
    assert (repr h3 l) as Rl3.
    { apply repr_insert_ne; [done|]. apply (repr_frame hx); [done|].
      intros b Hb'. apply F3. set_solver. }
    set (n3 := mk_node (data n) (parent n) (left n) (root_of r')
                 (wrap64 (Z.max (hgt l) (hgt r') + 1))).
    set (h4 := <[a := n3]> h3).
    pose proof (heights_ok_nonneg _ HO2) as Hr'0.
    assert (height n3 = Z.max (hgt l) (hgt r') + 1) as Hn3.
    { simpl. rewrite wrap64_small by lia. done. }
    assert (repr h4 (Bin a n3 l r')) as R4.
    { simpl. split_and!; try done.
      - apply lookup_insert_eq.
      - by apply repr_insert_ne.
      - by apply repr_insert_ne. }
    assert (NoDup (addrs (Bin a n3 l r'))) as ND4.
    { simpl. apply NoDup_app. split_and!; [done| |apply NoDup_cons; done].
      intros b Hb' Hin. apply elem_of_cons in Hin as [->|Hin]; [done|].
      apply Sub2 in Hin. set_solver. }
    assert (heights_ok (Bin a n3 l r')) as HO4 by (simpl; done).
    destruct (hook_repr c h4 rt sz a n3 l r' R4 ND4 HO4)
      as (h' & t' & a' & E5 & Hroot & R' & HO' & A' & Had & Hval & F5 & Hcase).
    { change (height n3 < 2 ^ 63). lia. }
    { intros Hc. destruct (A2 Hc) as [Ar' G2]. specialize (Hb Hc).
      split; [by apply Al|]. split; [done|]. split; [lia|]. split; [lia|].
      intros H2. destruct G2 as [?|[? [?|?]]]; [lia|lia|done]. }
    assert (x ∉ addrs r' → x ∉ addrs (Bin a n3 l r')) as Hxt.
    { intros Hnl. simpl. set_solver. }
    exists h', t'. split_and!.
    + simpl.
      eapply bind_Some; [by apply load_Some|].
      eapply bind_Some; [by apply load_Some|].
      rewrite <- Ecmp, B0, B1, B2.
      eapply bind_Some; [reflexivity|].
      eapply bind_Some; [exact E1|].
      eapply bind_Some; [reflexivity|].
      eapply bind_Some.
      { eapply bind_Some; [by apply get_right_Some|].
        eapply bind_Some; [exact E2|].
        eapply bind_Some; [by apply get_right_Some|]. rewrite Har.
        eapply bind_Some; [exact E3|].
        by apply set_right_Some. }
      fold n2 h3.
      eapply bind_Some.
      { apply (update_height_repr _ _ _ a n2 l r'); try done.
        apply lookup_insert_eq. }
      fold n3 h4.
      eapply bind_Some; [exact E5|].
      by rewrite Hroot.
    + intros ->. done.
    + done.
    + rewrite Had. done.
    + done.
    + intros Hc. split; [by apply A'|].
      destruct (A2 Hc) as [_ G2]. specialize (Hb Hc).
      unfold grew.
      change (hgt (Bin a n l r)) with (height n).
      destruct Hcase as [(-> & _ & Hin)|(_ & Hout & Ht')].
      * specialize (Hin Hc).
        change (hgt (Bin a n3 l r')) with (height n3).
        change (skew (Bin a n3 l r')) with (hgt l ≠ hgt r'). lia.
      * change (hgt (Bin a n3 l r')) with (height n3) in Ht'.
        left. unfold grew in G2. lia.
    + change (hgt (Bin a n l r)) with (height n).
      destruct Hcase as [(-> & _ & _)|(Hc & Hout & Ht')].
      * change (hgt (Bin a n3 l r')) with (height n3). lia.
      * change (hgt (Bin a n3 l r')) with (height n3) in Ht'.
        specialize (Hb Hc). lia.
    + intros b. rewrite Had. simpl. intros Hb'.
      apply elem_of_app in Hb' as [Hb'|Hb']; [clear -Hb'; set_solver|].
      apply elem_of_cons in Hb' as [->|Hb']; [clear; set_solver|].
      apply Sub2 in Hb'. clear -Hb'. set_solver.
    + intros b. rewrite Had. simpl. intros Hb'.
      apply elem_of_app in Hb' as [Hb'|Hb']; [clear -Hb'; set_solver|].
      apply elem_of_cons in Hb' as [->|Hb']; [clear; set_solver|].
      apply Sup2 in Hb'. clear -Hb'. set_solver.
    + intros b Hb'. rewrite F5.
      * unfold h4, h3. rewrite !lookup_insert_ne by (clear -Hb'; set_solver).
        rewrite F3 by (clear -Hb'; set_solver). apply Fx. clear -Hb'. set_solver.
      * simpl. intros Hin.
        apply elem_of_app in Hin as [Hin|Hin]; [clear -Hin Hb'; set_solver|].
        apply elem_of_cons in Hin as [->|Hin]; [clear -Hb'; set_solver|].
        apply Sub2 in Hin. clear -Hin Hb'. set_solver.
    + rewrite Hval. simpl. by rewrite <- Ecmp, B1, V2.
    + rewrite Had. simpl. clear -Hxin. set_solver.
    + rewrite Had. simpl addrs. rewrite !length_app. simpl length. lia.
    + intros Hc p (Hpn & Hpl & Hpr) _.
      destruct Hcase as [(-> & _ & _)|(Hc' & _)]; [|congruence].
      simpl. split_and!; [done|done|].
      apply (PO2 Hc); [done|]. intros ->. rewrite Q2 by done. done.
Qed.

End InsertAt.

(** ** Trees and the budget *)

Section Workloads.

Context {T : Type}.
Variable compare : T → T → Z.
Implicit Types (h : gmap addr (node T)) (s : state T) (t : tree T).

Lemma depth_le_length t : (depth t ≤ length (addrs t))%nat.
Proof.
  induction t as [|a n l IHl r IHr]; simpl; [done|].
  rewrite length_app. simpl. lia.
Qed.

Lemma addrs_le_size h t :
  repr h t → NoDup (addrs t) → (length (addrs t) ≤ size h)%nat.
Proof.
  intros R ND.
  rewrite <- (size_list_to_set (C := gset addr)) by done.
  rewrite <- size_dom. apply subseteq_size.
  intros a Ha. apply elem_of_list_to_set in Ha.
  apply elem_of_dom. by eapply repr_live.
Qed.

Lemma depth_in_budget s t : is_tree s t → (depth t ≤ binary_tree.budget s)%nat.
Proof.
  intros (_ & R & ND). unfold binary_tree.budget.
  pose proof (depth_le_length t). pose proof (addrs_le_size _ _ R ND). lia.
Qed.

Lemma fresh_not_in h t : repr h t → fresh (dom h) ∉ addrs t.
Proof.
  intros R Hin. apply (repr_live _ _ _ R) in Hin.
  apply elem_of_dom in Hin. by apply is_fresh in Hin.
Qed.

Lemma repr_avl_factor h t b m :
  repr h t → avl t → b ∈ addrs t → h !! b = Some m →
  -1 ≤ balance_factor h m ≤ 1.
Proof.
  induction t as [|a n l IHl r IHr]; simpl; [set_solver|].
  intros (Ha & Hl & Hr & Rl & Rr) (Hb & Al & Ar) Hin Hm.
  apply elem_of_app in Hin as [Hin|Hin]; [by apply IHl|].
  apply elem_of_cons in Hin as [->|Hin]; [|by apply IHr].
  rewrite Ha in Hm. injection Hm as <-.
  unfold balance_factor. rewrite Hl, Hr, !hgt_cached by done. done.
Qed.

Lemma is_tree_balanced s t : is_tree s t → avl t → balanced s.
Proof.
  intros (Hrt & R & ND) A b m (Hin & Hm).
  rewrite Hrt in Hin. apply (in_tree_addrs _ _ _ R) in Hin.
  by eapply repr_avl_factor.
Qed.

Lemma repr_height_cached h t b m :
  repr h t → heights_ok t → b ∈ addrs t → h !! b = Some m →
  height_cached h m.
Proof.
  induction t as [|a n l IHl r IHr]; simpl; [set_solver|].
  intros (Ha & Hl & Hr & Rl & Rr) (Hn & HOl & HOr) Hin Hm.
  apply elem_of_app in Hin as [Hin|Hin]; [by apply IHl|].
  apply elem_of_cons in Hin as [->|Hin]; [|by apply IHr].
  rewrite Ha in Hm. injection Hm as <-.
  unfold height_cached. rewrite Hl, Hr, !hgt_cached by done. lia.
Qed.

Lemma is_tree_heights_cached s t : is_tree s t → heights_ok t → heights_cached s.
Proof.
  intros (Hrt & R & ND) HO b m (Hin & Hm).
  rewrite Hrt in Hin. apply (in_tree_addrs _ _ _ R) in Hin.
  by eapply repr_height_cached.
Qed.

Lemma is_tree_empty : is_tree (@empty T) Leaf.
Proof. split_and!; [done..|]. simpl. apply NoDup_nil_2. Qed.

End Workloads.

(** ** Removal and lookup *)

Section Removal.

Context {T : Type}.
Variable compare : T → T → Z.
Implicit Types (h : gmap addr (node T)) (s : state T) (t : tree T).

Import binary_tree.

Lemma find_absent t : ∀ fuel h rt sz v,
  repr h t → (depth t ≤ fuel)%nat →
  (∀ x, x ∈ values t → compare x v ≠ 0) →
  find compare fuel (root_of t) v (mk_state h rt sz) = Some (None, mk_state h rt sz).
Proof.
  induction t as [|a n l IHl r IHr]; intros fuel h rt sz v R Hfuel Habs.
  - by destruct fuel.
  - destruct fuel as [|fuel]; [simpl in Hfuel; lia|]. simpl in Hfuel.
    destruct R as (Ha & Hl & Hr & Rl & Rr). simpl.
    eapply bind_Some; [by apply load_Some|].
    assert (compare (data n) v ≠ 0) as Hn by (apply Habs; simpl; set_solver).
    destruct (Z.eqb_spec (compare (data n) v) 0); [done|].
    destruct (compare (data n) v >? 0).
    + rewrite Hl. apply IHl; [done|lia|]. intros x Hx. apply Habs. simpl. set_solver.
    + rewrite Hr. apply IHr; [done|lia|]. intros x Hx. apply Habs. simpl. set_solver.
Qed.

(** C9. On a tree none of whose values compares equal to [v], [find] returns
    [nullptr] and [remove(v)] returns normally and leaves the whole state as
    it was: the root, every cell (links and heights) and the size. *)
Theorem remove_absent_noop s t v :
  is_tree s t →
  (∀ x, x ∈ values t → compare x v ≠ 0) →
  find compare (budget s) (tree_root s) v s = Some (None, s) ∧
  remove compare v s = Some (tt, s).
Proof.
  intros IT Habs. pose proof (depth_in_budget _ _ IT) as Hfuel.
  destruct IT as (Hrt & R & _). destruct s as [h rt sz]. simpl in Hrt, R.
  assert (find compare (budget (mk_state h rt sz)) rt v (mk_state h rt sz)
          = Some (None, mk_state h rt sz)) as E.
  { rewrite Hrt. by apply find_absent. }
  split; [exact E|].
  unfold remove.
  eapply bind_Some; [reflexivity|].
  eapply bind_Some; [exact E|]. done.
Qed.

(** C10. Removing the only node of a one-element tree (the root, without
    children), through its handle or through a value that compares equal to
    it, frees the node and leaves [root()] absent, [size()] 0 and [height()]
    0. *)
Theorem remove_sole_node s a n v :
  tree_root s = Some a → heap s !! a = Some n →
  parent n = None → left n = None → right n = None →
  tree_size s = 1 → compare (data n) v = 0 →
  let s' := mk_state (delete a (heap s)) None 0 in
  remove_node (Some a) s = Some (tt, s') ∧
  remove compare v s = Some (tt, s') ∧
  root s' = Some (None, s') ∧
  size s' = Some (0, s') ∧
  tree_height s' = Some (0, s').
Proof.
  intros Hrt Ha Hp Hl Hr Hsz Hcmp s'.
  destruct s as [h rt sz]. simpl in Hrt, Ha, Hsz. subst rt sz.
  assert (remove_node (Some a) (mk_state h (Some a) 1) = Some (tt, s')) as E.
  { unfold remove_node.
    eapply bind_Some; [reflexivity|].
    eapply bind_Some; [by apply get_left_Some|].
    eapply bind_Some; [by apply get_right_Some|].
    rewrite Hl, Hr.
    eapply bind_Some; [reflexivity|].
    eapply bind_Some; [reflexivity|].
    eapply bind_Some; [by apply get_left_Some|]. rewrite Hl.
    rewrite decide_False by (intros H; by apply H).
    eapply bind_Some; [reflexivity|].
    eapply bind_Some; [by apply get_right_Some|]. rewrite Hr.
    rewrite decide_False by (intros H; by apply H).
    eapply bind_Some; [reflexivity|].
    eapply bind_Some; [reflexivity|].
    eapply bind_Some.
    { unfold parent_relink. eapply bind_Some; [by apply get_parent_Some|].
      by rewrite Hp. }
    eapply bind_Some; [by apply get_parent_Some|]. rewrite Hp.
    eapply bind_Some; [reflexivity|].
    eapply bind_Some; [reflexivity|]. simpl.
    rewrite decide_True by done.
    eapply bind_Some; [reflexivity|]. by apply (free_Some _ _ _ _ n). }
  split_and!; try done.
  unfold remove.
  eapply bind_Some; [reflexivity|].
  eapply bind_Some; [|exact E].
  unfold budget. simpl.
  eapply bind_Some; [by apply load_Some|].
  by rewrite Hcmp.
Qed.

End Removal.

Section Hook.

Context {T : Type}.
Implicit Types (s : state T).
Import binary_tree avl_tree.

(** C8, amended. For a node handed to the AVL hook with a balance factor
    below -1, the hook is the single RR rotation exactly when the right
    child's own balance factor is not positive (negative or zero), and the
    double RL rotation when it is positive; RL is LL on the right child, the
    result stored as the new right child, then RR. *)
Theorem balance_right_heavy s root f r d :
  difference (Some root) s = Some (f, s) → f < -1 →
  get_right root s = Some (r, s) →
  difference r s = Some (d, s) →
  (d ≤ 0 → balance root s = rr_rotate root s) ∧
  (d > 0 → balance root s = rl_rotate root s) ∧
  rl_rotate root s =
    (ra <- deref r;; r' <- ll_rotate ra;; set_right root (Some r');; rr_rotate root) s.
Proof.
  intros Hf Hlt Hr Hd.
  assert (balance root s = if d >? 0 then rl_rotate root s else rr_rotate root s) as E.
  { unfold balance.
    eapply bind_Some; [exact Hf|].
    destruct (Z.gtb_spec f 1); [lia|].
    destruct (Z.ltb_spec f (-1)); [|lia].
    eapply bind_Some; [exact Hr|].
    eapply bind_Some; [exact Hd|]. by destruct (d >? 0). }
  split_and!.
  - intros Hd0. rewrite E. destruct (Z.gtb_spec d 0); [lia|done].
  - intros Hd0. rewrite E. destruct (Z.gtb_spec d 0); [done|lia].
  - unfold rl_rotate. eapply bind_Some; [exact Hr|]. done.
Qed.

End Hook.

(** ** Inserting a value that is already there *)

Section Duplicates.

Context {T : Type}.
Variable compare : T → T → Z.
Implicit Types (h : gmap addr (node T)) (s : state T) (t l r : tree T).

Import binary_tree.

Lemma present_hits t v :
  strict_total_order compare → bst compare t →
  v ∈ values t → hits compare v t.
Proof.
  intros O. induction t as [|a n l IHl r IHr]; simpl; [set_solver|].
  intros (Hl & Hr & Bl & Br) Hin.
  destruct (Z.eqb_spec (compare (data n) v) 0) as [E|N]; [done|].
  assert (v ≠ data n) as Hne by (intros ->; apply N; by apply (cmp_eq _ O)).
  destruct (Z.gtb_spec (compare (data n) v) 0) as [Hgt|Hle].
  - apply IHl; [done|].
    apply elem_of_app in Hin as [Hin|Hin]; [done|].
    apply elem_of_cons in Hin as [->|Hin]; [done|].
    specialize (Hr _ Hin). lia.
  - apply IHr; [done|].
    apply elem_of_app in Hin as [Hin|Hin].
    + specialize (Hl _ Hin). lia.
    + apply elem_of_cons in Hin as [->|Hin]; done.
Qed.

Lemma node_eta (n : node T) :
  mk_node (data n) (parent n) (left n) (right n) (height n) = n.
Proof. by destruct n. Qed.

Lemma bind_None {A B} (m : M T A) (k : A → M T B) s :
  m s = None → bind m k s = None.
Proof. unfold bind. by intros ->. Qed.

(** The descent that meets a node comparing equal deletes the new node and
    then stores into it. *)
Lemma insert_at_hits (balance : addr → M T addr) v t : ∀ fuel h rt sz x nx,
  repr h t → x ∉ addrs t → h !! x = Some nx → data nx = v →
  (depth t ≤ fuel)%nat → hits compare v t →
  insert_at compare balance fuel (root_of t) x (mk_state h rt sz) = None.
Proof.
  induction t as [|a n l IHl r IHr]; intros fuel h rt sz x nx R Hx Hhx Hd Hfuel Hh;
    [done|].
  destruct fuel as [|fuel]; [simpl in Hfuel; lia|]. simpl in Hfuel.
  destruct R as (Ha & Hl & Hr & Rl & Rr). simpl in Hx, Hh.
  assert (a ≠ x ∧ (x ∉ addrs l) ∧ (x ∉ addrs r)) as (Hax & Hxl & Hxr)
    by (clear -Hx; set_solver).
  set (n1 := mk_node (data nx) (Some a) (left nx) (right nx) (height nx)).
  set (h1 := <[x := n1]> h).
  assert (h1 !! a = Some n) as Ha1 by (unfold h1; by rewrite lookup_insert_ne).
  assert (∀ q, ∃ hx nx',
            (match q with Some _ => set_parent x q | None => ret tt end)
              (mk_state h1 rt sz) = Some (tt, mk_state hx rt sz) ∧
            hx !! x = Some nx' ∧ data nx' = v ∧
            (∀ b, b ≠ x → hx !! b = h !! b)) as Hre.
  { intros [b|].
    - eexists _, _. split_and!.
      + apply set_parent_Some, lookup_insert_eq.
      + apply lookup_insert_eq.
      + done.
      + intros b' Hb'. unfold h1. by rewrite !lookup_insert_ne.
    - exists h1, n1. split_and!; [done|apply lookup_insert_eq|done|].
      intros b' Hb'. unfold h1. by rewrite lookup_insert_ne. }
  simpl.
  eapply bind_Some; [by apply load_Some|].
  eapply bind_Some; [by apply load_Some|].
  rewrite Hd.
  destruct (Z.eqb_spec (compare (data n) v) 0) as [E0|N0].
  { eapply bind_Some.
    { eapply bind_Some; [reflexivity|]. by apply (free_Some _ _ _ _ nx). }
    apply bind_None. apply store_deleted, lookup_delete_eq. }
  eapply bind_Some; [reflexivity|].
  eapply bind_Some; [by apply set_parent_Some|]. fold n1 h1.
  destruct (Z.gtb_spec (compare (data n) v) 0) as [Hgt|Hle].
  - apply bind_None.
    destruct (Hre (left n)) as (hx & nx' & E2 & Hxx & Dx & Fx).
    eapply bind_Some; [by apply get_left_Some|].
    eapply bind_Some; [exact E2|].
    eapply bind_Some.
    { apply get_left_Some. rewrite Fx by done. exact Ha. }
    rewrite Hl. apply bind_None.
    apply (IHl fuel hx rt sz x nx'); try done; [|lia].
    apply (repr_frame h); [done|]. intros b Hb. apply Fx. by intros ->.
  - assert (compare (data n) v < 0) as Hlt by lia.
    eapply bind_Some; [reflexivity|].
    destruct (Z.ltb_spec (compare (data n) v) 0) as [_|?]; [|lia].
    apply bind_None.
    destruct (Hre (right n)) as (hx & nx' & E2 & Hxx & Dx & Fx).
    eapply bind_Some; [by apply get_right_Some|].
    eapply bind_Some; [exact E2|].
    eapply bind_Some.
    { apply get_right_Some. rewrite Fx by done. exact Ha. }
    rewrite Hr. apply bind_None.
    apply (IHr fuel hx rt sz x nx'); try done; [|lia].
    apply (repr_frame h); [done|]. intros b Hb. apply Fx. by intros ->.
Qed.

Lemma tree_insert_hits c s t v :
  is_tree s t → hits compare v t →
  tree_insert c compare v s = None.
Proof.
  intros IT Hh. pose proof IT as (Hrt & R & ND).
  destruct s as [h rt sz]. simpl in Hrt, R. subst rt.
  set (x := fresh (dom h)).
  set (nx := mk_node v None None None 1).
  set (h0 := <[x := nx]> h).
  pose proof (fresh_not_in _ _ R) as Hx. fold x in Hx.
  assert (repr h0 t) as R0 by (by apply repr_insert_ne).
  assert (is_tree (mk_state h0 (root_of t) sz) t) as IT0 by done.
  pose proof (depth_in_budget _ _ IT0) as Hfuel.
  unfold tree_insert, binary_tree.insert.
  eapply bind_Some; [reflexivity|]. fold x nx h0.
  unfold binary_tree.insert_node.
  eapply bind_Some; [reflexivity|].
  eapply bind_Some; [reflexivity|]. simpl tree_root.
  apply bind_None.
  apply (insert_at_hits _ v t _ h0 _ _ x nx); try done.
  apply lookup_insert_eq.
Qed.

Lemma hits_or_not v t : hits compare v t ∨ ¬ hits compare v t.
Proof.
  induction t as [|a n l IHl r IHr]; simpl; [right; tauto|].
  destruct (compare (data n) v =? 0); [by left|].
  by destruct (compare (data n) v >? 0).
Qed.

(** X25. On any tree, [insert(v)] for a value whose descent meets a node
    that compares equal does not return: it deletes the node it has made for
    [v] and then stores into that node's [parent], a use after free. *)
Theorem insert_equal_use_after_free c s t v :
  is_tree s t → hits compare v t →
  tree_insert c compare v s = None.
Proof. apply tree_insert_hits. Qed.

End Duplicates.

(** ** Concrete runs *)

Section Cycles.
Context {T : Type}.
Implicit Types (h : gmap addr (node T)).

Lemma traverse_cycle h a b na nb :
  h !! a = Some na → right na = Some b →
  h !! b = Some nb → left nb = Some a →
  ∀ fuel, traverse fuel h (Some a) = None.
Proof.
  intros Ha Hab Hb Hba.
  assert (∀ fuel, traverse fuel h (Some a) = None ∧ traverse fuel h (Some b) = None) as H.
  { induction fuel as [|fuel [IHa IHb]]; [done|]. split; simpl.
    - rewrite Ha, Hab, IHb. by destruct (traverse fuel h (left na)).
    - by rewrite Hb, Hba, IHa. }
  intros fuel. apply H.
Qed.

End Cycles.

(** ** Insertion-only workloads into either class *)

Section InsertionRuns.

Context {T : Type}.
Variable compare : T → T → Z.
Implicit Types (h : gmap addr (node T)) (s : state T) (t : tree T) (c : tree_class).

Lemma hgt_depth t : heights_ok t → hgt t = Z.of_nat (depth t).
Proof.
  induction t as [|a n l IHl r IHr]; simpl; [done|].
  intros (-> & Hl & Hr). rewrite IHl, IHr by done. lia.
Qed.

Lemma hgt_le_length t : heights_ok t → hgt t ≤ Z.of_nat (length (addrs t)).
Proof.
  intros HO. rewrite hgt_depth by done.
  pose proof (depth_le_length t). lia.
Qed.

Lemma length_values t : length (values t) = length (addrs t).
Proof.
  induction t as [|a n l IHl r IHr]; simpl; [done|].
  rewrite !length_app. simpl. lia.
Qed.

Lemma sound_empty c : sound c (@empty T) Leaf.
Proof.
  split_and!; try done.
  - apply is_tree_empty.
  - simpl. intros a [n Hn]. by rewrite lookup_empty in Hn.
Qed.

Lemma insert_step c s t v :
  sound c s t → ¬ hits compare v t →
  Z.of_nat (length (addrs t)) < 2 ^ 63 - 1 →
  ∃ s' t',
    tree_insert c compare v s = Some (tt, s') ∧
    sound c s' t' ∧
    values t' = pins compare v t ∧
    length (addrs t') = S (length (addrs t)) ∧
    (parents_ok None t → c = BinaryTree → parents_ok None t').
Proof.
  intros (IT & HO & A & Hsz & Hgc) Hnh Hlen. pose proof IT as (Hrt & R & ND).
  pose proof (hgt_le_length _ HO) as Hh.
  destruct s as [h rt sz]. simpl in Hrt, R, Hsz, Hgc. subst rt.
  set (x := fresh (dom h)).
  set (nx := mk_node v None None None 1).
  set (h0 := <[x := nx]> h).
  pose proof (fresh_not_in _ _ R) as Hx. fold x in Hx.
  assert (repr h0 t) as R0 by (by apply repr_insert_ne).
  assert (is_tree (mk_state h0 (root_of t) sz) t) as IT0 by done.
  pose proof (depth_in_budget _ _ IT0) as Hfuel.
  destruct (insert_at_spec compare c t _ h0 (root_of t) (wrap64 (sz + 1)) x nx
              R0 ND Hx (lookup_insert_eq _ _ _) ltac:(done) Hnh HO A ltac:(lia) Hfuel)
    as (h' & t' & E & Hne & R' & ND' & HO' & A' & Hg & Sub & Sup & F & V & Hxin & Hlen' & PO).
  exists (mk_state h' (root_of t') (wrap64 (sz + 1))), t'. split_and!.
  - unfold tree_insert, binary_tree.insert.
    eapply bind_Some; [reflexivity|]. fold x nx h0.
    unfold binary_tree.insert_node.
    eapply bind_Some; [reflexivity|].
    eapply bind_Some; [reflexivity|]. simpl tree_root.
    eapply bind_Some; [exact E|]. done.
  - split_and!; try done.
    + intros Hc. by apply A'.
    + simpl. rewrite wrap64_small by lia. lia.
    + simpl. intros b Hb.
      destruct (decide (b = x)) as [->|Hbx]; [done|].
      destruct (decide (b ∈ addrs t)) as [Hin|Hout]; [by apply Sup|].
      rewrite F in Hb by (clear -Hbx Hout; set_solver).
      unfold h0 in Hb. rewrite lookup_insert_ne in Hb by done.
      by apply Hgc in Hb.
  - done.
  - done.
  - intros Hpo Hc. apply (PO Hc); [done|]. done.
Qed.

Lemma elem_of_pins v t y :
  y ∈ pins compare v t → y = v ∨ y ∈ values t.
Proof.
  induction t as [|a n l IHl r IHr]; simpl.
  - intros Hy. left. by apply elem_of_cons in Hy as [->|Hy%elem_of_nil].
  - destruct (compare (data n) v >? 0); intros Hy.
    + apply elem_of_app in Hy as [Hy|Hy]; [|right; set_solver].
      destruct (IHl Hy); [by left|right; set_solver].
    + apply elem_of_app in Hy as [Hy|Hy]; [right; set_solver|].
      apply elem_of_cons in Hy as [->|Hy]; [right; set_solver|].
      destruct (IHr Hy); [by left|right; set_solver].
Qed.

Lemma values_pins v t y : y ∈ values t → y ∈ pins compare v t.
Proof.
  induction t as [|a n l IHl r IHr]; simpl; [by intros ?%elem_of_nil|].
  destruct (compare (data n) v >? 0); intros Hy.
  - apply elem_of_app in Hy as [Hy|Hy]; [|set_solver].
    apply elem_of_app. left. by apply IHl.
  - apply elem_of_app in Hy as [Hy|Hy]; [set_solver|].
    apply elem_of_cons in Hy as [->|Hy]; [set_solver|].
    apply elem_of_app. right. apply elem_of_cons. right. by apply IHr.
Qed.

Lemma pins_elem v t : v ∈ pins compare v t.
Proof.
  induction t as [|a n l IHl r IHr]; simpl; [set_solver|].
  destruct (compare (data n) v >? 0); set_solver.
Qed.

Lemma hits_values v t :
  hits compare v t → ∃ y, y ∈ values t ∧ compare y v = 0.
Proof.
  induction t as [|a n l IHl r IHr]; simpl; [done|].
  destruct (Z.eqb_spec (compare (data n) v) 0) as [E|N].
  - intros _. exists (data n). split; [set_solver|done].
  - destruct (compare (data n) v >? 0); intros H.
    + destruct (IHl H) as (y & Hy & Hc). exists y. split; [set_solver|done].
    + destruct (IHr H) as (y & Hy & Hc). exists y. split; [set_solver|done].
Qed.

Section Order.

Hypothesis O : strict_total_order compare.

Lemma cmp_gt x y : compare x y > 0 ↔ compare y x < 0.
Proof. split; intros H; by apply (cmp_antisym _ O). Qed.

Lemma cmp_refl x : compare x x = 0.
Proof. by apply (cmp_eq _ O). Qed.

Lemma bst_sorted t : bst compare t → sorted compare (values t).
Proof.
  induction t as [|a n l IHl r IHr]; simpl; [intros _; constructor|].
  intros (Hl & Hr & Bl & Br).
  apply StronglySorted_app. split_and!.
  - intros x y Hx Hy.
    specialize (Hl _ Hx). apply cmp_gt in Hl.
    apply elem_of_cons in Hy as [->|Hy]; [done|].
    specialize (Hr _ Hy). by apply (cmp_trans _ O x (data n) y).
  - by apply IHl.
  - apply StronglySorted_cons. split; [|by apply IHr].
    apply Forall_forall. intros y Hy. by apply Hr.
Qed.

Lemma sorted_bst t : sorted compare (values t) → bst compare t.
Proof.
  induction t as [|a n l IHl r IHr]; simpl; [done|].
  intros H. apply StronglySorted_app in H as (Hlr & Sl & Sr).
  apply StronglySorted_cons in Sr as (Hr & Sr).
  rewrite Forall_forall in Hr.
  split_and!.
  - intros x Hx. apply cmp_gt. apply Hlr; [done|]. apply elem_of_cons. by left.
  - done.
  - by apply IHl.
  - by apply IHr.
Qed.

Lemma pins_hits v t :
  bst compare t → (hits compare v t ↔ v ∈ values t).
Proof.
  intros B. split; [|by apply present_hits].
  induction t as [|a n l IHl r IHr]; simpl; [done|].
  destruct B as (Hl & Hr & Bl & Br).
  destruct (Z.eqb_spec (compare (data n) v) 0) as [E|N].
  - intros _. apply (cmp_eq _ O) in E. subst v. set_solver.
  - destruct (compare (data n) v >? 0); intros H.
    + apply elem_of_app. left. by apply IHl.
    + apply elem_of_app. right. apply elem_of_cons. right. by apply IHr.
Qed.

Lemma pins_sorted v t :
  bst compare t → ¬ hits compare v t → sorted compare (pins compare v t).
Proof.
  induction t as [|a n l IHl r IHr]; intros B Hnh.
  - simpl. apply StronglySorted_cons. split; [constructor|constructor].
  - pose proof (bst_sorted _ B) as S.
    simpl. simpl in S, Hnh. destruct B as (Hl & Hr & Bl & Br).
    destruct (Z.eqb_spec (compare (data n) v) 0) as [E|N]; [done|].
    apply StronglySorted_app in S as (Hlr & Sl & Sr).
    apply StronglySorted_cons in Sr as (Hr' & Sr).
    destruct (Z.gtb_spec (compare (data n) v) 0) as [Hgt|Hle].
    + apply StronglySorted_app. split_and!.
      * intros x y Hx Hy. apply elem_of_pins in Hx as [->|Hx]; [|by apply Hlr].
        assert (compare v (data n) < 0) as Hvn by (apply (cmp_antisym _ O); lia).
        apply elem_of_cons in Hy as [->|Hy]; [done|].
        specialize (Hr _ Hy). by apply (cmp_trans _ O v (data n) y).
      * by apply IHl.
      * apply StronglySorted_cons. done.
    + assert (compare (data n) v < 0) as Hlt by lia.
      apply StronglySorted_app. split_and!.
      * intros x y Hx Hy.
        apply elem_of_cons in Hy as [->|Hy];
          [apply Hlr; [done|]; apply elem_of_cons; by left|].
        apply elem_of_pins in Hy as [->|Hy].
        -- specialize (Hl _ Hx). apply cmp_gt in Hl.
           by apply (cmp_trans _ O x (data n) v).
        -- apply Hlr; [done|]. apply elem_of_cons. by right.
      * done.
      * apply StronglySorted_cons. split; [|by apply IHr].
        apply Forall_forall. intros y Hy.
        apply elem_of_pins in Hy as [->|Hy]; [done|by apply Hr].
Qed.

(** With a strict total order, values that differ never compare equal. *)
Lemma NoDup_no_equal (vs : list T) : NoDup vs → no_equal compare vs.
Proof.
  induction 1 as [|v vs Hv _ IH]; [constructor|].
  apply StronglySorted_cons. split; [|done].
  apply Forall_forall. intros y Hy Hc. apply (cmp_eq _ O) in Hc. by subst y.
Qed.

End Order.

Lemma run_app c (os1 os2 : list (op T)) s s1 :
  run c compare os1 s = Some (tt, s1) →
  run c compare (os1 ++ os2) s = run c compare os2 s1.
Proof.
  revert s. induction os1 as [|o os1 IH]; intros s; simpl.
  - by intros [= ->].
  - unfold bind. destruct (run_op c compare o s) as [[[] s0]|]; [|done].
    apply IH.
Qed.

Lemma no_equal_take k (vs : list T) : no_equal compare vs → no_equal compare (take k vs).
Proof.
  intros H. rewrite <- (take_drop k vs) in H. by apply StronglySorted_app_1_l in H.
Qed.

Lemma run_inserts c (vs : list T) : ∀ s t,
  sound c s t →
  Z.of_nat (length (addrs t)) + Z.of_nat (length vs) < 2 ^ 63 →
  (∀ y v, y ∈ values t → v ∈ vs → compare y v ≠ 0) →
  no_equal compare vs →
  ∃ s' t',
    run c compare (Insert <$> vs) s = Some (tt, s') ∧
    sound c s' t' ∧
    length (addrs t') = (length (addrs t) + length vs)%nat ∧
    (parents_ok None t → c = BinaryTree → parents_ok None t') ∧
    (strict_total_order compare → bst compare t →
     bst compare t' ∧ ∀ y, y ∈ values t' ↔ y ∈ vs ∨ y ∈ values t).
Proof.
  induction vs as [|v vs IH]; intros s t So Hlen Hold Hne.
  - exists s, t. split_and!; [done|done|simpl; lia|done|].
    intros _ B. split; [done|]. intros y. set_solver.
  - simpl length in Hlen.
    apply StronglySorted_cons in Hne as [Hv Hne]. rewrite Forall_forall in Hv.
    assert (¬ hits compare v t) as Hnh.
    { intros Hh. apply hits_values in Hh as (y & Hy & Hc).
      refine (Hold y v Hy _ Hc). apply elem_of_cons. by left. }
    destruct (insert_step c s t v So Hnh ltac:(lia)) as (s1 & t1 & E1 & So1 & V1 & L1 & P1).
    destruct (IH s1 t1 So1 ltac:(lia)) as (s' & t' & E' & So' & L' & P' & B').
    { intros y v' Hy Hv'. rewrite V1 in Hy.
      apply elem_of_pins in Hy as [->|Hy]; [by apply Hv|].
      refine (Hold y v' Hy _). apply elem_of_cons. by right. }
    { done. }
    exists s', t'. split_and!.
    + simpl. eapply bind_Some; [exact E1|]. exact E'.
    + done.
    + simpl length. lia.
    + intros Hp Hc. apply P'; [|done]. by apply P1.
    + intros O B.
      assert (bst compare t1) as B1.
      { apply sorted_bst; [done|]. rewrite V1. by apply pins_sorted. }
      destruct (B' O B1) as [Bt' Hmem]. split; [done|].
      intros y. rewrite Hmem, V1. split.
      * intros [Hy|Hy]; [set_solver|].
        apply elem_of_pins in Hy as [->|Hy]; set_solver.
      * intros [Hy|Hy].
        -- apply elem_of_cons in Hy as [->|Hy]; [|by left].
           right. by apply pins_elem.
        -- right. by apply values_pins.
Qed.

(** Whatever the workload holds: if its inserts return, they leave a sound
    tree. *)
Lemma run_inserts_sound c (vs : list T) : ∀ s t s',
  sound c s t →
  Z.of_nat (length (addrs t)) + Z.of_nat (length vs) < 2 ^ 63 →
  run c compare (Insert <$> vs) s = Some (tt, s') →
  ∃ t', sound c s' t'.
Proof.
  induction vs as [|v vs IH]; intros s t s' So Hlen E.
  - injection E as <-. by exists t.
  - simpl length in Hlen. simpl in E. unfold bind in E.
    destruct (hits_or_not compare v t) as [Hh|Hnh].
    + rewrite (tree_insert_hits compare c s t v) in E; [done|apply So|done].
    + destruct (insert_step c s t v So Hnh ltac:(lia))
        as (s1 & t1 & E1 & So1 & _ & L1 & _).
      rewrite E1 in E. apply (IH s1 t1 s' So1); [lia|done].
Qed.

End InsertionRuns.

(** ** From laid-out trees to the pointer graph *)

Section Bridge.

Context {T : Type}.
Variable compare : T → T → Z.
Implicit Types (h : gmap addr (node T)) (s : state T) (t : tree T) (c : tree_class).
Implicit Types (a b : addr) (p : ptr).

Import binary_tree.

Lemma traverse_repr h t : ∀ fuel,
  repr h t → (depth t ≤ fuel)%nat →
  traverse fuel h (root_of t) = Some (values t).
Proof.
  induction t as [|a n l IHl r IHr]; intros fuel R Hfuel; [by destruct fuel|].
  destruct fuel as [|fuel]; [simpl in Hfuel; lia|]. simpl in Hfuel.
  destruct R as (Ha & Hl & Hr & Rl & Rr). simpl.
  rewrite Ha, Hl, Hr, IHl, IHr by (done || lia). done.
Qed.

Lemma is_tree_traverse s t :
  is_tree s t → traverse (budget s) (heap s) (tree_root s) = Some (values t).
Proof.
  intros IT. pose proof (depth_in_budget _ _ IT) as Hfuel.
  destruct IT as (-> & R & _). by apply traverse_repr.
Qed.

Lemma root_in_addrs t a : root_of t = Some a → a ∈ addrs t.
Proof. destruct t; simpl; [done|]. intros [= ->]. set_solver. Qed.

Lemma addrs_in_tree h t b : repr h t → b ∈ addrs t → in_tree h (root_of t) b.
Proof.
  induction t as [|a n l IHl r IHr]; simpl; [by intros _ ?%elem_of_nil|].
  intros (Ha & Hl & Hr & Rl & Rr) Hin.
  apply elem_of_app in Hin as [Hin|Hin].
  - eapply in_tree_left; [done|]. rewrite Hl. by apply IHl.
  - apply elem_of_cons in Hin as [->|Hin]; [by eapply in_tree_here|].
    eapply in_tree_right; [done|]. rewrite Hr. by apply IHr.
Qed.

Lemma repr_value h t b m :
  repr h t → b ∈ addrs t → h !! b = Some m → data m ∈ values t.
Proof.
  induction t as [|a n l IHl r IHr]; simpl; [by intros _ ?%elem_of_nil|].
  intros (Ha & Hl & Hr & Rl & Rr) Hin Hm.
  apply elem_of_app in Hin as [Hin|Hin].
  - apply elem_of_app. left. by apply IHl.
  - apply elem_of_app. right. apply elem_of_cons.
    apply elem_of_cons in Hin as [->|Hin]; [left; congruence|right; by apply IHr].
Qed.

Lemma repr_ordered h t b m :
  repr h t → bst compare t → b ∈ addrs t → h !! b = Some m →
  ordered_at compare h m.
Proof.
  induction t as [|a n l IHl r IHr]; simpl; [by intros _ _ ?%elem_of_nil|].
  intros (Ha & Hl & Hr & Rl & Rr) (Bl & Br & BSl & BSr) Hin Hm.
  apply elem_of_app in Hin as [Hin|Hin]; [by apply IHl|].
  apply elem_of_cons in Hin as [->|Hin]; [|by apply IHr].
  rewrite Ha in Hm. injection Hm as <-. split.
  - intros b' m' Hb' Hm'. rewrite Hl in Hb'.
    apply (in_tree_addrs _ _ _ Rl) in Hb'.
    apply Bl. by eapply repr_value.
  - intros b' m' Hb' Hm'. rewrite Hr in Hb'.
    apply (in_tree_addrs _ _ _ Rr) in Hb'.
    apply Br. by eapply repr_value.
Qed.

Lemma is_tree_ordered s t : is_tree s t → bst compare t → ordered compare s.
Proof.
  intros (Hrt & R & ND) B b m (Hin & Hm).
  rewrite Hrt in Hin. apply (in_tree_addrs _ _ _ R) in Hin.
  by eapply repr_ordered.
Qed.

Lemma repr_parent h t : ∀ p b m,
  repr h t → NoDup (addrs t) → parents_ok p t →
  b ∈ addrs t → h !! b = Some m →
  (parent m = p ∧ root_of t = Some b) ∨
  ((∃ a n, parent m = Some a ∧ h !! a = Some n ∧
           (left n = Some b ∨ right n = Some b)) ∧ root_of t ≠ Some b).
Proof.
  induction t as [|a n l IHl r IHr]; intros p b m; simpl;
    [by intros _ _ _ ?%elem_of_nil|].
  intros (Ha & Hl & Hr & Rl & Rr) ND (Hp & Pl & Pr) Hin Hm.
  assert ((a ∉ addrs l) ∧ (a ∉ addrs r) ∧ NoDup (addrs l) ∧ NoDup (addrs r))
    as (Hal & Har & NDl & NDr) by (split_nodup ND; set_solver).
  apply elem_of_app in Hin as [Hin|Hin].
  - right. split; [|intros [= ->]; done].
    destruct (IHl (Some a) b m Rl NDl Pl Hin Hm) as [[Hpm Hroot]|[Hex _]]; [|done].
    exists a, n. split_and!; [done|done|]. left. congruence.
  - apply elem_of_cons in Hin as [->|Hin].
    + left. split; [congruence|done].
    + right. split; [|intros [= ->]; done].
      destruct (IHr (Some a) b m Rr NDr Pr Hin Hm) as [[Hpm Hroot]|[Hex _]]; [|done].
      exists a, n. split_and!; [done|done|]. right. congruence.
Qed.

Lemma is_tree_parents_correct s t :
  is_tree s t → parents_ok None t → parents_correct s.
Proof.
  intros (Hrt & R & ND) Hp b m (Hin & Hm).
  rewrite Hrt in Hin. apply (in_tree_addrs _ _ _ R) in Hin.
  destruct (repr_parent _ _ None b m R ND Hp Hin Hm)
    as [[Hpm Hroot]|[(a & n & Hpm & Ha & Hch) Hroot]].
  - unfold parent_correct. rewrite Hpm, Hrt. done.
  - unfold parent_correct. rewrite Hpm, Hrt. split; [by exists n|done].
Qed.

(** X7. Whatever the heap looks like, [find] writes nothing, and a node it
    returns is reachable from the pointer it started at and holds a value that
    compares equal to the one looked for. *)
Theorem find_sound fuel : ∀ p d s r s',
  find compare fuel p d s = Some (r, s') →
  s' = s ∧
  match r with
  | None => True
  | Some a => ∃ n, heap s !! a = Some n ∧ compare (data n) d = 0 ∧
                   in_tree (heap s) p a
  end.
Proof.
  induction fuel as [|fuel IH]; intros p d s r s' E.
  - destruct p; simpl in E; [done|]. injection E as <- <-. done.
  - destruct p as [a|]; simpl in E; [|injection E as <- <-; done].
    unfold bind, load in E.
    destruct (heap s !! a) as [n|] eqn:Ha; [|done]. simpl in E.
    destruct (Z.eqb_spec (compare (data n) d) 0) as [E0|N0].
    + injection E as <- <-. split; [done|]. exists n. split_and!; try done.
      by eapply in_tree_here.
    + destruct (compare (data n) d >? 0).
      * destruct (IH _ _ _ _ _ E) as [-> Hr]. split; [done|].
        destruct r as [b|]; [|done]. destruct Hr as (m & Hm & Hc & Hin).
        exists m. split_and!; try done. by eapply in_tree_left.
      * destruct (IH _ _ _ _ _ E) as [-> Hr]. split; [done|].
        destruct r as [b|]; [|done]. destruct Hr as (m & Hm & Hc & Hin).
        exists m. split_and!; try done. by eapply in_tree_right.
Qed.

Lemma find_hits t : ∀ fuel h rt sz v,
  repr h t → (depth t ≤ fuel)%nat → hits compare v t →
  ∃ a n, find compare fuel (root_of t) v (mk_state h rt sz)
           = Some (Some a, mk_state h rt sz) ∧
         a ∈ addrs t ∧ h !! a = Some n ∧ compare (data n) v = 0.
Proof.
  induction t as [|a n l IHl r IHr]; intros fuel h rt sz v R Hfuel Hh; [done|].
  destruct fuel as [|fuel]; [simpl in Hfuel; lia|]. simpl in Hfuel.
  destruct R as (Ha & Hl & Hr & Rl & Rr). simpl in Hh.
  destruct (Z.eqb_spec (compare (data n) v) 0) as [E0|N0].
  - exists a, n. split_and!; [|simpl; set_solver|done|done].
    simpl. eapply bind_Some; [by apply load_Some|].
    destruct (Z.eqb_spec (compare (data n) v) 0); [done|lia].
  - destruct (compare (data n) v >? 0) eqn:Eg.
    + destruct (IHl fuel h rt sz v Rl ltac:(lia) Hh) as (b & m & E & Hin & Hm & Hc).
      exists b, m. split_and!; [|simpl; set_solver|done|done].
      simpl. eapply bind_Some; [by apply load_Some|].
      destruct (Z.eqb_spec (compare (data n) v) 0); [lia|].
      rewrite Eg, Hl. done.
    + destruct (IHr fuel h rt sz v Rr ltac:(lia) Hh) as (b & m & E & Hin & Hm & Hc).
      exists b, m. split_and!; [|simpl; set_solver|done|done].
      simpl. eapply bind_Some; [by apply load_Some|].
      destruct (Z.eqb_spec (compare (data n) v) 0); [lia|].
      rewrite Eg, Hr. done.
Qed.

Lemma find_min_repr t : ∀ fuel h rt sz,
  t ≠ Leaf → repr h t → (depth t ≤ fuel)%nat →
  ∃ a n vs,
    find_min fuel (root_of t) (mk_state h rt sz) = Some (Some a, mk_state h rt sz) ∧
    a ∈ addrs t ∧ h !! a = Some n ∧ values t = data n :: vs.
Proof.
  induction t as [|a n l IHl r IHr]; intros fuel h rt sz Hne R Hfuel; [done|].
  destruct fuel as [|fuel]; [simpl in Hfuel; lia|]. simpl in Hfuel.
  destruct R as (Ha & Hl & Hr & Rl & Rr).
  destruct l as [|la ln ll lr].
  - exists a, n, (values r). split_and!; [|simpl; set_solver|done|done].
    simpl. eapply bind_Some; [by apply get_left_Some|]. by rewrite Hl.
  - destruct (IHl fuel h rt sz ltac:(done) Rl ltac:(lia)) as (b & m & vs & E & Hin & Hm & Hv).
    exists b, m, (vs ++ data n :: values r). split_and!; [|simpl; set_solver|done|].
    + simpl. eapply bind_Some; [by apply get_left_Some|]. rewrite Hl. exact E.
    + change (values (Bin a n (Bin la ln ll lr) r))
        with (values (Bin la ln ll lr) ++ data n :: values r).
      by rewrite Hv.
Qed.

Lemma find_max_repr t : ∀ fuel h rt sz,
  t ≠ Leaf → repr h t → (depth t ≤ fuel)%nat →
  ∃ a n vs,
    find_max fuel (root_of t) (mk_state h rt sz) = Some (Some a, mk_state h rt sz) ∧
    a ∈ addrs t ∧ h !! a = Some n ∧ values t = vs ++ [data n].
Proof.
  induction t as [|a n l IHl r IHr]; intros fuel h rt sz Hne R Hfuel; [done|].
  destruct fuel as [|fuel]; [simpl in Hfuel; lia|]. simpl in Hfuel.
  destruct R as (Ha & Hl & Hr & Rl & Rr).
  destruct r as [|ra rn rl rr].
  - exists a, n, (values l). split_and!; [|simpl; set_solver|done|done].
    simpl. eapply bind_Some; [by apply get_right_Some|]. by rewrite Hr.
  - destruct (IHr fuel h rt sz ltac:(done) Rr ltac:(lia)) as (b & m & vs & E & Hin & Hm & Hv).
    exists b, m, (values l ++ data n :: vs). split_and!; [|simpl; set_solver|done|].
    + simpl. eapply bind_Some; [by apply get_right_Some|]. rewrite Hr. exact E.
    + change (values (Bin a n l (Bin ra rn rl rr)))
        with (values l ++ data n :: values (Bin ra rn rl rr)).
      rewrite Hv. by rewrite <- app_assoc.
Qed.

Lemma avl_size_bound t :
  heights_ok t → avl t →
  2 ^ hgt t ≤ (Z.of_nat (length (addrs t)) + 1) ^ 2.
Proof.
  induction t as [|a n l IHl r IHr]; [done|].
  intros (Hn & HOl & HOr) (Hb & Al & Ar).
  specialize (IHl HOl Al). specialize (IHr HOr Ar).
  pose proof (heights_ok_nonneg _ HOl) as Hl0.
  pose proof (heights_ok_nonneg _ HOr) as Hr0.
  change (hgt (Bin a n l r)) with (height n). rewrite Hn.
  simpl addrs. rewrite length_app. simpl length.
  set (A := Z.of_nat (length (addrs l)) + 1) in *.
  set (B := Z.of_nat (length (addrs r)) + 1) in *.
  replace (Z.of_nat (length (addrs l) + S (length (addrs r))) + 1) with (A + B) by lia.
  assert (1 ≤ A ∧ 1 ≤ B) as [HA HB] by lia.
  set (m := Z.max (hgt l) (hgt r)).
  assert (0 ≤ m) as Hm0 by lia.
  rewrite Z.pow_add_r by lia. change (2 ^ 1) with 2.
  assert (2 ^ m ≤ 2 * 2 ^ hgt l ∧ 2 ^ m ≤ 2 * 2 ^ hgt r) as [Hml Hmr].
  { split.
    - destruct (decide (m = hgt l)) as [->|]; [lia|].
      replace m with (hgt l + 1) by lia.
      rewrite Z.pow_add_r by lia. change (2 ^ 1) with 2. lia.
    - destruct (decide (m = hgt r)) as [->|]; [lia|].
      replace m with (hgt r + 1) by lia.
      rewrite Z.pow_add_r by lia. change (2 ^ 1) with 2. lia. }
  assert (2 ^ m ≤ A ^ 2 ∨ 2 ^ m ≤ B ^ 2) as Hone.
  { unfold m. destruct (Z.max_spec (hgt l) (hgt r)) as [[_ ->]|[_ ->]]; [by right|by left]. }
  assert (0 < 2 ^ m) as HP by (apply Z.pow_pos_nonneg; lia).
  set (P := 2 ^ m) in *.
  set (Pl := 2 ^ hgt l) in *. set (Pr := 2 ^ hgt r) in *.
  rewrite !Z.pow_2_r in *.
  assert (P * P ≤ (2 * A * B) * (2 * A * B)) as Hsq.
  { destruct Hone as [H1|H1]; nia. }
  assert (P ≤ 2 * A * B) as HAB by nia.
  nia.
Qed.

End Bridge.

Section InsertOnly.

Context {T : Type}.
Variable compare : T → T → Z.
Implicit Types (h : gmap addr (node T)) (s : state T) (t : tree T) (c : tree_class).

Lemma exec_inserts c (vs : list T) :
  no_equal compare vs → Z.of_nat (length vs) < 2 ^ 63 →
  ∃ s t,
    exec c compare (Insert <$> vs) = Some s ∧
    sound c s t ∧
    length (addrs t) = length vs ∧
    (c = BinaryTree → parents_ok None t) ∧
    (strict_total_order compare →
     bst compare t ∧ ∀ y, y ∈ values t ↔ y ∈ vs).
Proof.
  intros Hne Hlen.
  destruct (run_inserts compare c vs empty Leaf (sound_empty c))
    as (s & t & E & So & L & P & B); [simpl; lia| |done|].
  { intros y v Hy. by apply elem_of_nil in Hy. }
  exists s, t. split_and!; try done.
  - unfold exec. by rewrite E.
  - intros Hc. by apply P.
  - intros O. destruct (B O) as [Bt Hmem]; [done|]. split; [done|].
    intros y. rewrite Hmem. simpl. set_solver.
Qed.

Lemma sound_heap_size c s t : sound c s t → size (heap s) = length (addrs t).
Proof.
  intros ((Hrt & R & ND) & _ & _ & _ & Hgc).
  apply Nat.le_antisymm; [|by apply addrs_le_size].
  rewrite <- (size_list_to_set (C := gset addr) (addrs t)) by done.
  rewrite <- size_dom. apply subseteq_size.
  intros a Ha. apply elem_of_dom in Ha. apply elem_of_list_to_set. by apply Hgc.
Qed.

(** C2. For every insertion-only workload into an empty AVL tree and each of
    its inserts: if the inserts up to that one return, every node reachable
    from the root has a balance factor height(left) - height(right) in
    [-1, 1], an absent child counting 0, the heights being the cached ones,
    and every cached height is 1 + max of the children's; and they do return
    when no value compares equal to one inserted before it.  The comparator
    may be any function; the bound on the number of inserts keeps the
    [uint64_t] heights from wrapping. *)
Theorem avl_insert_only_balanced (vs : list T) :
  Z.of_nat (length vs) < 2 ^ 63 →
  ∀ k,
    (∀ s, exec AvlTree compare (Insert <$> take k vs) = Some s →
          balanced s ∧ heights_cached s) ∧
    (no_equal compare (take k vs) →
     ∃ s, exec AvlTree compare (Insert <$> take k vs) = Some s).
Proof.
  intros Hlen k. split.
  - intros s E. unfold exec in E.
    destruct (run AvlTree compare (Insert <$> take k vs) empty) as [[[] s0]|] eqn:Er;
      [|done].
    injection E as ->.
    destruct (run_inserts_sound compare AvlTree (take k vs) empty Leaf s
                (sound_empty AvlTree)) as (t & IT & HO & A & _); [|done|].
    { rewrite length_take. simpl. lia. }
    split.
    + eapply is_tree_balanced; [done|by apply A].
    + by eapply is_tree_heights_cached.
  - intros Hne.
    destruct (exec_inserts AvlTree (take k vs) Hne) as (s & t & E & _).
    { rewrite length_take. lia. }
    by exists s.
Qed.

(** X1. With a strict-total-order comparator, every insertion-only workload
    of distinct values into an empty tree of either class runs to completion,
    and the in-order traversal of the result is strictly ascending and holds
    exactly the values that were inserted. *)
Theorem insert_only_inorder_sorted c (vs : list T) :
  strict_total_order compare → NoDup vs → Z.of_nat (length vs) < 2 ^ 63 →
  ∃ s xs,
    exec c compare (Insert <$> vs) = Some s ∧
    traverse (binary_tree.budget s) (heap s) (tree_root s) = Some xs ∧
    sorted compare xs ∧ ∀ y, y ∈ xs ↔ y ∈ vs.
Proof.
  intros O ND Hlen.
  destruct (exec_inserts c vs (NoDup_no_equal compare O vs ND) Hlen)
    as (s & t & E & So & _ & _ & B).
  destruct (B O) as [Bt Hmem].
  exists s, (values t). split_and!; [done| |by apply bst_sorted|done].
  apply is_tree_traverse. apply So.
Qed.

(** X2. With a strict-total-order comparator, after every insertion-only
    workload of distinct values into an empty tree of either class the
    ordering invariant holds at every node reachable from the root: the
    values below [left] compare less than the node's, those below [right]
    greater. *)
Theorem insert_only_ordered c (vs : list T) :
  strict_total_order compare → NoDup vs → Z.of_nat (length vs) < 2 ^ 63 →
  ∃ s, exec c compare (Insert <$> vs) = Some s ∧ ordered compare s.
Proof.
  intros O ND Hlen.
  destruct (exec_inserts c vs (NoDup_no_equal compare O vs ND) Hlen)
    as (s & t & E & So & _ & _ & B).
  destruct (B O) as [Bt Hmem].
  exists s. split; [done|]. eapply is_tree_ordered; [apply So|done].
Qed.

(** X3. Whatever the comparator, after an insertion-only workload in which no
    value compares equal to one inserted before it, [size()] is the number of
    inserts, and so is the number of nodes of the tree and of cells the free
    store holds. *)
Theorem insert_only_size c (vs : list T) :
  no_equal compare vs → Z.of_nat (length vs) < 2 ^ 63 →
  ∃ s xs,
    exec c compare (Insert <$> vs) = Some s ∧
    traverse (binary_tree.budget s) (heap s) (tree_root s) = Some xs ∧
    binary_tree.size s = Some (Z.of_nat (length vs), s) ∧
    length xs = length vs ∧
    size (heap s) = length vs.
Proof.
  intros Hne Hlen.
  destruct (exec_inserts c vs Hne Hlen) as (s & t & E & So & L & _ & _).
  exists s, (values t). split_and!.
  - done.
  - apply is_tree_traverse. apply So.
  - unfold binary_tree.size. destruct So as (_ & _ & _ & -> & _). by rewrite L.
  - by rewrite length_values.
  - rewrite <- L. by eapply sound_heap_size.
Qed.

(** X4. Whatever the comparator and the class, after an insertion-only
    workload in which no value compares equal to one inserted before it,
    every reachable node caches 1 + max(height(left), height(right)). *)
Theorem insert_only_heights_cached c (vs : list T) :
  no_equal compare vs → Z.of_nat (length vs) < 2 ^ 63 →
  ∃ s, exec c compare (Insert <$> vs) = Some s ∧ heights_cached s.
Proof.
  intros Hne Hlen.
  destruct (exec_inserts c vs Hne Hlen) as (s & t & E & So & _ & _ & _).
  exists s. split; [done|].
  destruct So as (IT & HO & _). by eapply is_tree_heights_cached.
Qed.

(** X5. In a plain [binary_tree], whose hook never rotates, every parent
    back-reference is right after an insertion-only workload in which no
    value compares equal to one inserted before it: the root has no parent
    and every other node's parent is the node that holds it as a child. *)
Theorem binary_tree_insert_only_parents_correct (vs : list T) :
  no_equal compare vs → Z.of_nat (length vs) < 2 ^ 63 →
  ∃ s, exec BinaryTree compare (Insert <$> vs) = Some s ∧ parents_correct s.
Proof.
  intros Hne Hlen.
  destruct (exec_inserts BinaryTree vs Hne Hlen) as (s & t & E & So & _ & P & _).
  exists s. split; [done|].
  destruct So as (IT & _). eapply is_tree_parents_correct; [done|by apply P].
Qed.

(** X6. Insert, then look up: with a strict-total-order comparator, after an
    insertion-only workload of distinct values [find] returns a node holding
    [v] for every inserted [v] and [nullptr] for every other value, and
    leaves the tree as it was. *)
Theorem insert_then_find c (vs : list T) :
  strict_total_order compare → NoDup vs → Z.of_nat (length vs) < 2 ^ 63 →
  ∃ s,
    exec c compare (Insert <$> vs) = Some s ∧
    ∀ v,
      (v ∈ vs →
       ∃ a n, binary_tree.find compare (binary_tree.budget s) (tree_root s) v s
                = Some (Some a, s) ∧
              heap s !! a = Some n ∧ data n = v) ∧
      (v ∉ vs →
       binary_tree.find compare (binary_tree.budget s) (tree_root s) v s
         = Some (None, s)).
Proof.
  intros O ND0 Hlen.
  destruct (exec_inserts c vs (NoDup_no_equal compare O vs ND0) Hlen)
    as (s & t & E & So & _ & _ & B).
  destruct (B O) as [Bt Hmem].
  exists s. split; [done|]. intros v.
  destruct So as (IT & _).
  pose proof (depth_in_budget _ _ IT) as Hfuel.
  destruct IT as (Hrt & R & ND). destruct s as [h rt sz]. simpl in Hrt, R.
  simpl heap. simpl tree_root. rewrite Hrt. split.
  - intros Hv. apply Hmem in Hv.
    destruct (find_hits compare t _ h (root_of t) sz v R Hfuel) as (a & n & Ef & _ & Ha & Hc).
    { by apply present_hits. }
    exists a, n. split_and!; [done|done|]. by apply (cmp_eq _ O).
  - intros Hv. apply find_absent; [done|done|].
    intros x Hx Hc. apply (cmp_eq _ O) in Hc. subst x. apply Hv. by apply Hmem.
Qed.

(** X10. The height of an AVL tree built by insertions, none of a value that
    compares equal to an earlier one, is logarithmic in its size:
    2 ^ height() <= (size() + 1) ^ 2, so height() <= 2 log2 (size() + 1). *)
Theorem avl_height_logarithmic (vs : list T) :
  no_equal compare vs → Z.of_nat (length vs) < 2 ^ 63 →
  ∃ s ht,
    exec AvlTree compare (Insert <$> vs) = Some s ∧
    binary_tree.tree_height s = Some (ht, s) ∧
    2 ^ ht ≤ (tree_size s + 1) ^ 2.
Proof.
  intros Hne Hlen.
  destruct (exec_inserts AvlTree vs Hne Hlen) as (s & t & E & So & _ & _ & _).
  destruct So as ((Hrt & R & ND) & HO & A & Hsz & _).
  exists s, (hgt t). split_and!; [done| |].
  - destruct s as [h rt sz]. simpl in Hrt, R. subst rt.
    unfold binary_tree.tree_height.
    eapply bind_Some; [reflexivity|]. by apply height_of_repr.
  - rewrite Hsz. apply avl_size_bound; [done|by apply A].
Qed.

End InsertOnly.

Section Searches.

Context {T : Type}.
Variable compare : T → T → Z.
Implicit Types (h : gmap addr (node T)) (s : state T) (t : tree T) (c : tree_class).

Import binary_tree.

(** X8. On a non-empty search tree [find_min] returns a node of the tree
    whose value no other node's value precedes, and changes nothing. *)
Theorem find_min_least s t :
  strict_total_order compare → is_tree s t → bst compare t → t ≠ Leaf →
  ∃ a n,
    find_min (budget s) (tree_root s) s = Some (Some a, s) ∧
    in_tree (heap s) (tree_root s) a ∧
    heap s !! a = Some n ∧
    ∀ b m, in_tree (heap s) (tree_root s) b → heap s !! b = Some m →
           compare (data n) (data m) ≤ 0.
Proof.
  intros O IT B Hne. pose proof (depth_in_budget _ _ IT) as Hfuel.
  destruct IT as (Hrt & R & ND). destruct s as [h rt sz]. simpl in Hrt, R. subst rt.
  destruct (find_min_repr t _ h (root_of t) sz Hne R Hfuel) as (a & n & vs & E & Hin & Ha & Hv).
  exists a, n. simpl heap. simpl tree_root. split_and!; [done|by apply addrs_in_tree|done|].
  intros b m Hb Hm. apply (in_tree_addrs _ _ _ R) in Hb.
  pose proof (repr_value _ _ _ _ R Hb Hm) as Hd.
  pose proof (bst_sorted compare O _ B) as S. rewrite Hv in S, Hd.
  apply StronglySorted_cons in S as [Hall _]. rewrite Forall_forall in Hall.
  apply elem_of_cons in Hd as [->|Hd].
  - rewrite (cmp_refl compare O). lia.
  - specialize (Hall _ Hd). simpl in Hall. lia.
Qed.

(** X9. On a non-empty search tree [find_max] returns a node of the tree
    whose value no other node's value exceeds, and changes nothing. *)
Theorem find_max_greatest s t :
  strict_total_order compare → is_tree s t → bst compare t → t ≠ Leaf →
  ∃ a n,
    find_max (budget s) (tree_root s) s = Some (Some a, s) ∧
    in_tree (heap s) (tree_root s) a ∧
    heap s !! a = Some n ∧
    ∀ b m, in_tree (heap s) (tree_root s) b → heap s !! b = Some m →
           0 ≤ compare (data n) (data m).
Proof.
  intros O IT B Hne. pose proof (depth_in_budget _ _ IT) as Hfuel.
  destruct IT as (Hrt & R & ND). destruct s as [h rt sz]. simpl in Hrt, R. subst rt.
  destruct (find_max_repr t _ h (root_of t) sz Hne R Hfuel) as (a & n & vs & E & Hin & Ha & Hv).
  exists a, n. simpl heap. simpl tree_root. split_and!; [done|by apply addrs_in_tree|done|].
  intros b m Hb Hm. apply (in_tree_addrs _ _ _ R) in Hb.
  pose proof (repr_value _ _ _ _ R Hb Hm) as Hd.
  pose proof (bst_sorted compare O _ B) as S. rewrite Hv in S, Hd.
  apply StronglySorted_app in S as (Hall & _ & _).
  apply elem_of_app in Hd as [Hd|Hd].
  - specialize (Hall _ (data n) Hd). simpl in Hall.
    assert (compare (data m) (data n) < 0) as Hlt by (apply Hall; set_solver).
    apply (cmp_antisym _ O) in Hlt. lia.
  - apply elem_of_cons in Hd as [->|Hd%elem_of_nil]; [|done].
    rewrite (cmp_refl compare O). lia.
Qed.

(** X11. [insert(node)] with a node made by [new_node] that is not yet in
    the tree, when the descent meets no node that compares equal: the call
    returns, that very node is linked into the tree, [size()] grows by one,
    and the in-order traversal is the old one with the value added where the
    descent ends. *)
Theorem insert_node_links c s t x nx :
  is_tree s t → heights_ok t → (c = AvlTree → avl t) →
  Z.of_nat (length (addrs t)) < 2 ^ 63 - 1 →
  0 ≤ tree_size s < 2 ^ 64 - 1 →
  heap s !! x = Some nx → pristine nx → x ∉ addrs t →
  ¬ hits compare (data nx) t →
  ∃ s',
    tree_insert_node c compare x s = Some (tt, s') ∧
    traverse (budget s') (heap s') (tree_root s') = Some (pins compare (data nx) t) ∧
    in_tree (heap s') (tree_root s') x ∧ tree_size s' = tree_size s + 1.
Proof.
  intros IT HO A Hlen Hsz Hx Hp Hnin Hnh.
  pose proof (depth_in_budget _ _ IT) as Hfuel.
  pose proof (hgt_le_length _ HO) as Hh.
  destruct IT as (Hrt & R & ND). destruct s as [h rt sz]. simpl in Hrt, R, Hsz, Hx. subst rt.
  destruct (insert_at_spec compare c t _ h (root_of t) (wrap64 (sz + 1)) x nx
              R ND Hnin Hx Hp Hnh HO A ltac:(lia) Hfuel)
    as (h' & t' & E & Hne & R' & ND' & HO' & A' & Hg & Sub & Sup & F & V & Hxin & Hlen' & PO).
  exists (mk_state h' (root_of t') (wrap64 (sz + 1))). split_and!.
  - unfold tree_insert_node, insert_node.
    eapply bind_Some; [reflexivity|].
    eapply bind_Some; [reflexivity|]. simpl tree_root.
    eapply bind_Some; [exact E|]. done.
  - rewrite <- V. apply is_tree_traverse. by split_and!.
  - simpl. by apply addrs_in_tree.
  - simpl. apply wrap64_small. lia.
Qed.

End Searches.

(** ** The destructor *)

Section Destroy.
Context {T : Type}.
Variable compare : T → T → Z.
Implicit Types (h : gmap addr (node T)) (s : state T) (t : tree T) (c : tree_class).
Import binary_tree.

Lemma destroy_repr t : ∀ fuel h rt sz,
  repr h t → NoDup (addrs t) → (depth t ≤ fuel)%nat →
  ∃ h',
    destroy fuel (root_of t) (mk_state h rt sz) = Some (tt, mk_state h' rt sz) ∧
    (∀ a, a ∈ addrs t → h' !! a = None) ∧
    (∀ a, a ∉ addrs t → h' !! a = h !! a).
Proof.
  induction t as [|a n l IHl r IHr]; intros fuel h rt sz R ND Hfuel.
  - exists h. split_and!; [by destruct fuel| |done].
    intros a Ha. by apply elem_of_nil in Ha.
  - destruct fuel as [|fuel]; [simpl in Hfuel; lia|]. simpl in Hfuel.
    destruct R as (Ha & Hl & Hr & Rl & Rr).
    assert ((a ∉ addrs l) ∧ (a ∉ addrs r) ∧ NoDup (addrs l) ∧ NoDup (addrs r) ∧
            (∀ b, b ∈ addrs l → b ∉ addrs r))
      as (Hal & Har & NDl & NDr & Hlr) by (split_nodup ND; set_solver).
    destruct (IHl fuel h rt sz Rl NDl ltac:(lia)) as (h1 & E1 & G1 & F1).
    assert (repr h1 r) as Rr1.
    { apply (repr_frame h); [done|]. intros b Hb. apply F1. intros Hb'.
      by apply (Hlr b). }
    assert (h1 !! a = Some n) as Ha1 by (by rewrite F1).
    destruct (IHr fuel h1 rt sz Rr1 NDr ltac:(lia)) as (h2 & E2 & G2 & F2).
    exists (delete a h2). split_and!.
    + simpl.
      eapply bind_Some; [by apply get_left_Some|]. rewrite Hl.
      eapply bind_Some; [exact E1|].
      eapply bind_Some; [by apply get_right_Some|]. rewrite Hr.
      eapply bind_Some; [exact E2|].
      apply (free_Some _ _ _ _ n). by rewrite F2.
    + intros b Hb. simpl in Hb.
      destruct (decide (b = a)) as [->|Hba]; [apply lookup_delete_eq|].
      rewrite lookup_delete_ne by done.
      apply elem_of_app in Hb as [Hb|Hb].
      * rewrite F2 by (by apply Hlr). by apply G1.
      * apply elem_of_cons in Hb as [->|Hb]; [done|]. by apply G2.
    + intros b Hb. simpl in Hb.
      assert (b ≠ a ∧ (b ∉ addrs l) ∧ (b ∉ addrs r)) as (Hba & Hbl & Hbr).
      { clear -Hb. set_solver. }
      rewrite lookup_delete_ne by done. rewrite F2 by done. by apply F1.
Qed.

(** X12. On a state whose nodes form a tree, the destructor returns, deletes
    every node reachable from the root and touches no other cell; it never
    reads or deletes a node it has already deleted. *)
Theorem destructor_frees_tree s t :
  is_tree s t →
  ∃ s',
    destructor s = Some (tt, s') ∧
    (∀ a, in_tree (heap s) (tree_root s) a → heap s' !! a = None) ∧
    (∀ a, ¬ in_tree (heap s) (tree_root s) a → heap s' !! a = heap s !! a).
Proof.
  intros IT. pose proof (depth_in_budget _ _ IT) as Hfuel.
  destruct IT as (Hrt & R & ND). destruct s as [h rt sz]. simpl in Hrt, R. subst rt.
  destruct (destroy_repr t _ h (root_of t) sz R ND Hfuel) as (h' & E & G & F).
  exists (mk_state h' (root_of t) sz). split_and!; [done| |].
  - intros a Ha. apply G. by apply (in_tree_addrs _ _ _ R).
  - intros a Ha. apply F. intros Hin. apply Ha. by apply addrs_in_tree.
Qed.

(** X13. Over the life of a tree object that only sees insertions, none of a
    value that compares equal to an earlier one, nothing leaks: after the
    workload the destructor leaves the free store empty. *)
Theorem insert_only_then_destroy c (vs : list T) :
  no_equal compare vs → Z.of_nat (length vs) < 2 ^ 63 →
  ∃ s s',
    exec c compare (Insert <$> vs) = Some s ∧
    destructor s = Some (tt, s') ∧ heap s' = ∅.
Proof.
  intros Hne Hlen.
  destruct (exec_inserts compare c vs Hne Hlen) as (s & t & E & So & _).
  destruct So as (IT & _ & _ & _ & Hgc).
  pose proof (depth_in_budget _ _ IT) as Hfuel.
  destruct IT as (Hrt & R & ND). destruct s as [h rt sz]. simpl in Hrt, R, Hgc. subst rt.
  destruct (destroy_repr t _ h (root_of t) sz R ND Hfuel) as (h' & Ed & G & F).
  exists (mk_state h (root_of t) sz), (mk_state h' (root_of t) sz).
  split_and!; [done|done|]. simpl.
  apply map_eq. intros a. rewrite lookup_empty.
  destruct (decide (a ∈ addrs t)) as [Hin|Hout]; [by apply G|].
  rewrite F by done. destruct (h !! a) eqn:Ea; [|done].
  exfalso. apply Hout. apply Hgc. by eexists.
Qed.

End Destroy.

(** ** Removing a leaf *)

Section RemoveLeaf.

Context {T : Type}.
Implicit Types (h : gmap addr (node T)) (s : state T) (t l r : tree T).
Implicit Types (a b x : addr) (p rt : ptr) (sz : Z).

Import binary_tree.

Lemma without_id h x t :
  x ∉ addrs t → repr h t → heights_ok t →
  Z.of_nat (length (addrs t)) < 2 ^ 63 →
  without x t = t.
Proof.
  induction t as [|a n l IHl r IHr]; [done|].
  intros Hx (Ha & Hl & Hr & Rl & Rr) (Hn & HOl & HOr) Hlen.
  simpl in Hx, Hlen. rewrite length_app in Hlen. simpl in Hlen.
  assert (a ≠ x ∧ (x ∉ addrs l) ∧ (x ∉ addrs r)) as (Hax & Hxl & Hxr)
    by (clear -Hx; set_solver).
  simpl. rewrite decide_False by done.
  rewrite IHl, IHr by (done || lia).
  pose proof (hgt_le_length _ HOl). pose proof (hgt_le_length _ HOr).
  pose proof (heights_ok_nonneg _ HOl). pose proof (heights_ok_nonneg _ HOr).
  rewrite wrap64_small by lia. rewrite <- Hn, <- Hl, <- Hr.
  by rewrite node_eta.
Qed.

Lemma without_length x t : (length (addrs (without x t)) ≤ length (addrs t))%nat.
Proof.
  induction t as [|a n l IHl r IHr]; simpl; [done|].
  destruct (decide (a = x)); simpl; [lia|].
  rewrite !length_app. simpl. lia.
Qed.

Lemma without_subset x t b : b ∈ addrs (without x t) → b ∈ addrs t.
Proof.
  induction t as [|a n l IHl r IHr]; simpl; [done|].
  destruct (decide (a = x)); simpl; [by intros ?%elem_of_nil|].
  intros Hb. apply elem_of_app in Hb as [Hb|Hb].
  - apply elem_of_app. left. by apply IHl.
  - apply elem_of_app. right. apply elem_of_cons.
    apply elem_of_cons in Hb as [->|Hb]; [by left|right; by apply IHr].
Qed.

Lemma without_root x t : root_of t ≠ Some x → root_of (without x t) = root_of t.
Proof.
  destruct t as [|a n l r]; simpl; [done|]. intros Hx.
  rewrite decide_False; [done|]. by intros ->.
Qed.

(** One level of the climb of [parent_refresh_height]. *)
Lemma refresh_step h rt sz a n l r fuel :
  h !! a = Some n → left n = root_of l → right n = root_of r →
  repr h l → repr h r →
  parent_refresh_height (S fuel) (Some a) (mk_state h rt sz)
  = (match parent n with
     | Some _ => parent_refresh_height fuel (parent n)
     | None => ret tt
     end)
      (mk_state (<[a := mk_node (data n) (parent n) (left n) (right n)
                          (wrap64 (Z.max (hgt l) (hgt r) + 1))]> h) rt sz).
Proof.
  intros Ha Hl Hr Rl Rr. simpl.
  eapply bind_Some; [by apply update_height_repr|].
  eapply bind_Some; [apply get_parent_Some, lookup_insert_eq|]. done.
Qed.

Lemma refresh_above x nx t : ∀ p h rt sz,
  repr h t → NoDup (addrs t) → parents_ok p t → heights_ok t →
  Z.of_nat (length (addrs t)) < 2 ^ 63 →
  x ∈ addrs t → root_of t ≠ Some x →
  h !! x = Some nx → left nx = None → right nx = None →
  ∃ pa h1 h2 k,
    parent nx = Some pa ∧
    parent_relink (Some x) None (mk_state h rt sz) = Some (tt, mk_state h1 rt sz) ∧
    h1 !! x = Some nx ∧
    (∀ fuel, parent_refresh_height (k + fuel) (Some pa) (mk_state h1 rt sz)
             = (match p with
                | Some _ => parent_refresh_height fuel p
                | None => ret tt
                end) (mk_state h2 rt sz)) ∧
    (k ≤ depth t)%nat ∧
    repr h2 (without x t) ∧ heights_ok (without x t) ∧
    parents_ok p (without x t) ∧
    h2 !! x = Some nx ∧
    (∀ b, b ∉ addrs t → h2 !! b = h !! b).
Proof.
  induction t as [|a n l IHl r IHr];
    intros p h rt sz R ND Hpo HO Hlen Hin Hroot Hx Hxl Hxr.
  { by apply elem_of_nil in Hin. }
  destruct R as (Ha & Hl & Hr & Rl & Rr).
  destruct Hpo as (Hpn & Pl & Pr). subst p.
  destruct HO as (Hn & HOl & HOr).
  assert (a ≠ x) as Hax by (intros ->; by apply Hroot).
  assert ((a ∉ addrs l) ∧ (a ∉ addrs r) ∧ NoDup (addrs l) ∧ NoDup (addrs r) ∧
          (∀ b, b ∈ addrs l → b ∉ addrs r))
    as (Hal & Har & NDl & NDr & Hlr) by (split_nodup ND; set_solver).
  simpl in Hlen. rewrite length_app in Hlen. simpl in Hlen.
  pose proof (hgt_le_length _ HOl) as Hhl. pose proof (hgt_le_length _ HOr) as Hhr.
  pose proof (heights_ok_nonneg _ HOl) as Hl0. pose proof (heights_ok_nonneg _ HOr) as Hr0.
  simpl in Hin. simpl without. rewrite decide_False by done. cbn zeta.
  apply elem_of_app in Hin as [Hin|Hin].
  - (* below the left link *)
    assert (x ∉ addrs r) as Hxr' by (by apply Hlr).
    rewrite (without_id h x r) by (done || lia).
    destruct (decide (root_of l = Some x)) as [Hlx|Hlx].
    + (* the left child itself *)
      destruct l as [|x0 n0 ll lr]; [done|]. simpl in Hlx. injection Hlx as ->.
      destruct Rl as (Hx0 & Hll & Hlr0 & _ & _).
      assert (n0 = nx) as -> by congruence.
      destruct Pl as (Hpx & _ & _).
      set (n1 := mk_node (data n) (parent n) None (right n) (height n)).
      set (h1 := <[a := n1]> h).
      set (n2 := mk_node (data n) (parent n) None (right n)
                   (wrap64 (Z.max 0 (hgt r) + 1))).
      set (h2 := <[a := n2]> h1).
      assert (root_of r ≠ Some x) as Hrx.
      { intros Hrx. apply Hxr'. by apply root_in_addrs. }
      exists a, h1, h2, 1%nat. split_and!.
      * done.
      * unfold parent_relink.
        eapply bind_Some; [by apply get_parent_Some|]. rewrite Hpx.
        eapply bind_Some; [by apply get_left_Some|]. rewrite Hl. simpl root_of.
        rewrite decide_True by done.
        eapply bind_Some; [by apply set_left_Some|]. fold n1 h1.
        eapply bind_Some; [apply get_right_Some, lookup_insert_eq|].
        change (right n1) with (right n). rewrite Hr. by rewrite decide_False.
      * unfold h1. by rewrite lookup_insert_ne.
      * intros fuel. simpl Nat.add.
        rewrite (refresh_step h1 rt sz a n1 Leaf r fuel);
          [|apply lookup_insert_eq|reflexivity|exact Hr|exact I|by apply repr_insert_ne].
        done.
      * simpl. lia.
      * simpl without. rewrite decide_True by done. simpl root_of. simpl hgt.
        rewrite <- Hr. fold n2. simpl. split_and!; try done.
        -- apply lookup_insert_eq.
        -- apply repr_insert_ne; [done|]. by apply repr_insert_ne.
      * simpl without. rewrite decide_True by done. simpl.
        split_and!; [|done|done]. rewrite wrap64_small by lia. done.
      * simpl without. rewrite decide_True by done. simpl. by split_and!.
      * unfold h2, h1. rewrite !lookup_insert_ne by done. done.
      * intros b Hb. unfold h2, h1.
        rewrite !lookup_insert_ne by (intros ->; apply Hb; simpl; clear; set_solver).
        done.
    + (* deeper *)
      destruct (IHl (Some a) h rt sz Rl NDl Pl HOl ltac:(lia) Hin Hlx Hx Hxl Hxr)
        as (pa & h1 & h2l & k & Hpx & Erel & Hx1 & Eclimb & Hk & R2 & HO2 & P2 & Hx2 & F2).
      set (l' := without x l) in *.
      assert (root_of l' = root_of l) as Hrl by (by apply without_root).
      assert (h2l !! a = Some n) as Ha2 by (rewrite F2 by done; done).
      assert (repr h2l r) as Rr2.
      { apply (repr_frame h); [done|]. intros b Hb. apply F2. intros Hb'.
        by apply (Hlr b). }
      set (n2 := mk_node (data n) (parent n) (left n) (right n)
                   (wrap64 (Z.max (hgt l') (hgt r) + 1))).
      set (h2 := <[a := n2]> h2l).
      pose proof (hgt_le_length _ HO2) as Hhl'.
      pose proof (heights_ok_nonneg _ HO2) as Hl'0.
      pose proof (without_length x l) as Hwl. fold l' in Hwl.
      assert (a ∉ addrs l') as Hal'.
      { intros Hb. by apply without_subset in Hb. }
      exists pa, h1, h2, (S k). split_and!.
      * done.
      * done.
      * done.
      * intros fuel. replace (S k + fuel)%nat with (k + S fuel)%nat by lia.
        rewrite Eclimb.
        rewrite (refresh_step h2l rt sz a n l' r fuel); [|done|congruence|done|done|done].
        done.
      * simpl. lia.
      * rewrite Hrl, <- Hl, <- Hr. fold n2. simpl. split_and!; try done.
        -- apply lookup_insert_eq.
        -- congruence.
        -- by apply repr_insert_ne.
        -- by apply repr_insert_ne.
      * simpl. split_and!; [|done|done]. rewrite wrap64_small by lia. done.
      * simpl. by split_and!.
      * unfold h2. rewrite lookup_insert_ne by done. done.
      * intros b Hb. simpl in Hb. unfold h2.
        rewrite lookup_insert_ne by (intros ->; apply Hb; clear; set_solver).
        apply F2. clear -Hb. set_solver.
  - apply elem_of_cons in Hin as [->|Hin]; [done|].
    (* below the right link *)
    assert (x ∉ addrs l) as Hxl' by (intros Hb; by apply (Hlr x)).
    rewrite (without_id h x l) by (done || lia).
    destruct (decide (root_of r = Some x)) as [Hrx|Hrx].
    + destruct r as [|x0 n0 rl rr]; [done|]. simpl in Hrx. injection Hrx as ->.
      destruct Rr as (Hx0 & Hrl & Hrr0 & _ & _).
      assert (n0 = nx) as -> by congruence.
      destruct Pr as (Hpx & _ & _).
      set (n1 := mk_node (data n) (parent n) (left n) None (height n)).
      set (h1 := <[a := n1]> h).
      set (n2 := mk_node (data n) (parent n) (left n) None
                   (wrap64 (Z.max (hgt l) 0 + 1))).
      set (h2 := <[a := n2]> h1).
      assert (root_of l ≠ Some x) as Hlx.
      { intros Hlx. apply Hxl'. by apply root_in_addrs. }
      exists a, h1, h2, 1%nat. split_and!.
      * done.
      * unfold parent_relink.
        eapply bind_Some; [by apply get_parent_Some|]. rewrite Hpx.
        eapply bind_Some; [by apply get_left_Some|]. rewrite Hl.
        rewrite decide_False by done.
        eapply bind_Some; [reflexivity|].
        eapply bind_Some; [by apply get_right_Some|]. rewrite Hr. simpl root_of.
        rewrite decide_True by done.
        by apply set_right_Some.
      * unfold h1. by rewrite lookup_insert_ne.
      * intros fuel. simpl Nat.add.
        rewrite (refresh_step h1 rt sz a n1 l Leaf fuel);
          [|apply lookup_insert_eq|exact Hl|reflexivity|by apply repr_insert_ne|exact I].
        done.
      * simpl. lia.
      * simpl without. rewrite decide_True by done. simpl root_of. simpl hgt.
        rewrite <- Hl. fold n2. simpl. split_and!; try done.
        -- apply lookup_insert_eq.
        -- apply repr_insert_ne; [done|]. by apply repr_insert_ne.
      * simpl without. rewrite decide_True by done. simpl.
        split_and!; [|done|done]. rewrite wrap64_small by lia. done.
      * simpl without. rewrite decide_True by done. simpl. by split_and!.
      * unfold h2, h1. rewrite !lookup_insert_ne by done. done.
      * intros b Hb. unfold h2, h1.
        rewrite !lookup_insert_ne by (intros ->; apply Hb; simpl; clear; set_solver).
        done.
    + destruct (IHr (Some a) h rt sz Rr NDr Pr HOr ltac:(lia) Hin Hrx Hx Hxl Hxr)
        as (pa & h1 & h2r & k & Hpx & Erel & Hx1 & Eclimb & Hk & R2 & HO2 & P2 & Hx2 & F2).
      set (r' := without x r) in *.
      assert (root_of r' = root_of r) as Hrr by (by apply without_root).
      assert (h2r !! a = Some n) as Ha2 by (rewrite F2 by done; done).
      assert (repr h2r l) as Rl2.
      { apply (repr_frame h); [done|]. intros b Hb. apply F2. by apply Hlr. }
      set (n2 := mk_node (data n) (parent n) (left n) (right n)
                   (wrap64 (Z.max (hgt l) (hgt r') + 1))).
      set (h2 := <[a := n2]> h2r).
      pose proof (hgt_le_length _ HO2) as Hhr'.
      pose proof (heights_ok_nonneg _ HO2) as Hr'0.
      pose proof (without_length x r) as Hwr. fold r' in Hwr.
      exists pa, h1, h2, (S k). split_and!.
      * done.
      * done.
      * done.
      * intros fuel. replace (S k + fuel)%nat with (k + S fuel)%nat by lia.
        rewrite Eclimb.
        rewrite (refresh_step h2r rt sz a n l r' fuel); [|done|done|congruence|done|done].
        done.
      * simpl. lia.
      * rewrite Hrr, <- Hl, <- Hr. fold n2. simpl. split_and!; try done.
        -- apply lookup_insert_eq.
        -- congruence.
        -- by apply repr_insert_ne.
        -- apply repr_insert_ne; [|done].
           intros Hb. by apply without_subset in Hb.
      * simpl. split_and!; [|done|done]. rewrite wrap64_small by lia. done.
      * simpl. by split_and!.
      * unfold h2. rewrite lookup_insert_ne by done. done.
      * intros b Hb. simpl in Hb. unfold h2.
        rewrite lookup_insert_ne by (intros ->; apply Hb; clear; set_solver).
        apply F2. clear -Hb. set_solver.
Qed.

Lemma without_lists h x nx t :
  repr h t → NoDup (addrs t) → heights_ok t →
  Z.of_nat (length (addrs t)) < 2 ^ 63 →
  x ∈ addrs t → h !! x = Some nx → left nx = None → right nx = None →
  ∃ (la lb : list addr) (xs ys : list T),
    addrs t = la ++ x :: lb ∧ values t = xs ++ data nx :: ys ∧
    length la = length xs ∧
    addrs (without x t) = la ++ lb ∧ values (without x t) = xs ++ ys.
Proof.
  induction t as [|a n l IHl r IHr]; intros R ND HO Hlen Hin Hx Hxl Hxr.
  { by apply elem_of_nil in Hin. }
  destruct R as (Ha & Hl & Hr & Rl & Rr).
  destruct HO as (Hn & HOl & HOr).
  assert ((a ∉ addrs l) ∧ (a ∉ addrs r) ∧ NoDup (addrs l) ∧ NoDup (addrs r) ∧
          (∀ b, b ∈ addrs l → b ∉ addrs r))
    as (Hal & Har & NDl & NDr & Hlr) by (split_nodup ND; set_solver).
  simpl in Hlen. rewrite length_app in Hlen. simpl in Hlen.
  simpl without. destruct (decide (a = x)) as [->|Hax].
  - assert (n = nx) as -> by congruence.
    destruct l; [|by rewrite Hxl in Hl]. destruct r; [|by rewrite Hxr in Hr].
    by exists [], [], [], [].
  - cbn zeta. simpl in Hin. apply elem_of_app in Hin as [Hin|Hin].
    + destruct (IHl Rl NDl HOl ltac:(lia) Hin Hx Hxl Hxr)
        as (la & lb & xs & ys & E1 & E2 & E3 & E4 & E5).
      rewrite (without_id h x r) by (done || lia || by apply Hlr).
      exists la, (lb ++ a :: addrs r), xs, (ys ++ data n :: values r).
      simpl. rewrite E1, E2, E4, E5. rewrite <- !app_assoc. done.
    + apply elem_of_cons in Hin as [->|Hin]; [done|].
      destruct (IHr Rr NDr HOr ltac:(lia) Hin Hx Hxl Hxr)
        as (la & lb & xs & ys & E1 & E2 & E3 & E4 & E5).
      rewrite (without_id h x l) by (done || lia || (intros Hb; by apply (Hlr x))).
      exists (addrs l ++ a :: la), lb, (values l ++ data n :: xs), ys.
      simpl. rewrite E1, E2, E4, E5. rewrite <- !app_assoc. simpl.
      split_and!; try done. rewrite !length_app. simpl.
      rewrite length_values. lia.
Qed.

(** X21. [remove(node)] of a leaf, in a tree whose height cache and parent
    back-references are right: the call returns, the leaf is unlinked from
    its parent and deleted, [size()] drops by one, the heights above it are
    computed anew, and what is left is again such a tree, whose in-order
    sequence is the old one without the removed node. *)
Theorem remove_leaf s t x nx :
  is_tree s t → parents_ok None t → heights_ok t →
  Z.of_nat (length (addrs t)) < 2 ^ 63 →
  x ∈ addrs t → heap s !! x = Some nx → left nx = None → right nx = None →
  ∃ s' t',
    remove_node (Some x) s = Some (tt, s') ∧
    is_tree s' t' ∧ parents_ok None t' ∧ heights_ok t' ∧
    tree_size s' = wrap64 (tree_size s - 1) ∧
    heap s' !! x = None ∧
    (∀ b, b ∉ addrs t → heap s' !! b = heap s !! b) ∧
    ∃ (la lb : list addr) (xs ys : list T),
      addrs t = la ++ x :: lb ∧ values t = xs ++ data nx :: ys ∧
      length la = length xs ∧
      addrs t' = la ++ lb ∧ values t' = xs ++ ys.
Proof.
  intros IT Hpo HO Hlen Hin Hx Hxl Hxr.
  pose proof (depth_in_budget _ _ IT) as Hfuel.
  destruct IT as (Hrt & R & ND). destruct s as [h rt sz].
  simpl in Hrt, R, Hx. subst rt. simpl tree_size. simpl heap.
  destruct (without_lists h x nx t R ND HO Hlen Hin Hx Hxl Hxr)
    as (la & lb & xs & ys & E1 & E2 & E3 & E4 & E5).
  assert ((x ∉ la ++ lb) ∧ NoDup (la ++ lb)) as [Hxab NDab].
  { rewrite E1 in ND. clear -ND. apply NoDup_app in ND as (N1 & N2 & N3).
    apply NoDup_cons in N3 as [N3 N4]. split.
    - intros Hb. apply elem_of_app in Hb as [Hb|Hb]; [|done].
      apply (N2 x Hb). apply elem_of_cons. by left.
    - apply NoDup_app. split_and!; [done| |done].
      intros b Hb Hb'. apply (N2 b Hb). apply elem_of_cons. by right. }
  destruct (decide (root_of t = Some x)) as [Hroot|Hroot].
  - destruct t as [|a n l r]; [done|]. simpl in Hroot. injection Hroot as ->.
    destruct R as (Ha & Hl & Hr & _ & _).
    assert (n = nx) as -> by congruence.
    destruct l; [|by rewrite Hxl in Hl]. destruct r; [|by rewrite Hxr in Hr].
    destruct Hpo as (Hp & _ & _).
    exists (mk_state (delete x h) None (wrap64 (sz - 1))), Leaf. split_and!.
    + unfold remove_node.
      eapply bind_Some; [reflexivity|].
      eapply bind_Some; [by apply get_left_Some|].
      eapply bind_Some; [by apply get_right_Some|].
      rewrite Hxl, Hxr.
      eapply bind_Some; [reflexivity|].
      eapply bind_Some; [reflexivity|].
      eapply bind_Some; [by apply get_left_Some|]. rewrite Hxl.
      rewrite decide_False by (intros H; by apply H).
      eapply bind_Some; [reflexivity|].
      eapply bind_Some; [by apply get_right_Some|]. rewrite Hxr.
      rewrite decide_False by (intros H; by apply H).
      eapply bind_Some; [reflexivity|].
      eapply bind_Some; [reflexivity|].
      eapply bind_Some.
      { unfold parent_relink. eapply bind_Some; [by apply get_parent_Some|].
        by rewrite Hp. }
      eapply bind_Some; [by apply get_parent_Some|]. rewrite Hp.
      eapply bind_Some; [reflexivity|].
      eapply bind_Some; [reflexivity|]. simpl.
      rewrite decide_True by done.
      eapply bind_Some; [reflexivity|]. by apply (free_Some _ _ _ _ nx).
    + split_and!; [done|done|]. simpl. apply NoDup_nil_2.
    + done.
    + done.
    + done.
    + simpl. apply lookup_delete_eq.
    + intros b Hb. simpl. rewrite lookup_delete_ne; [done|].
      intros ->. apply Hb. simpl. clear. set_solver.
    + exists la, lb, xs, ys. simpl in E4, E5.
      rewrite decide_True in E4, E5 by done. by split_and!.
  - destruct (refresh_above x nx t None h (root_of t) (wrap64 (sz - 1))
                R ND Hpo HO Hlen Hin Hroot Hx Hxl Hxr)
      as (pa & h1 & h2 & k & Hpx & Erel & Hx1 & Eclimb & Hk & R2 & HO2 & P2 & Hx2 & F2).
    assert (parent_refresh_height (budget (mk_state h (root_of t) sz)) (Some pa)
              (mk_state h1 (root_of t) (wrap64 (sz - 1)))
            = Some (tt, mk_state h2 (root_of t) (wrap64 (sz - 1)))) as Eref.
    { replace (budget (mk_state h (root_of t) sz))
        with (k + (budget (mk_state h (root_of t) sz) - k))%nat by lia.
      by rewrite Eclimb. }
    exists (mk_state (delete x h2) (root_of t) (wrap64 (sz - 1))), (without x t).
    split_and!.
    + unfold remove_node.
      eapply bind_Some; [reflexivity|].
      eapply bind_Some; [by apply get_left_Some|].
      eapply bind_Some; [by apply get_right_Some|].
      rewrite Hxl, Hxr.
      eapply bind_Some; [reflexivity|].
      eapply bind_Some; [reflexivity|].
      eapply bind_Some; [by apply get_left_Some|]. rewrite Hxl.
      rewrite decide_False by (intros H; by apply H).
      eapply bind_Some; [reflexivity|].
      eapply bind_Some; [by apply get_right_Some|]. rewrite Hxr.
      rewrite decide_False by (intros H; by apply H).
      eapply bind_Some; [reflexivity|].
      eapply bind_Some; [reflexivity|].
      eapply bind_Some; [exact Erel|].
      eapply bind_Some; [by apply get_parent_Some|]. rewrite Hpx.
      eapply bind_Some; [exact Eref|].
      eapply bind_Some; [reflexivity|]. simpl tree_root.
      rewrite decide_False by done.
      eapply bind_Some; [reflexivity|]. by apply (free_Some _ _ _ _ nx).
    + split_and!.
      * simpl. by rewrite without_root.
      * simpl. apply repr_delete_ne; [by rewrite E4|done].
      * by rewrite E4.
    + done.
    + done.
    + done.
    + simpl. apply lookup_delete_eq.
    + intros b Hb. simpl. rewrite lookup_delete_ne by (by intros ->).
      by apply F2.
    + exists la, lb, xs, ys. by split_and!.
Qed.

End RemoveLeaf.

(** ** One insertion into any search tree *)

Section InsertAny.

Context {T : Type}.
Variable compare : T → T → Z.
Implicit Types (h : gmap addr (node T)) (s : state T) (t : tree T) (c : tree_class).

(** X22. [insert(v)] of a value the tree does not hold, on any search tree
    with a right height cache (balanced, if it is an AVL tree), whatever built
    it: the call returns a search tree of the same kind holding the old
    values and [v], and the size and the node count have grown by one. *)
Theorem insert_keeps_search_tree c s t v :
  strict_total_order compare →
  is_tree s t → bst compare t → heights_ok t → (c = AvlTree → avl t) →
  Z.of_nat (length (addrs t)) < 2 ^ 63 - 1 →
  0 ≤ tree_size s < 2 ^ 64 - 1 →
  v ∉ values t →
  ∃ s' t',
    tree_insert c compare v s = Some (tt, s') ∧
    is_tree s' t' ∧ bst compare t' ∧ heights_ok t' ∧ (c = AvlTree → avl t') ∧
    (∀ y, y ∈ values t' ↔ y = v ∨ y ∈ values t) ∧
    tree_size s' = tree_size s + 1 ∧
    length (addrs t') = S (length (addrs t)).
Proof.
  intros O IT B HO A Hlen Hsz Hv. pose proof IT as (Hrt & R & ND).
  pose proof (hgt_le_length _ HO) as Hh.
  assert (¬ hits compare v t) as Hnh.
  { intros Hh'. apply Hv. by apply (pins_hits compare O). }
  destruct s as [h rt sz]. simpl in Hrt, R, Hsz. subst rt.
  set (x := fresh (dom h)).
  set (nx := mk_node v None None None 1).
  set (h0 := <[x := nx]> h).
  pose proof (fresh_not_in _ _ R) as Hx. fold x in Hx.
  assert (repr h0 t) as R0 by (by apply repr_insert_ne).
  assert (is_tree (mk_state h0 (root_of t) sz) t) as IT0 by done.
  pose proof (depth_in_budget _ _ IT0) as Hfuel.
  destruct (insert_at_spec compare c t _ h0 (root_of t) (wrap64 (sz + 1)) x nx
              R0 ND Hx (lookup_insert_eq _ _ _) ltac:(done) Hnh HO A ltac:(lia) Hfuel)
    as (h' & t' & E & Hne & R' & ND' & HO' & A' & Hg & Sub & Sup & F & V & Hxin & Hlen' & PO).
  change (data nx) with v in V.
  exists (mk_state h' (root_of t') (wrap64 (sz + 1))), t'. split_and!.
  - unfold tree_insert, binary_tree.insert.
    eapply bind_Some; [reflexivity|]. fold x nx h0.
    unfold binary_tree.insert_node.
    eapply bind_Some; [reflexivity|].
    eapply bind_Some; [reflexivity|]. simpl tree_root.
    eapply bind_Some; [exact E|]. done.
  - done.
  - apply sorted_bst; [done|]. rewrite V. by apply pins_sorted.
  - done.
  - intros Hc. by apply A'.
  - intros y. rewrite V. split.
    + apply elem_of_pins.
    + intros [->|Hy]; [by apply pins_elem|by apply values_pins].
  - simpl. apply wrap64_small. lia.
  - done.
Qed.

End InsertAny.

(** ** The hook and the lookup on any tree *)

Section HookFacts.

Context {T : Type}.
Implicit Types (h : gmap addr (node T)) (rt : ptr) (a b : addr) (sz : Z).
Implicit Types (t l r : tree T).

(** X23. On a node whose subtrees are AVL trees with right cached heights and
    differ in height by at most two, the taller one leaning outward or inward
    but not level when the difference is two (as after an insertion),
    [balance] returns the root of an AVL tree with right cached heights over
    the same nodes in the same in-order sequence, of the same height or one
    less, and it writes only nodes of that subtree. *)
Theorem balance_restores_avl h rt sz a n l r :
  let t := Bin a n l r in
  repr h t → NoDup (addrs t) → heights_ok t → avl l → avl r →
  hgt t < 2 ^ 63 →
  -2 ≤ hgt l - hgt r ≤ 2 →
  (hgt l - hgt r = 2 → skew l) →
  (hgt l - hgt r = -2 → skew r) →
  ∃ h' t' a',
    avl_tree.balance a (mk_state h rt sz) = Some (a', mk_state h' rt sz) ∧
    root_of t' = Some a' ∧ repr h' t' ∧ heights_ok t' ∧ avl t' ∧
    addrs t' = addrs t ∧ values t' = values t ∧
    (∀ b, b ∉ addrs t → h' !! b = h !! b) ∧
    (hgt t' = hgt t ∨ hgt t' = hgt t - 1).
Proof.
  intros t R ND HO Al Ar Hmax Hnear Hsl Hsr.
  destruct (balance_repr h rt sz a n l r R ND HO Al Ar Hmax Hnear Hsl Hsr)
    as (h' & t' & a' & E & Hrt & R' & HO' & A' & Had & Hval & F & Hcase).
  exists h', t', a'. split_and!; try done.
  destruct Hcase as [(_ & -> & _)|(_ & ?)]; [by left|by right].
Qed.

End HookFacts.

Section Lookup.

Context {T : Type}.
Variable compare : T → T → Z.
Implicit Types (h : gmap addr (node T)) (s : state T) (t : tree T).

Import binary_tree.

(** X24. On any search tree, with a strict-total-order comparator, [find]
    returns for a value the tree holds a node of the tree that holds it, and
    changes nothing. *)
Theorem find_present s t v :
  strict_total_order compare → is_tree s t → bst compare t →
  v ∈ values t →
  ∃ a n,
    find compare (budget s) (tree_root s) v s = Some (Some a, s) ∧
    in_tree (heap s) (tree_root s) a ∧
    heap s !! a = Some n ∧ data n = v.
Proof.
  intros O IT B Hv. pose proof (depth_in_budget _ _ IT) as Hfuel.
  destruct IT as (Hrt & R & ND). destruct s as [h rt sz]. simpl in Hrt, R. subst rt.
  destruct (find_hits compare t _ h (root_of t) sz v R Hfuel) as (a & n & E & Hin & Ha & Hc).
  { by apply present_hits. }
  exists a, n. simpl. split_and!; [done|by apply addrs_in_tree|done|].
  by apply (cmp_eq _ O).
Qed.

End Lookup.

(** ** What the rotations keep *)

Section RotationFacts.

Context {T : Type}.
Implicit Types (h : gmap addr (node T)) (rt : ptr) (a b c : addr) (sz : Z).
Implicit Types (t tl tm tr : tree T).

Import binary_tree avl_tree.

(** X17. [rr_rotate] on a node with a right child, in a tree-shaped part of
    the heap: it returns the right child, the in-order sequence of nodes and
    of values below the returned node is the one below the old root, and only
    the two rotated cells are written. *)
Theorem rr_rotate_keeps_inorder h rt sz a na tl b nb tm tr :
  let t := Bin a na tl (Bin b nb tm tr) in
  repr h t → NoDup (addrs t) →
  ∃ h' t',
    rr_rotate a (mk_state h rt sz) = Some (b, mk_state h' rt sz) ∧
    repr h' t' ∧ root_of t' = Some b ∧
    addrs t' = addrs t ∧ values t' = values t ∧
    (∀ d, d ≠ a → d ≠ b → h' !! d = h !! d).
Proof.
  intros t R ND.
  destruct (rr_rotate_repr h rt sz a na tl b nb tm tr R ND)
    as (h' & na' & nb' & E & R' & _ & _ & Da & Db & F).
  exists h', (Bin b nb' (Bin a na' tl tm) tr). split_and!; try done.
  - simpl. by rewrite <- app_assoc.
  - simpl. rewrite Da, Db. by rewrite <- app_assoc.
Qed.

(** X18. [ll_rotate] on a node with a left child: it returns the left
    child, keeps the in-order sequence of nodes and of values, and writes only
    the two rotated cells. *)
Theorem ll_rotate_keeps_inorder h rt sz a na b nb tl tm tr :
  let t := Bin a na (Bin b nb tl tm) tr in
  repr h t → NoDup (addrs t) →
  ∃ h' t',
    ll_rotate a (mk_state h rt sz) = Some (b, mk_state h' rt sz) ∧
    repr h' t' ∧ root_of t' = Some b ∧
    addrs t' = addrs t ∧ values t' = values t ∧
    (∀ d, d ≠ a → d ≠ b → h' !! d = h !! d).
Proof.
  intros t R ND.
  destruct (ll_rotate_repr h rt sz a na b nb tl tm tr R ND)
    as (h' & na' & nb' & E & R' & _ & _ & Da & Db & F).
  exists h', (Bin b nb' tl (Bin a na' tm tr)). split_and!; try done.
  - simpl. by rewrite <- app_assoc.
  - simpl. rewrite Da, Db. by rewrite <- app_assoc.
Qed.

(** X19. [lr_rotate] on a node whose left child has a right child: it
    returns that grandchild, keeps the in-order sequence of nodes and of
    values, and writes only the three rotated cells. *)
Theorem lr_rotate_keeps_inorder h rt sz a na b nb c nc tl tm1 tm2 tr :
  let t := Bin a na (Bin b nb tl (Bin c nc tm1 tm2)) tr in
  repr h t → NoDup (addrs t) →
  ∃ h' t',
    lr_rotate a (mk_state h rt sz) = Some (c, mk_state h' rt sz) ∧
    repr h' t' ∧ root_of t' = Some c ∧
    addrs t' = addrs t ∧ values t' = values t ∧
    (∀ d, d ≠ a → d ≠ b → d ≠ c → h' !! d = h !! d).
Proof.
  intros t R ND.
  destruct (lr_rotate_repr h rt sz a na b nb c nc tl tm1 tm2 tr R ND)
    as (h' & na' & nb' & nc' & E & R' & _ & _ & _ & Da & Db & Dc & F).
  exists h', (Bin c nc' (Bin b nb' tl tm1) (Bin a na' tm2 tr)). split_and!; try done.
  - simpl. by repeat (rewrite <- app_assoc; simpl).
  - simpl. rewrite Da, Db, Dc. by repeat (rewrite <- app_assoc; simpl).
Qed.

(** X20. [rl_rotate] on a node whose right child has a left child: it
    returns that grandchild, keeps the in-order sequence of nodes and of
    values, and writes only the three rotated cells. *)
Theorem rl_rotate_keeps_inorder h rt sz a na b nb c nc tl tm1 tm2 tr :
  let t := Bin a na tl (Bin b nb (Bin c nc tm1 tm2) tr) in
  repr h t → NoDup (addrs t) →
  ∃ h' t',
    rl_rotate a (mk_state h rt sz) = Some (c, mk_state h' rt sz) ∧
    repr h' t' ∧ root_of t' = Some c ∧
    addrs t' = addrs t ∧ values t' = values t ∧
    (∀ d, d ≠ a → d ≠ b → d ≠ c → h' !! d = h !! d).
Proof.
  intros t R ND.
  destruct (rl_rotate_repr h rt sz a na b nb c nc tl tm1 tm2 tr R ND)
    as (h' & na' & nb' & nc' & E & R' & _ & _ & _ & Da & Db & Dc & F).
  exists h', (Bin c nc' (Bin a na' tl tm1) (Bin b nb' tm2 tr)). split_and!; try done.
  - simpl. by repeat (rewrite <- app_assoc; simpl).
  - simpl. rewrite Da, Db, Dc. by repeat (rewrite <- app_assoc; simpl).
Qed.

End RotationFacts.

(** ** [split] and the fields of a line *)

Section Split.

Import utils.

Variable delim : list ascii.
Implicit Types (s buf pre rest cur tok : list ascii).

Lemma char_at_app pre rest k : char_at (pre ++ rest) (length pre + k) = char_at rest k.
Proof. unfold char_at. by rewrite app_nth2_plus. Qed.

Lemma char_at_app0 pre rest : char_at (pre ++ rest) (length pre) = char_at rest 0.
Proof. rewrite <- (char_at_app pre rest 0). f_equal. lia. Qed.

Lemma char_at_0 s : char_at s 0 = nul ↔ ended s.
Proof. by destruct s. Qed.

Lemma strspn_split s :
  ∃ skip s', s = skip ++ s' ∧ strspn s delim = length skip ∧
    Forall (λ c, c ≠ nul ∧ c ∈ delim) skip ∧
    match s' with [] => True | c :: _ => c = nul ∨ c ∉ delim end.
Proof.
  induction s as [|c s IH]; simpl.
  - exists [], []. by split_and!.
  - case_bool_decide as Hc.
    + destruct IH as (skip & s' & -> & -> & Hall & Hhd).
      exists (c :: skip), s'. split_and!; try done. by constructor.
    + exists [], (c :: s). split_and!; try done.
      destruct (decide (c = nul)); [by left|right]. intros ?. by apply Hc.
Qed.

Lemma strcspn_split s reject :
  ∃ tok s', s = tok ++ s' ∧ strcspn s reject = length tok ∧
    Forall (plain reject) tok ∧
    match s' with [] => True | c :: _ => c = nul ∨ c ∈ reject end.
Proof.
  induction s as [|c s IH]; simpl.
  - exists [], []. by split_and!.
  - case_bool_decide as Hc.
    + exists [], (c :: s). by split_and!.
    + destruct IH as (tok & s' & -> & -> & Hall & Hhd).
      exists (c :: tok), s'. split_and!; try done. constructor; [|done].
      split; intros ?; apply Hc; [by left|by right].
Qed.

Lemma strcspn_token tok s reject :
  Forall (plain reject) tok →
  match s with [] => True | c :: _ => c = nul ∨ c ∈ reject end →
  strcspn (tok ++ s) reject = length tok.
Proof.
  intros Hall Hs. induction Hall as [|c tok [Hc1 Hc2] Hall IH]; simpl.
  - destruct s as [|c s]; [done|]. simpl. by rewrite bool_decide_true.
  - rewrite bool_decide_false; [by rewrite IH|]. intros [?|?]; done.
Qed.

Lemma plain_nil tok : Forall (plain delim) tok → Forall (plain []) tok.
Proof.
  intros H. eapply Forall_impl; [exact H|].
  intros c [Hc _]. split; [done|]. by intros ?%elem_of_nil.
Qed.

Lemma string_at_token pre tok s :
  Forall (plain delim) tok → ended s →
  string_at (pre ++ tok ++ s) (length pre) = tok.
Proof.
  intros Hall Hs. unfold string_at. rewrite drop_app_length.
  rewrite strcspn_token; [by rewrite take_app_length|by apply plain_nil|].
  destruct s; [done|]. by left.
Qed.

Lemma fields_ended s cur :
  ended s → fields delim s cur = if cur is [] then [] else [cur].
Proof. destruct s as [|c s]; [done|]. simpl. intros ->. by rewrite bool_decide_true. Qed.

Lemma fields_skip skip s :
  Forall (λ c, c ≠ nul ∧ c ∈ delim) skip →
  fields delim (skip ++ s) [] = fields delim s [].
Proof.
  induction 1 as [|c skip [Hc1 Hc2] _ IH]; [done|]. simpl.
  rewrite bool_decide_false by done. by rewrite bool_decide_true.
Qed.

Lemma fields_run tok s cur :
  Forall (plain delim) tok →
  fields delim (tok ++ s) cur = fields delim s (cur ++ tok).
Proof.
  intros Hall. revert cur. induction Hall as [|c tok [Hc1 Hc2] _ IH]; intros cur.
  - by rewrite app_nil_r.
  - simpl. rewrite !bool_decide_false by done. rewrite IH.
    by rewrite <- app_assoc.
Qed.

Lemma fields_delim c s cur :
  c ≠ nul → c ∈ delim → cur ≠ [] →
  fields delim (c :: s) cur = cur :: fields delim s [].
Proof.
  intros Hc1 Hc2 Hcur. simpl. rewrite bool_decide_false by done.
  rewrite bool_decide_true by done. by destruct cur.
Qed.

Lemma overwritten_refl buf : overwritten delim buf buf.
Proof. apply Forall2_same_length_lookup. split; [done|]. intros i c c' ? ?. left. congruence. Qed.

Lemma overwritten_trans b1 b2 b3 :
  overwritten delim b1 b2 → overwritten delim b2 b3 → overwritten delim b1 b3.
Proof.
  unfold overwritten. intros H12. revert b3.
  induction H12 as [|c1 c2 b1 b2 Hc H12 IH]; intros b3 H23.
  - by inversion H23.
  - inversion H23 as [|? c3 ? b3' Hc' H23']; subst. constructor; [|by apply IH].
    destruct Hc' as [->|(-> & Hn & Hd)]; [done|].
    destruct Hc as [->|(-> & ? & ?)]; [by right|done].
Qed.

Lemma overwritten_here pre c s :
  c ≠ nul → c ∈ delim →
  overwritten delim (pre ++ c :: s) (pre ++ nul :: s).
Proof.
  intros Hc1 Hc2. apply Forall2_app; [apply overwritten_refl|].
  constructor; [by right|apply overwritten_refl].
Qed.

Lemma split_from_fields fuel : ∀ pre rest values,
  (length rest < fuel)%nat →
  ∃ buf',
    split_from fuel (pre ++ rest) (length pre) delim values
      = Some (values ++ fields delim rest [], buf') ∧
    overwritten delim (pre ++ rest) buf'.
Proof.
  induction fuel as [|fuel IH]; intros pre rest values Hfuel; [lia|].
  simpl. unfold strtok_r.
  rewrite char_at_app0. rewrite drop_app_length.
  case_bool_decide as H0.
  { apply char_at_0 in H0. exists (pre ++ rest).
    rewrite fields_ended, app_nil_r by done. split; [done|apply overwritten_refl]. }
  destruct (strspn_split rest) as (skip & rest1 & -> & -> & Hskip & Hhd1).
  rewrite char_at_app, char_at_app0. rewrite fields_skip by done.
  case_bool_decide as H1.
  { apply char_at_0 in H1. exists (pre ++ skip ++ rest1).
    rewrite fields_ended, app_nil_r by done. split; [done|apply overwritten_refl]. }
  rewrite (app_assoc pre skip rest1).
  replace (length pre + length skip)%nat with (length (pre ++ skip)) by by rewrite length_app.
  rewrite drop_app_length.
  destruct (strcspn_split rest1 delim) as (tok & rest2 & -> & -> & Htok & Hhd2).
  assert (tok ≠ []) as Hne.
  { intros ->. simpl in *. destruct rest2 as [|c r2]; [by apply H1|].
    destruct Hhd2 as [->|Hd]; [by apply H1|]. destruct Hhd1; [by apply H1|done]. }
  rewrite char_at_app, char_at_app0. rewrite fields_run by done. simpl app at 3.
  rewrite !length_app in Hfuel.
  assert (0 < length tok)%nat as Hlt by (destruct tok; [done|simpl; lia]).
  case_bool_decide as H2.
  { apply char_at_0 in H2.
    rewrite string_at_token by done.
    replace (length (pre ++ skip) + length tok)%nat
      with (length ((pre ++ skip) ++ tok)) by by rewrite length_app.
    rewrite (app_assoc (pre ++ skip) tok rest2).
    destruct (IH ((pre ++ skip) ++ tok) rest2 (values ++ [tok]) ltac:(lia))
      as (buf' & E & Hov).
    exists buf'. split; [|done].
    rewrite E. rewrite !(fields_ended rest2) by done.
    rewrite app_nil_r. by destruct tok. }
  destruct rest2 as [|d rest3]; [done|].
  assert (d ≠ nul) as Hd1 by (intros ->; by apply H2).
  assert (d ∈ delim) as Hd2 by (by destruct Hhd2).
  assert (<[(length (pre ++ skip) + length tok)%nat := nul]>
            ((pre ++ skip) ++ tok ++ d :: rest3)
          = (pre ++ skip) ++ tok ++ nul :: rest3) as ->.
  { rewrite insert_app_r. f_equal.
    replace (length tok) with (length tok + 0)%nat at 1 by lia.
    by rewrite insert_app_r. }
  rewrite string_at_token; [|done|done].
  replace (S (length (pre ++ skip) + length tok))
    with (length (((pre ++ skip) ++ tok) ++ [nul]))
    by (rewrite !length_app; simpl; lia).
  replace ((pre ++ skip) ++ tok ++ nul :: rest3)
    with ((((pre ++ skip) ++ tok) ++ [nul]) ++ rest3)
    by (by rewrite <- !app_assoc).
  simpl length in Hfuel.
  destruct (IH (((pre ++ skip) ++ tok) ++ [nul]) rest3 (values ++ [tok]) ltac:(lia))
    as (buf' & E & Hov).
  exists buf'. split.
  - rewrite E. rewrite fields_delim by done. by rewrite <- app_assoc.
  - eapply overwritten_trans; [|exact Hov].
    replace ((((pre ++ skip) ++ tok) ++ [nul]) ++ rest3)
      with (((pre ++ skip) ++ tok) ++ nul :: rest3) by (by rewrite <- !app_assoc).
    rewrite (app_assoc (pre ++ skip) tok (d :: rest3)).
    by apply overwritten_here.
Qed.

End Split.

Section SplitFacts.

Import utils.

Variable delim : list ascii.
Implicit Types (s buf pre rest cur tok : list ascii) (vs : list (list ascii)).

Lemma fields_clean s : ∀ cur,
  Forall (plain delim) cur →
  Forall (λ v, v ≠ [] ∧ Forall (plain delim) v) (fields delim s cur).
Proof.
  induction s as [|c s IH]; intros cur Hcur; simpl.
  - destruct cur; [constructor|]. constructor; [done|constructor].
  - case_bool_decide as H0.
    { destruct cur; [constructor|]. constructor; [done|constructor]. }
    case_bool_decide as H1.
    + destruct cur as [|c0 cur]; [by apply IH|].
      constructor; [done|]. by apply IH.
    + apply IH. apply Forall_app. split; [done|].
      constructor; [done|constructor].
Qed.

(** X14. [split] returns for every input and every delimiter set; none of the
    strings it returns is empty or contains a delimiter or a terminator; and
    the buffer of its [const] argument keeps its length but may have
    delimiters overwritten by terminators, nothing else. *)
Theorem split_tokens input :
  ∃ values input',
    split input delim = Some (values, input') ∧
    Forall (λ v, v ≠ [] ∧ Forall (plain delim) v) values ∧
    overwritten delim input input'.
Proof.
  destruct (split_from_fields delim (S (length input)) [] input [] ltac:(lia))
    as (buf' & E & Hov).
  exists (fields delim input []), buf'. split_and!; [done| |done].
  apply fields_clean. constructor.
Qed.

Lemma fields_joined d vs s :
  d ≠ nul → d ∈ delim → Forall (Forall (plain delim)) vs →
  fields delim (concat ((λ v, v ++ [d]) <$> vs) ++ s) []
  = filter (λ v, v ≠ []) vs ++ fields delim s [].
Proof.
  intros Hd1 Hd2 Hvs. induction Hvs as [|v vs Hv _ IH]; [done|].
  cbn [fmap list_fmap concat]. rewrite <- !app_assoc.
  rewrite fields_run by done. cbn [app].
  destruct v as [|c v].
  - assert (fields delim (d :: concat ((λ v, v ++ [d]) <$> vs) ++ s) []
            = fields delim (concat ((λ v, v ++ [d]) <$> vs) ++ s) []) as ->
      by (apply (fields_skip delim [d]); constructor; [done|constructor]).
    rewrite filter_cons_False by (by intros ?). exact IH.
  - rewrite fields_delim by done. rewrite filter_cons_True by done.
    cbn [app]. by rewrite IH.
Qed.

(** X15. Join, then split: when no value contains a delimiter or a
    terminator, splitting the values written one after the other, each
    followed by the delimiter [d], gives the values back in order, the empty
    ones dropped. *)
Theorem split_join d vs :
  d ≠ nul → d ∈ delim → Forall (Forall (plain delim)) vs →
  ∃ input',
    split (concat ((λ v, v ++ [d]) <$> vs)) delim
      = Some (filter (λ v, v ≠ []) vs, input').
Proof.
  intros Hd1 Hd2 Hvs.
  set (input := concat ((λ v, v ++ [d]) <$> vs)).
  destruct (split_from_fields delim (S (length input)) [] input [] ltac:(lia))
    as (buf' & E & Hov).
  exists buf'. unfold split. change (length (@nil ascii)) with O in E. cbn [app] in E. rewrite E. f_equal. f_equal.
  unfold input. rewrite <- (app_nil_r (concat _)).
  rewrite fields_joined by done. simpl. by rewrite app_nil_r.
Qed.

End SplitFacts.

(** ** A row through the CSV writer and reader *)

Section Csv.

Import utils csv_writer csv_reader.

Lemma foldl_put row : ∀ w,
  foldl (λ w v, put v w) w row
  = {| line := line w ++ concat ((λ v, v ++ [comma]) <$> row); file := file w |}.
Proof.
  induction row as [|v row IH]; intros w; simpl.
  - rewrite app_nil_r. by destruct w.
  - rewrite IH. simpl. by rewrite <- !app_assoc.
Qed.

Lemma getline_line l rest :
  Forall (λ c, c ≠ newline) l →
  getline (l ++ newline :: rest) = (l, rest).
Proof.
  induction 1 as [|c l Hc _ IH]; simpl.
  - by rewrite ?bool_decide_true.
  - rewrite bool_decide_false by done. by rewrite IH.
Qed.

Lemma csv_plain_plain v : Forall csv_plain v → Forall (plain [comma]) v.
Proof.
  intros H. eapply Forall_impl; [exact H|]. intros c (H1 & H2 & H3).
  split; [done|]. intros Hin. apply elem_of_cons in Hin as [->|Hin%elem_of_nil]; done.
Qed.

Lemma joined_no_newline row :
  Forall (Forall csv_plain) row →
  Forall (λ c, c ≠ newline) (concat ((λ v, v ++ [comma]) <$> row)).
Proof.
  induction 1 as [|v row Hv _ IH]; simpl; [constructor|].
  rewrite <- app_assoc. apply Forall_app. split.
  - eapply Forall_impl; [exact Hv|]. by intros c (_ & _ & ?).
  - simpl. constructor; [done|exact IH].
Qed.

(** X16. Write a row, then read it: when the writer's line buffer is empty
    and no value contains a comma, a newline or a terminator, writing the
    values and [endl] appends one line to the file and empties the buffer
    again, and [read_row] at that line returns [true], the values in order
    with the empty ones dropped, and leaves what follows the line unread. *)
Theorem csv_row_round_trip w row rest :
  line w = [] → Forall (Forall csv_plain) row →
  ∃ text,
    put_row row w = {| line := []; file := file w ++ text |} ∧
    read_row (text ++ rest) = Some (Some (filter (λ v, v ≠ []) row), rest).
Proof.
  intros Hline Hrow. unfold put_row. rewrite foldl_put. rewrite Hline. simpl app.
  set (l := concat ((λ v, v ++ [comma]) <$> row)).
  pose proof (joined_no_newline row Hrow) as Hnl. fold l in Hnl.
  assert (Forall (Forall (plain [comma])) row) as Hpl.
  { eapply Forall_impl; [exact Hrow|]. apply csv_plain_plain. }
  assert (comma ≠ nul) as Hc by done.
  assert (comma ∈ [comma]) as Hin by (apply elem_of_cons; by left).
  unfold endl. simpl line. simpl file.
  case_bool_decide as Hlen.
  - exists (take (length l - 1) l ++ [newline]). split; [done|].
    unfold read_row, read_line.
    assert (Forall (λ c, c ≠ newline) (take (length l - 1) l)) as Hnl'
      by (by apply Forall_take).
    rewrite <- app_assoc. simpl.
    pose proof (getline_line _ rest Hnl') as Eg.
    destruct (take (length l - 1) l ++ newline :: rest) as [|c0 r0] eqn:El0.
    { by destruct (take (length l - 1) l). }
    rewrite Eg.
    (* the line is the joined row without its last comma *)
    assert (∃ vs v, row = vs ++ [v]) as (vs & v & ->).
    { destruct row as [|v0 row0] using rev_ind; [done|]. by eexists _, _. }
    unfold l. rewrite fmap_app, concat_app. simpl. rewrite app_nil_r.
    rewrite app_assoc. rewrite length_app. simpl length.
    replace (length (concat ((λ v0, v0 ++ [comma]) <$> vs) ++ v) + 1 - 1)%nat
      with (length (concat ((λ v0, v0 ++ [comma]) <$> vs) ++ v)) by lia.
    rewrite take_app_length.
    apply Forall_app in Hpl as [Hvs Hv]. apply Forall_cons in Hv as [Hv _].
    destruct (split_from_fields [comma]
                (S (length (concat ((λ v0, v0 ++ [comma]) <$> vs) ++ v))) []
                (concat ((λ v0, v0 ++ [comma]) <$> vs) ++ v) [] ltac:(lia))
      as (buf' & E & _).
    unfold split. change (length (@nil ascii)) with O in E. cbn [app] in E. rewrite E. simpl. f_equal. f_equal. f_equal.
    rewrite (fields_joined [comma] comma vs v) by done.
    rewrite filter_app. f_equal.
    rewrite <- (app_nil_r v) at 1. rewrite fields_run by done. simpl.
    destruct v; [by rewrite filter_cons_False by (by intros ?)|].
    by rewrite filter_cons_True by done.
  - assert (l = []) as Hl by (destruct l; [done|simpl in Hlen; lia]).
    assert (row = []) as ->.
    { destruct row as [|v row]; [done|]. unfold l in Hl. simpl in Hl.
      by destruct v. }
    exists [newline]. rewrite Hl. split; [done|].
    unfold read_row, read_line. simpl. by rewrite ?bool_decide_true by done.
Qed.

End Csv.


(** The four rotation scenarios. *)
Example scenario_rr :
  ∃ s, exec AvlTree default_compare [Insert 10; Insert 20; Insert 30] = Some s ∧ rotated s.
Proof.
  eexists. split; [vm_compute; reflexivity|].
  eexists. split; [reflexivity|]. by vm_compute.
Qed.

Example scenario_ll :
  ∃ s, exec AvlTree default_compare [Insert 30; Insert 20; Insert 10] = Some s ∧ rotated s.
Proof.
  eexists. split; [vm_compute; reflexivity|].
  eexists. split; [reflexivity|]. by vm_compute.
Qed.

Example scenario_lr :
  ∃ s, exec AvlTree default_compare [Insert 30; Insert 10; Insert 20] = Some s ∧ rotated s.
Proof.
  eexists. split; [vm_compute; reflexivity|].
  eexists. split; [reflexivity|]. by vm_compute.
Qed.

Example scenario_rl :
  ∃ s, exec AvlTree default_compare [Insert 10; Insert 30; Insert 20] = Some s ∧ rotated s.
Proof.
  eexists. split; [vm_compute; reflexivity|].
  eexists. split; [reflexivity|]. by vm_compute.
Qed.

(** C1, on a failing input. In a plain [binary_tree], after inserting 2, 1, 4,
    3 the removal of 2 promotes 3 and leaves it as the left child of its own
    right child 4: the ordering invariant fails and an in-order traversal
    never returns. *)
Theorem remove_two_children_breaks_order :
  ∃ s, exec BinaryTree default_compare [Insert 2; Insert 1; Insert 4; Insert 3; Remove 2]
       = Some s ∧
    ¬ ordered default_compare s ∧
    ∀ fuel, traverse fuel (heap s) (tree_root s) = None.
Proof.
  eexists. split; [vm_compute; reflexivity|]. simpl tree_root. simpl heap.
  match goal with |- context [traverse _ ?X _] => set (h := X) end.
  assert (h !! 4%positive = Some (cell 3 None (Some 2%positive) (Some 3%positive) 3)) as H4
    by reflexivity.
  assert (h !! 3%positive = Some (cell 4 (Some 1%positive) (Some 4%positive) None 2)) as H3
    by reflexivity.
  split.
  - intros Hord.
    assert (in_tree h (Some 4%positive) 3%positive) as Hin.
    { eapply in_tree_right; [exact H4|]. eapply in_tree_here. exact H3. }
    destruct (Hord 3%positive _ (conj Hin H3)) as [Hl _].
    specialize (Hl 3%positive _ Hin H3). vm_compute in Hl. done.
  - by apply (traverse_cycle h 4%positive 3%positive _ _ H4 eq_refl H3).
Qed.

(** C3, on its scenario. After inserting 1..7 into an AVL tree, removing 4
    brings [size()] from 7 to 6 and makes 5 the root, but 5 stays the left
    child of 6 while 6 is the right child of 5: the ordering invariant fails
    and the in-order traversal never returns. *)
Theorem remove_4_of_1_to_7 :
  ∃ s0 s n5 n6,
    exec AvlTree default_compare (Insert <$> [1; 2; 3; 4; 5; 6; 7]) = Some s0 ∧
    traverse (binary_tree.budget s0) (heap s0) (tree_root s0) = Some [1; 2; 3; 4; 5; 6; 7] ∧
    tree_size s0 = 7 ∧
    binary_tree.remove default_compare 4 s0 = Some (tt, s) ∧
    tree_size s = 6 ∧
    tree_root s = Some 5%positive ∧
    heap s !! 5%positive = Some n5 ∧ data n5 = 5 ∧ right n5 = Some 6%positive ∧
    heap s !! 6%positive = Some n6 ∧ data n6 = 6 ∧ left n6 = Some 5%positive ∧
    ¬ ordered default_compare s ∧
    ∀ fuel, traverse fuel (heap s) (tree_root s) = None.
Proof.
  eexists _, _, (cell 5 (Some 3%positive) (Some 2%positive) (Some 6%positive) 3),
    (cell 6 (Some 5%positive) (Some 5%positive) (Some 7%positive) 2).
  split; [vm_compute; reflexivity|].
  split; [vm_compute; reflexivity|].
  split; [reflexivity|].
  split; [vm_compute; reflexivity|].
  simpl tree_size. simpl tree_root. simpl heap.
  match goal with |- context [traverse _ ?X _] => set (h := X) end.
  assert (h !! 5%positive =
          Some (cell 5 (Some 3%positive) (Some 2%positive) (Some 6%positive) 3)) as H5
    by reflexivity.
  assert (h !! 6%positive =
          Some (cell 6 (Some 5%positive) (Some 5%positive) (Some 7%positive) 2)) as H6
    by reflexivity.
  split_and!; try done.
  - intros Hord.
    assert (in_tree h (Some 5%positive) 6%positive) as Hin.
    { eapply in_tree_right; [exact H5|]. eapply in_tree_here. exact H6. }
    destruct (Hord 6%positive _ (conj Hin H6)) as [Hl _].
    specialize (Hl 6%positive _ Hin H6). vm_compute in Hl. done.
  - by apply (traverse_cycle h 5%positive 6%positive _ _ H5 eq_refl H6).
Qed.

(** C4, on a failing input. In an AVL tree, after inserting 1, 2, 3, 0 and
    removing 0, the root keeps the cached height 3 over two children of
    height 1. *)
Theorem avl_remove_leaves_stale_height :
  ∃ s n,
    exec AvlTree default_compare [Insert 1; Insert 2; Insert 3; Insert 0; Remove 0] = Some s ∧
    node_of s 2%positive n ∧
    height n = 3 ∧
    cached_height (heap s) (left n) = 1 ∧ cached_height (heap s) (right n) = 1 ∧
    ¬ heights_cached s.
Proof.
  eexists _, (cell 2 (Some 1%positive) (Some 1%positive) (Some 3%positive) 3).
  split; [vm_compute; reflexivity|].
  assert (∀ (s : state Z) n, heap s !! 2%positive = Some n → tree_root s = Some 2%positive →
            node_of s 2%positive n) as Hnode.
  { intros s n Hn Hrt. split; [|done]. rewrite Hrt. by eapply in_tree_here. }
  split; [by apply Hnode|].
  split; [reflexivity|]. split; [reflexivity|]. split; [reflexivity|].
  intros Hc.
  match type of Hc with
  | heights_cached ?S =>
    assert (node_of S 2%positive
              (cell 2 (Some 1%positive) (Some 1%positive) (Some 3%positive) 3)) as Hn
      by (by apply Hnode)
  end.
  specialize (Hc _ _ Hn). vm_compute in Hc. done.
Qed.

(** C5, on a failing input. After inserting 10, 20, 30 into an AVL tree the
    root is the node of 20 and its [parent] still points to the node of
    10. *)
Theorem avl_rotation_leaves_stale_parent :
  ∃ s n,
    exec AvlTree default_compare [Insert 10; Insert 20; Insert 30] = Some s ∧
    tree_root s = Some 2%positive ∧
    node_of s 2%positive n ∧ data n = 20 ∧ parent n = Some 1%positive ∧
    ¬ parents_correct s.
Proof.
  eexists _, (cell 20 (Some 1%positive) (Some 1%positive) (Some 3%positive) 2).
  split; [vm_compute; reflexivity|].
  split; [reflexivity|].
  assert (∀ (s : state Z) n, heap s !! 2%positive = Some n → tree_root s = Some 2%positive →
            node_of s 2%positive n) as Hnode.
  { intros s n Hn Hrt. split; [|done]. rewrite Hrt. by eapply in_tree_here. }
  split; [by apply Hnode|].
  split; [reflexivity|]. split; [reflexivity|].
  intros Hc.
  match type of Hc with
  | parents_correct ?S =>
    assert (node_of S 2%positive
              (cell 20 (Some 1%positive) (Some 1%positive) (Some 3%positive) 2)) as Hn
      by (by apply Hnode)
  end.
  destruct (Hc _ _ Hn) as [_ Hroot].
  specialize (Hroot eq_refl). done.
Qed.

(** C6, on a failing input. In a plain [binary_tree] holding 1, 3, 2 (inserted
    in that order), node 1 has a right child only; removing it promotes 3 and
    clears the left link of 3, so 2 is gone from the tree while [size()] says
    2. *)
Theorem remove_one_child_drops_subtree :
  ∃ s0 s n1,
    exec BinaryTree default_compare [Insert 1; Insert 3; Insert 2] = Some s0 ∧
    traverse (binary_tree.budget s0) (heap s0) (tree_root s0) = Some [1; 2; 3] ∧
    tree_size s0 = 3 ∧
    heap s0 !! 1%positive = Some n1 ∧ data n1 = 1 ∧
    left n1 = None ∧ right n1 = Some 2%positive ∧
    binary_tree.remove default_compare 1 s0 = Some (tt, s) ∧
    tree_size s = 2 ∧
    traverse (binary_tree.budget s) (heap s) (tree_root s) = Some [3].
Proof.
  eexists _, _, (cell 1 None None (Some 2%positive) 3).
  split; [vm_compute; reflexivity|].
  split; [vm_compute; reflexivity|].
  split; [reflexivity|].
  split; [reflexivity|].
  split; [reflexivity|]. split; [reflexivity|]. split; [reflexivity|].
  split; [vm_compute; reflexivity|].
  split; [reflexivity|].
  vm_compute. reflexivity.
Qed.

(** C7. Inserting 10 into the tree that holds 10, in either class: the node
    made for the second 10 is deleted when it has compared equal to the root,
    and the next statement of [insert], [node->parent = root], stores into
    the node just deleted.  The call goes wrong on that store. *)
Theorem insert_equal_writes_deleted_node :
  ∃ s r nd s1 s2,
    exec AvlTree default_compare [Insert 10] = Some s ∧
    exec BinaryTree default_compare [Insert 10] = Some s ∧
    tree_root s = Some r ∧
    binary_tree.new_node 10 s = Some (nd, s1) ∧
    binary_tree.free nd s1 = Some (tt, s2) ∧
    heap s2 !! nd = None ∧
    binary_tree.set_parent nd (Some r) s2 = None ∧
    tree_insert AvlTree default_compare 10 s = None ∧
    tree_insert BinaryTree default_compare 10 s = None.
Proof.
  eexists _, _, _, _, _.
  split; [vm_compute; reflexivity|].
  split; [vm_compute; reflexivity|].
  split; [reflexivity|].
  split; [vm_compute; reflexivity|].
  split; [vm_compute; reflexivity|].
  split_and!; vm_compute; reflexivity.
Qed.

(** C8 as stated fails: in the AVL tree built by inserting 2, 1, 4, 3, 5 and
    removing 1, the root has balance factor -2 and its right child balance
    factor 0, not negative; the hook performs RR, and RL gives another
    result. *)
Lemma balance_even_right_child_is_rr :
  ∃ s,
    exec AvlTree default_compare
      [Insert 2; Insert 1; Insert 4; Insert 3; Insert 5; Remove 1] = Some s ∧
    avl_tree.difference (Some 1%positive) s = Some (-2, s) ∧
    binary_tree.get_right 1%positive s = Some (Some 3%positive, s) ∧
    avl_tree.difference (Some 3%positive) s = Some (0, s) ∧
    avl_tree.balance 1%positive s = avl_tree.rr_rotate 1%positive s ∧
    avl_tree.balance 1%positive s ≠ avl_tree.rl_rotate 1%positive s.
Proof.
  eexists.
  split; [vm_compute; reflexivity|].
  split; [vm_compute; reflexivity|].
  split; [vm_compute; reflexivity|].
  split; [vm_compute; reflexivity|].
  split; [vm_compute; reflexivity|].
  intros H. vm_compute in H. discriminate H.
Qed.

Lemma sample_built : exec AvlTree default_compare (Insert <$> [10; 20; 30]) = Some sample.
Proof. vm_compute. reflexivity. Qed.

Lemma sample_is_tree : is_tree sample sample_tree.
Proof.
  split_and!; [reflexivity|simpl; by split_and!|].
  simpl. repeat (apply NoDup_cons; split; [set_solver|]). apply NoDup_nil_2.
Qed.

Lemma default_compare_order : strict_total_order default_compare.
Proof.
  split; unfold default_compare; intros;
    repeat match goal with
    | |- context [?a <? ?b] => destruct (Z.ltb_spec a b)
    | |- context [?a >? ?b] => destruct (Z.gtb_spec a b)
    | H : context [?a <? ?b] |- _ => destruct (Z.ltb_spec a b)
    | H : context [?a >? ?b] |- _ => destruct (Z.gtb_spec a b)
    end; try split; intros; lia.
Qed.

Lemma sample_bst : bst default_compare sample_tree.
Proof.
  simpl. split_and!; try done; intros x Hx;
    repeat (apply elem_of_cons in Hx as [->|Hx]; [reflexivity|]);
    by apply elem_of_nil in Hx.
Qed.

(** C2 at the workload 10, 20, 30, after its three inserts. *)
Lemma avl_insert_only_balanced_witness :
  (∃ s, exec AvlTree default_compare (Insert <$> take 3 [10; 20; 30]) = Some s ∧
        balanced s ∧ heights_cached s) ∧
  Z.of_nat (length [10; 20; 30]) < 2 ^ 63.
Proof.
  destruct (avl_insert_only_balanced default_compare [10; 20; 30] eq_refl 3%nat)
    as [Hb Hr].
  split; [|reflexivity].
  destruct Hr as [s E]; [no_equal_values|].
  exists s. split; [exact E|]. by apply Hb.
Defined.

(** C8, amended, at the tree of its counterexample. *)
Lemma balance_right_heavy_witness :
  ∃ s,
    exec AvlTree default_compare
      [Insert 2; Insert 1; Insert 4; Insert 3; Insert 5; Remove 1] = Some s ∧
    avl_tree.balance 1%positive s = avl_tree.rr_rotate 1%positive s.
Proof.
  eexists. split; [vm_compute; reflexivity|].
  eapply (balance_right_heavy _ 1%positive (-2) (Some 3%positive) 0).
  - vm_compute. reflexivity.
  - reflexivity.
  - vm_compute. reflexivity.
  - vm_compute. reflexivity.
  - discriminate.
Defined.

(** C9 at the sample tree and the absent value 25. *)
Lemma remove_absent_noop_witness :
  binary_tree.find default_compare (binary_tree.budget sample) (tree_root sample) 25 sample
    = Some (None, sample) ∧
  binary_tree.remove default_compare 25 sample = Some (tt, sample).
Proof.
  apply (remove_absent_noop default_compare sample sample_tree 25).
  - exact sample_is_tree.
  - intros x Hx. simpl in Hx.
    repeat (apply elem_of_cons in Hx as [->|Hx]; [discriminate|]).
    by apply elem_of_nil in Hx.
Defined.

(** C10 at the tree holding 5 alone. *)
Lemma remove_sole_node_witness :
  let s := mk_state {[1%positive := cell 5 None None None 1]} (Some 1%positive) 1 in
  let s' := mk_state (delete 1%positive (heap s)) None 0 in
  binary_tree.remove_node (Some 1%positive) s = Some (tt, s') ∧
  binary_tree.remove default_compare 5 s = Some (tt, s') ∧
  binary_tree.root s' = Some (None, s') ∧
  binary_tree.size s' = Some (0, s') ∧
  binary_tree.tree_height s' = Some (0, s').
Proof.
  intros s.
  apply (remove_sole_node default_compare s 1%positive (cell 5 None None None 1) 5);
    reflexivity.
Defined.

(** X1 at the workload 30, 10, 20 into a plain [binary_tree]. *)
Lemma insert_only_inorder_sorted_witness :
  ∃ s xs,
    exec BinaryTree default_compare (Insert <$> [30; 10; 20]) = Some s ∧
    traverse (binary_tree.budget s) (heap s) (tree_root s) = Some xs ∧
    sorted default_compare xs ∧ ∀ y, y ∈ xs ↔ y ∈ [30; 10; 20].
Proof.
  apply (insert_only_inorder_sorted default_compare BinaryTree [30; 10; 20]).
  - exact default_compare_order.
  - distinct_values.
  - reflexivity.
Defined.

(** X2 at the workload 10, 20, 30 into an AVL tree. *)
Lemma insert_only_ordered_witness :
  ∃ s, exec AvlTree default_compare (Insert <$> [10; 20; 30]) = Some s ∧
       ordered default_compare s.
Proof.
  apply (insert_only_ordered default_compare AvlTree [10; 20; 30]).
  - exact default_compare_order.
  - distinct_values.
  - reflexivity.
Defined.

(** X3 at the workload 10, 20, 30 into an AVL tree. *)
Lemma insert_only_size_witness :
  ∃ s xs,
    exec AvlTree default_compare (Insert <$> [10; 20; 30]) = Some s ∧
    traverse (binary_tree.budget s) (heap s) (tree_root s) = Some xs ∧
    binary_tree.size s = Some (Z.of_nat (length [10; 20; 30]), s) ∧
    length xs = length [10; 20; 30] ∧
    size (heap s) = length [10; 20; 30].
Proof.
  apply (insert_only_size default_compare AvlTree [10; 20; 30]).
  - no_equal_values.
  - reflexivity.
Defined.

(** X4 at the workload 10, 20, 30 into a plain [binary_tree]. *)
Lemma insert_only_heights_cached_witness :
  ∃ s, exec BinaryTree default_compare (Insert <$> [10; 20; 30]) = Some s ∧
       heights_cached s.
Proof.
  apply (insert_only_heights_cached default_compare BinaryTree [10; 20; 30]).
  - no_equal_values.
  - reflexivity.
Defined.

(** X5 at the workload 20, 10, 30. *)
Lemma binary_tree_insert_only_parents_correct_witness :
  ∃ s, exec BinaryTree default_compare (Insert <$> [20; 10; 30]) = Some s ∧
       parents_correct s.
Proof.
  apply (binary_tree_insert_only_parents_correct default_compare [20; 10; 30]).
  - no_equal_values.
  - reflexivity.
Defined.

(** X6 at the workload 10, 20, 30 into an AVL tree. *)
Lemma insert_then_find_witness :
  ∃ s,
    exec AvlTree default_compare (Insert <$> [10; 20; 30]) = Some s ∧
    ∀ v,
      (v ∈ [10; 20; 30] →
       ∃ a n, binary_tree.find default_compare (binary_tree.budget s) (tree_root s) v s
                = Some (Some a, s) ∧
              heap s !! a = Some n ∧ data n = v) ∧
      (v ∉ [10; 20; 30] →
       binary_tree.find default_compare (binary_tree.budget s) (tree_root s) v s
         = Some (None, s)).
Proof.
  apply (insert_then_find default_compare AvlTree [10; 20; 30]).
  - exact default_compare_order.
  - distinct_values.
  - reflexivity.
Defined.

(** X7 at the sample tree and the value 30. *)
Lemma find_sound_witness :
  sample = sample ∧
  ∃ n, heap sample !! 3%positive = Some n ∧ default_compare (data n) 30 = 0 ∧
       in_tree (heap sample) (tree_root sample) 3%positive.
Proof.
  apply (find_sound default_compare 2 (tree_root sample) 30 sample (Some 3%positive) sample).
  vm_compute. reflexivity.
Defined.

(** X8 at the sample tree. *)
Lemma find_min_least_witness :
  ∃ a n,
    binary_tree.find_min (binary_tree.budget sample) (tree_root sample) sample
      = Some (Some a, sample) ∧
    in_tree (heap sample) (tree_root sample) a ∧
    heap sample !! a = Some n ∧
    ∀ b m, in_tree (heap sample) (tree_root sample) b → heap sample !! b = Some m →
           default_compare (data n) (data m) ≤ 0.
Proof.
  apply (find_min_least default_compare sample sample_tree).
  - exact default_compare_order.
  - exact sample_is_tree.
  - exact sample_bst.
  - discriminate.
Defined.

(** X9 at the sample tree. *)
Lemma find_max_greatest_witness :
  ∃ a n,
    binary_tree.find_max (binary_tree.budget sample) (tree_root sample) sample
      = Some (Some a, sample) ∧
    in_tree (heap sample) (tree_root sample) a ∧
    heap sample !! a = Some n ∧
    ∀ b m, in_tree (heap sample) (tree_root sample) b → heap sample !! b = Some m →
           0 ≤ default_compare (data n) (data m).
Proof.
  apply (find_max_greatest default_compare sample sample_tree).
  - exact default_compare_order.
  - exact sample_is_tree.
  - exact sample_bst.
  - discriminate.
Defined.

(** X10 at the workload 1, ..., 7. *)
Lemma avl_height_logarithmic_witness :
  ∃ s ht,
    exec AvlTree default_compare (Insert <$> [1; 2; 3; 4; 5; 6; 7]) = Some s ∧
    binary_tree.tree_height s = Some (ht, s) ∧
    2 ^ ht ≤ (tree_size s + 1) ^ 2.
Proof.
  apply (avl_height_logarithmic default_compare [1; 2; 3; 4; 5; 6; 7]).
  - no_equal_values.
  - reflexivity.
Defined.

(** X11 at the sample tree and a new node holding 25. *)
Lemma insert_node_links_witness :
  let nx := cell 25 None None None 1 in
  let s := mk_state (<[4%positive := nx]> (heap sample)) (tree_root sample) 3 in
  ∃ s',
    tree_insert_node AvlTree default_compare 4%positive s = Some (tt, s') ∧
    traverse (binary_tree.budget s') (heap s') (tree_root s')
      = Some (pins default_compare (data nx) sample_tree) ∧
    in_tree (heap s') (tree_root s') 4%positive ∧ tree_size s' = tree_size s + 1.
Proof.
  intros nx s.
  apply (insert_node_links default_compare AvlTree s sample_tree 4%positive nx).
  - split_and!; [reflexivity|simpl; by split_and!|].
    simpl. repeat (apply NoDup_cons; split; [set_solver|]). apply NoDup_nil_2.
  - simpl. by split_and!.
  - intros _. simpl. split_and!; try done; lia.
  - simpl. lia.
  - simpl. lia.
  - reflexivity.
  - done.
  - simpl. set_solver.
  - simpl. tauto.
Defined.

(** X12 at the sample tree. *)
Lemma destructor_frees_tree_witness :
  ∃ s',
    binary_tree.destructor sample = Some (tt, s') ∧
    (∀ a, in_tree (heap sample) (tree_root sample) a → heap s' !! a = None) ∧
    (∀ a, ¬ in_tree (heap sample) (tree_root sample) a → heap s' !! a = heap sample !! a).
Proof. apply (destructor_frees_tree sample sample_tree). exact sample_is_tree. Defined.

(** X13 at the workload 10, 20, 30 into an AVL tree. *)
Lemma insert_only_then_destroy_witness :
  ∃ s s',
    exec AvlTree default_compare (Insert <$> [10; 20; 30]) = Some s ∧
    binary_tree.destructor s = Some (tt, s') ∧ heap s' = ∅.
Proof.
  apply (insert_only_then_destroy default_compare AvlTree [10; 20; 30]).
  - no_equal_values.
  - reflexivity.
Defined.

(** X15 at the values a, (empty), bc and the comma. *)
Lemma split_join_witness :
  ∃ input',
    utils.split
      (concat ((λ v, v ++ [comma]) <$> [["a"%char]; []; ["b"%char; "c"%char]])) [comma]
    = Some (filter (λ v, v ≠ []) [["a"%char]; []; ["b"%char; "c"%char]], input').
Proof.
  apply (split_join [comma] comma [["a"%char]; []; ["b"%char; "c"%char]]).
  - discriminate.
  - apply elem_of_cons. by left.
  - plain_chars.
Defined.

(** X16 at a new writer and the row a, (empty), b. *)
Lemma csv_row_round_trip_witness :
  ∃ text,
    csv_writer.put_row [["a"%char]; []; ["b"%char]] (csv_writer.mk [] [])
      = csv_writer.mk [] ([] ++ text) ∧
    csv_reader.read_row (text ++ [])
      = Some (Some (filter (λ v, v ≠ []) [["a"%char]; []; ["b"%char]]), []).
Proof.
  apply (csv_row_round_trip (csv_writer.mk [] []) [["a"%char]; []; ["b"%char]] []).
  - reflexivity.
  - plain_chars.
Defined.

(** X17 at the root of the sample tree. *)
Lemma rr_rotate_keeps_inorder_witness :
  let t := sample_tree in
  ∃ h' t',
    avl_tree.rr_rotate 2%positive (mk_state (heap sample) (Some 2%positive) 3)
      = Some (3%positive, mk_state h' (Some 2%positive) 3) ∧
    repr h' t' ∧ root_of t' = Some 3%positive ∧
    addrs t' = addrs t ∧ values t' = values t ∧
    (∀ d, d ≠ 2%positive → d ≠ 3%positive → h' !! d = heap sample !! d).
Proof.
  apply (rr_rotate_keeps_inorder (heap sample) (Some 2%positive) 3).
  - apply sample_is_tree.
  - apply sample_is_tree.
Defined.

(** X18 at the root of the sample tree. *)
Lemma ll_rotate_keeps_inorder_witness :
  let t := sample_tree in
  ∃ h' t',
    avl_tree.ll_rotate 2%positive (mk_state (heap sample) (Some 2%positive) 3)
      = Some (1%positive, mk_state h' (Some 2%positive) 3) ∧
    repr h' t' ∧ root_of t' = Some 1%positive ∧
    addrs t' = addrs t ∧ values t' = values t ∧
    (∀ d, d ≠ 2%positive → d ≠ 1%positive → h' !! d = heap sample !! d).
Proof.
  apply (ll_rotate_keeps_inorder (heap sample) (Some 2%positive) 3).
  - apply sample_is_tree.
  - apply sample_is_tree.
Defined.

(** X19 at the root of the left-right chain. *)
Lemma lr_rotate_keeps_inorder_witness :
  let t := zig_tree in
  ∃ h' t',
    avl_tree.lr_rotate 1%positive (mk_state zig_heap (Some 1%positive) 3)
      = Some (3%positive, mk_state h' (Some 1%positive) 3) ∧
    repr h' t' ∧ root_of t' = Some 3%positive ∧
    addrs t' = addrs t ∧ values t' = values t ∧
    (∀ d, d ≠ 1%positive → d ≠ 2%positive → d ≠ 3%positive → h' !! d = zig_heap !! d).
Proof.
  apply (lr_rotate_keeps_inorder zig_heap (Some 1%positive) 3).
  - simpl. by split_and!.
  - simpl. repeat (apply NoDup_cons; split; [set_solver|]). apply NoDup_nil_2.
Defined.

(** X20 at the root of the right-left chain. *)
Lemma rl_rotate_keeps_inorder_witness :
  let t := zag_tree in
  ∃ h' t',
    avl_tree.rl_rotate 1%positive (mk_state zag_heap (Some 1%positive) 3)
      = Some (3%positive, mk_state h' (Some 1%positive) 3) ∧
    repr h' t' ∧ root_of t' = Some 3%positive ∧
    addrs t' = addrs t ∧ values t' = values t ∧
    (∀ d, d ≠ 1%positive → d ≠ 2%positive → d ≠ 3%positive → h' !! d = zag_heap !! d).
Proof.
  apply (rl_rotate_keeps_inorder zag_heap (Some 1%positive) 3).
  - simpl. by split_and!.
  - simpl. repeat (apply NoDup_cons; split; [set_solver|]). apply NoDup_nil_2.
Defined.

Lemma plain_sample_built :
  exec BinaryTree default_compare (Insert <$> [20; 10; 30]) = Some plain_sample.
Proof. vm_compute. reflexivity. Qed.

(** X21 at the plain tree 20, 10, 30 and its leaf 10. *)
Lemma remove_leaf_witness :
  let nx := cell 10 (Some 1%positive) None None 1 in
  ∃ s' t',
    binary_tree.remove_node (Some 2%positive) plain_sample = Some (tt, s') ∧
    is_tree s' t' ∧ parents_ok None t' ∧ heights_ok t' ∧
    tree_size s' = wrap64 (tree_size plain_sample - 1) ∧
    heap s' !! 2%positive = None ∧
    (∀ b, b ∉ addrs plain_tree → heap s' !! b = heap plain_sample !! b) ∧
    ∃ (la lb : list addr) (xs ys : list Z),
      addrs plain_tree = la ++ 2%positive :: lb ∧
      values plain_tree = xs ++ data nx :: ys ∧
      length la = length xs ∧
      addrs t' = la ++ lb ∧ values t' = xs ++ ys.
Proof.
  intros nx.
  apply (remove_leaf plain_sample plain_tree 2%positive nx).
  - split_and!; [reflexivity|simpl; by split_and!|].
    simpl. repeat (apply NoDup_cons; split; [set_solver|]). apply NoDup_nil_2.
  - simpl. by split_and!.
  - simpl. by split_and!.
  - simpl. lia.
  - simpl. set_solver.
  - reflexivity.
  - reflexivity.
  - reflexivity.
Defined.

(** X22 at the sample tree and the new value 25. *)
Lemma insert_keeps_search_tree_witness :
  ∃ s' t',
    tree_insert AvlTree default_compare 25 sample = Some (tt, s') ∧
    is_tree s' t' ∧ bst default_compare t' ∧ heights_ok t' ∧
    (AvlTree = AvlTree → avl t') ∧
    (∀ y, y ∈ values t' ↔ y = 25 ∨ y ∈ values sample_tree) ∧
    tree_size s' = tree_size sample + 1 ∧
    length (addrs t') = S (length (addrs sample_tree)).
Proof.
  apply (insert_keeps_search_tree default_compare AvlTree sample sample_tree 25).
  - exact default_compare_order.
  - exact sample_is_tree.
  - exact sample_bst.
  - simpl. by split_and!.
  - intros _. simpl. split_and!; try done; lia.
  - simpl. lia.
  - simpl. lia.
  - simpl. set_solver.
Defined.

(** X23 at the left-right chain, which [balance] turns with [lr_rotate]. *)
Lemma balance_restores_avl_witness :
  let t := zig_tree in
  ∃ h' t' a',
    avl_tree.balance 1%positive (mk_state zig_heap (Some 1%positive) 3)
      = Some (a', mk_state h' (Some 1%positive) 3) ∧
    root_of t' = Some a' ∧ repr h' t' ∧ heights_ok t' ∧ avl t' ∧
    addrs t' = addrs t ∧ values t' = values t ∧
    (∀ b, b ∉ addrs t → h' !! b = zig_heap !! b) ∧
    (hgt t' = hgt t ∨ hgt t' = hgt t - 1).
Proof.
  apply (balance_restores_avl zig_heap (Some 1%positive) 3).
  - simpl. by split_and!.
  - simpl. repeat (apply NoDup_cons; split; [set_solver|]). apply NoDup_nil_2.
  - simpl. by split_and!.
  - simpl. split_and!; try done; lia.
  - exact I.
  - reflexivity.
  - simpl. lia.
  - intros _. simpl. discriminate.
  - simpl. discriminate.
Defined.

(** X24 at the sample tree and the value 30. *)
Lemma find_present_witness :
  ∃ a n,
    binary_tree.find default_compare (binary_tree.budget sample) (tree_root sample) 30 sample
      = Some (Some a, sample) ∧
    in_tree (heap sample) (tree_root sample) a ∧
    heap sample !! a = Some n ∧ data n = 30.
Proof.
  apply (find_present default_compare sample sample_tree 30).
  - exact default_compare_order.
  - exact sample_is_tree.
  - exact sample_bst.
  - simpl. set_solver.
Defined.

(** X25 at the sample tree and the value 20, which it holds. *)
Lemma insert_equal_use_after_free_witness :
  tree_insert AvlTree default_compare 20 sample = None.
Proof.
  apply (insert_equal_use_after_free default_compare AvlTree sample sample_tree 20).
  - exact sample_is_tree.
  - simpl. exact I.
Defined.
